(** * NanoClaw agent runner: IPC emitter, sandboxed tools and tool-calling loop

    A shallow embedding of the container-side agent runner
    ([ipc-mcp.ts], [builtin-tools.ts], [custom-provider.ts]) and of the
    request handler of the local web server ([web-server.ts]), together
    with the properties its specification states about it.

    Conventions.
    - A JavaScript string is a [string]: a sequence of code units below 256.
    - The file system is threaded explicitly through every operation.
    - Third-party parsers ([CronExpressionParser.parse], [new Date]) and the
      sources of time and randomness are section variables. *)

From Stdlib Require Import ZArith Ascii String List Bool Lia.
From stdpp Require Import base option list gmap strings pretty.

Local Open Scope Z_scope.

(* ===================================================================== *)
(** * JavaScript built-ins used by the runner *)
(* ===================================================================== *)

Module JS.

(** The double quote and the line feed, as one-character strings. *)
Definition dq_char : ascii := "034"%char.
Definition dq : string := String dq_char "".
Definition lf_char : ascii := "010"%char.
Definition LF : string := String lf_char "".

(** [x || d] on a value that is a string or [undefined]: the empty string is
    falsy, like [undefined]. *)
Definition truthy (o : option string) : bool :=
  match o with
  | Some (String _ _) => true
  | _ => false
  end.

Definition or_default (o : option string) (d : string) : string :=
  match o with
  | Some (String c s) => String c s
  | _ => d
  end.

(** [StrWhiteSpaceChar], restricted to code units below 256: TAB, LF, VT, FF,
    CR, SP and NBSP. *)
Definition is_ws (c : ascii) : bool :=
  match c with
  | "009" | "010" | "011" | "012" | "013" | " " | "160" => true
  | _ => false
  end%char.

(** The value of a decimal digit: code units 48 to 57. *)
Definition digit_of (c : ascii) : option Z :=
  let n := Z.of_N (N_of_ascii c) in
  if (48 <=? n) && (n <=? 57) then Some (n - 48) else None.

Fixpoint skip_ws (s : string) : string :=
  match s with
  | String c s' => if is_ws c then skip_ws s' else s
  | "" => ""
  end.

(** The mathematical value of the longest prefix of decimal digits, read
    left to right with accumulator [acc]. *)
Fixpoint digits_value (acc : Z) (s : string) : Z :=
  match s with
  | String c s' =>
      match digit_of c with
      | Some d => digits_value (10 * acc + d) s'
      | None => acc
      end
  | "" => acc
  end.

(** The sign read by [parseInt], and what follows it. *)
Definition read_sign (s : string) : Z * string :=
  match s with
  | String "-"%char r => (-1, r)
  | String "+"%char r => (1, r)
  | _ => (1, s)
  end.

(** [parseInt(s, 10)]; [None] is [NaN].  Leading white space is dropped, one
    sign is read, then the longest run of decimal digits; whatever follows is
    ignored.  The result is kept exact: the validators below only test it for
    [NaN] and for its sign, which rounding to a double leaves unchanged. *)
Definition parseInt10 (s : string) : option Z :=
  let '(sign, body) := read_sign (skip_ws s) in
  match body with
  | String c _ =>
      match digit_of c with
      | Some _ => Some (sign * digits_value 0 body)
      | None => None
      end
  | "" => None
  end.

(** [s.startsWith(p)] and [s.endsWith(p)]. *)
Fixpoint startsWith (s p : string) : bool :=
  match p, s with
  | "", _ => true
  | String a p', String b s' => if Ascii.eqb a b then startsWith s' p' else false
  | String _ _, "" => false
  end.

Definition endsWith (s p : string) : bool :=
  startsWith (String.rev s) (String.rev p).

(** [s.includes(p)]. *)
Fixpoint includes (s p : string) : bool :=
  if startsWith s p then true
  else match s with
       | String _ s' => includes s' p
       | "" => false
       end.

(** [s.split(c)] for a one-character separator, and [l.join(sep)]. *)
Fixpoint split_go (sep : ascii) (cur : string) (s : string) : list string :=
  match s with
  | "" => [String.rev cur]
  | String c s' =>
      if Ascii.eqb c sep then String.rev cur :: split_go sep "" s'
      else split_go sep (String c cur) s'
  end.

Definition split (sep : ascii) (s : string) : list string := split_go sep "" s.

Fixpoint join (sep : string) (l : list string) : string :=
  match l with
  | [] => ""
  | [x] => x
  | x :: rest => x +:+ sep +:+ join sep rest
  end.

(** [s.trim()]. *)
Definition trim (s : string) : string :=
  String.rev (skip_ws (String.rev (skip_ws s))).

(** ** Facts about the built-ins *)

Fixpoint all_ws (s : string) : bool :=
  match s with
  | "" => true
  | String c s' => is_ws c && all_ws s'
  end.

Fixpoint all_digits (s : string) : bool :=
  match s with
  | "" => true
  | String c s' => bool_decide (is_Some (digit_of c)) && all_digits s'
  end.

Lemma app_cons c s t : String c s +:+ t = String c (s +:+ t).
Proof. reflexivity. Qed.

Lemma app_empty_r s : s +:+ "" = s.
Proof. induction s as [|c s IH]; [done|]. by rewrite app_cons, IH. Qed.

Lemma app_assoc' (s t u : string) : (s +:+ t) +:+ u = s +:+ t +:+ u.
Proof. induction s as [|c s IH]; [done|]. by rewrite !app_cons, IH. Qed.

Lemma length_app (s t : string) :
  String.length (s +:+ t) = (String.length s + String.length t)%nat.
Proof. induction s as [|c s IH]; [done|]. rewrite app_cons. simpl. by rewrite IH. Qed.

Lemma skip_ws_split s : exists ws, s = ws +:+ skip_ws s /\ all_ws ws = true.
Proof.
  induction s as [|c s [ws [E H]]]; [by exists ""|].
  simpl. destruct (is_ws c) eqn:Hc.
  - exists (String c ws). rewrite ?app_cons, <- E. simpl. by rewrite Hc, H.
  - by exists "".
Qed.

Lemma skip_ws_app ws r : all_ws ws = true -> skip_ws (ws +:+ r) = skip_ws r.
Proof.
  induction ws as [|c ws IH]; [done|]. simpl. intros [Hc H]%andb_true_iff.
  rewrite ?app_cons. simpl. rewrite Hc. auto.
Qed.

Lemma digit_of_bounds c d : digit_of c = Some d -> 0 <= d <= 9.
Proof.
  destruct c as [[] [] [] [] [] [] [] []]; simpl; intros [= <-]; lia.
Qed.

Lemma digit_not_ws c d : digit_of c = Some d -> is_ws c = false.
Proof. destruct c as [[] [] [] [] [] [] [] []]; simpl; by intros [= <-]. Qed.

Lemma digits_value_split s :
  exists ds rest, s = ds +:+ rest /\ all_digits ds = true /\
    (forall acc, digits_value acc s = digits_value acc ds) /\
    (ds = "" -> forall acc, digits_value acc s = acc).
Proof.
  induction s as [|c s (ds & rest & E & Hd & Hv & Hn)].
  - by exists "", "".
  - destruct (digit_of c) as [d|] eqn:Hc.
    + exists (String c ds), rest. rewrite ?app_cons, <- E. simpl. rewrite Hc.
      repeat split; try done.
    + exists "", (String c s). simpl. rewrite Hc. done.
Qed.

Lemma digits_value_ge acc s : 0 <= acc -> acc <= digits_value acc s.
Proof.
  revert acc. induction s as [|c s IH]; intros acc H; simpl; [lia|].
  destruct (digit_of c) as [d|] eqn:Hc; [|lia].
  apply digit_of_bounds in Hc. specialize (IH (10 * acc + d)). lia.
Qed.

Lemma digits_value_app acc ds rest :
  all_digits ds = true ->
  digits_value acc (ds +:+ rest) = digits_value (digits_value acc ds) rest.
Proof.
  revert acc. induction ds as [|c ds IH]; intros acc; [done|].
  simpl. intros [Hc H]%andb_true_iff. rewrite ?app_cons. simpl.
  apply bool_decide_eq_true in Hc as [d ->]. auto.
Qed.

Lemma read_sign_cases s :
  (exists r, s = String "-" r /\ read_sign s = (-1, r)) \/
  (exists r, s = String "+" r /\ read_sign s = (1, r)) \/
  (read_sign s = (1, s) /\
   match s with String c _ => c <> "-"%char /\ c <> "+"%char | "" => True end).
Proof.
  destruct s as [|c r]; [by right; right|].
  destruct c as [[] [] [] [] [] [] [] []];
    first [ by left; eexists | by right; left; eexists | by right; right ].
Qed.

End JS.

(* ===================================================================== *)
(** * JSON payloads and [JSON.stringify] *)
(* ===================================================================== *)

Module Json.
Import JS.

(** The values the IPC payloads hold.  A field whose value is [undefined]
    ([None]) is left out by [JSON.stringify]. *)
Inductive jvalue :=
  | JString (s : string)
  | JBool (b : bool).

Definition jobject := list (string * option jvalue).

Fixpoint get (k : string) (o : jobject) : option jvalue :=
  match o with
  | [] => None
  | (k', v) :: rest => if String.eqb k k' then v else get k rest
  end.

Definition hex_digit (n : N) : ascii :=
  match n with
  | 0 => "0" | 1 => "1" | 2 => "2" | 3 => "3" | 4 => "4" | 5 => "5"
  | 6 => "6" | 7 => "7" | 8 => "8" | 9 => "9" | 10 => "a" | 11 => "b"
  | 12 => "c" | 13 => "d" | 14 => "e" | _ => "f"
  end%N%char.

(** [QuoteJSONString] on one code unit. *)
Definition quote_char (c : ascii) : string :=
  let n := N_of_ascii c in
  if (n =? 8)%N then "\b"
  else if (n =? 9)%N then "\t"
  else if (n =? 10)%N then "\n"
  else if (n =? 12)%N then "\f"
  else if (n =? 13)%N then "\r"
  else if (n =? 34)%N then String "\" dq
  else if (n =? 92)%N then "\\"
  else if (n <? 32)%N then
    "\u00" +:+ String (hex_digit (n / 16)) (String (hex_digit (n mod 16)) "")
  else String c "".

Fixpoint quote_body (s : string) : string :=
  match s with
  | "" => ""
  | String c s' => quote_char c +:+ quote_body s'
  end.

Definition quote (s : string) : string := dq +:+ quote_body s +:+ dq.

Definition stringify_value (v : jvalue) : string :=
  match v with
  | JString s => quote s
  | JBool true => "true"
  | JBool false => "false"
  end.

(** The members that are written: those whose value is defined. *)
Fixpoint members (o : jobject) : list (string * jvalue) :=
  match o with
  | [] => []
  | (k, Some v) :: rest => (k, v) :: members rest
  | (_, None) :: rest => members rest
  end.

Definition stringify_member (m : string * jvalue) : string :=
  "  " +:+ quote (fst m) +:+ ": " +:+ stringify_value (snd m).

(** [JSON.stringify(data, null, 2)] of a flat object. *)
Definition stringify (o : jobject) : string :=
  match members o with
  | [] => "{}"
  | ms => "{" +:+ LF +:+ join ("," +:+ LF) (map stringify_member ms) +:+ LF +:+ "}"
  end.

(** ** A recogniser of JSON texts

    What [JSON.parse] accepts (RFC 8259): white space, one value, white
    space.  Each scanner returns the input left after what it read.  [fuel]
    bounds the nesting depth; [valid] gives it the length of the text. *)

Definition is_json_ws (c : ascii) : bool :=
  match c with
  | " " | "009" | "010" | "013" => true
  | _ => false
  end%char.

Fixpoint json_ws (s : string) : string :=
  match s with
  | String c s' => if is_json_ws c then json_ws s' else s
  | "" => ""
  end.

Definition is_digit (c : ascii) : bool := bool_decide (is_Some (digit_of c)).

Definition is_hex (c : ascii) : bool :=
  is_digit c ||
  match c with
  | "a" | "b" | "c" | "d" | "e" | "f" | "A" | "B" | "C" | "D" | "E" | "F" => true
  | _ => false
  end%char.

Definition simple_escape (c : ascii) : bool :=
  Ascii.eqb c dq_char ||
  match c with
  | "\" | "/" | "b" | "f" | "n" | "r" | "t" => true
  | _ => false
  end%char.

(** After the opening quote: up to and including the closing quote. *)
Fixpoint scan_string (s : string) : option string :=
  match s with
  | "" => None
  | String c r =>
      if Ascii.eqb c dq_char then Some r
      else if Ascii.eqb c "\" then
        match r with
        | String e r' =>
            if simple_escape e then scan_string r'
            else if Ascii.eqb e "u" then
              match r' with
              | String h1 (String h2 (String h3 (String h4 r''))) =>
                  if is_hex h1 && is_hex h2 && is_hex h3 && is_hex h4
                  then scan_string r'' else None
              | _ => None
              end
            else None
        | "" => None
        end
      else if (N_of_ascii c <? 32)%N then None
      else scan_string r
  end.

Fixpoint strip_prefix (p s : string) : option string :=
  match p, s with
  | "", _ => Some s
  | String a p', String b s' => if Ascii.eqb a b then strip_prefix p' s' else None
  | String _ _, "" => None
  end.

Fixpoint skip_digits (s : string) : string :=
  match s with
  | String c s' => if is_digit c then skip_digits s' else s
  | "" => ""
  end.

Definition scan_digits1 (s : string) : option string :=
  match s with
  | String c r => if is_digit c then Some (skip_digits r) else None
  | "" => None
  end.

Definition scan_frac_exp (s : string) : option string :=
  let after_frac :=
    match s with
    | String "."%char r => scan_digits1 r
    | _ => Some s
    end in
  match after_frac with
  | Some (String c r) =>
      if Ascii.eqb c "e" || Ascii.eqb c "E" then
        match r with
        | String "+"%char r' | String "-"%char r' => scan_digits1 r'
        | _ => scan_digits1 r
        end
      else Some (String c r)
  | other => other
  end.

Definition scan_number (s : string) : option string :=
  let s := match s with String "-"%char r => r | _ => s end in
  match s with
  | String c r =>
      if Ascii.eqb c "0" then scan_frac_exp r
      else if is_digit c then scan_frac_exp (skip_digits r)
      else None
  | "" => None
  end.

Fixpoint scan_value (fuel : nat) (s : string) : option string :=
  match fuel with
  | O => None
  | S fuel =>
    match s with
    | "" => None
    | String c r =>
        if Ascii.eqb c "{" then
          match json_ws r with
          | String c' r' =>
              if Ascii.eqb c' "}" then Some r'
              else scan_members fuel (String c' r')
          | "" => None
          end
        else if Ascii.eqb c "[" then
          match json_ws r with
          | String c' r' =>
              if Ascii.eqb c' "]" then Some r'
              else scan_elements fuel (String c' r')
          | "" => None
          end
        else if Ascii.eqb c dq_char then scan_string r
        else if Ascii.eqb c "t" then strip_prefix "true" s
        else if Ascii.eqb c "f" then strip_prefix "false" s
        else if Ascii.eqb c "n" then strip_prefix "null" s
        else scan_number s
    end
  end
with scan_members (fuel : nat) (s : string) : option string :=
  match fuel with
  | O => None
  | S fuel =>
    match s with
    | "" => None
    | String c r =>
        if Ascii.eqb c dq_char then
          match scan_string r with
          | Some r1 =>
              match json_ws r1 with
              | String c1 r2 =>
                  if Ascii.eqb c1 ":" then
                    match scan_value fuel (json_ws r2) with
                    | Some r3 =>
                        match json_ws r3 with
                        | String c3 r4 =>
                            if Ascii.eqb c3 "," then scan_members fuel (json_ws r4)
                            else if Ascii.eqb c3 "}" then Some r4
                            else None
                        | "" => None
                        end
                    | None => None
                    end
                  else None
              | "" => None
              end
          | None => None
          end
        else None
    end
  end
with scan_elements (fuel : nat) (s : string) : option string :=
  match fuel with
  | O => None
  | S fuel =>
    match scan_value fuel s with
    | Some r1 =>
        match json_ws r1 with
        | String c r2 =>
            if Ascii.eqb c "," then scan_elements fuel (json_ws r2)
            else if Ascii.eqb c "]" then Some r2
            else None
        | "" => None
        end
    | None => None
    end
  end.

(** The text parses as JSON. *)
Definition valid (s : string) : bool :=
  match scan_value (S (String.length s)) (json_ws s) with
  | Some r => String.eqb (json_ws r) ""
  | None => false
  end.

(** ** [JSON.stringify] writes valid JSON *)

Lemma scan_string_quote_char c r :
  scan_string (quote_char c +:+ r) = scan_string r.
Proof. destruct c as [[] [] [] [] [] [] [] []]; reflexivity. Qed.

Lemma scan_string_quote_body s r :
  scan_string (quote_body s +:+ r) = scan_string r.
Proof.
  induction s as [|c s IH]; [done|].
  simpl. by rewrite app_assoc', scan_string_quote_char.
Qed.

Lemma scan_string_quoted s r :
  scan_string (quote_body s +:+ dq +:+ r) = Some r.
Proof. by rewrite scan_string_quote_body. Qed.

Lemma quote_unfold s r :
  quote s +:+ r = String dq_char (quote_body s +:+ dq +:+ r).
Proof. unfold quote. by rewrite !app_assoc'. Qed.

Lemma json_ws_value v r :
  json_ws (stringify_value v +:+ r) = stringify_value v +:+ r.
Proof.
  destruct v as [s|[]]; [|reflexivity..].
  cbn [stringify_value]. rewrite quote_unfold. reflexivity.
Qed.

(** A value is read whole, with one unit of fuel. *)
Lemma scan_value_stringify_value fuel v r :
  scan_value (S fuel) (stringify_value v +:+ r) = Some r.
Proof.
  destruct v as [s|[]]; [|reflexivity..].
  cbn [stringify_value]. rewrite quote_unfold.
  change (scan_value (S fuel) (String dq_char ?x)) with (scan_string x).
  apply scan_string_quoted.
Qed.

Lemma scan_members_unfold fuel r :
  scan_members (S fuel) (String dq_char r) =
    match scan_string r with
    | Some r1 =>
        match json_ws r1 with
        | String c1 r2 =>
            if Ascii.eqb c1 ":" then
              match scan_value fuel (json_ws r2) with
              | Some r3 =>
                  match json_ws r3 with
                  | String c3 r4 =>
                      if Ascii.eqb c3 "," then scan_members fuel (json_ws r4)
                      else if Ascii.eqb c3 "}" then Some r4
                      else None
                  | "" => None
                  end
              | None => None
              end
            else None
        | "" => None
        end
    | None => None
    end.
Proof. reflexivity. Qed.

(** The text that follows the first member of an object. *)
Fixpoint members_tail (ms : list (string * jvalue)) (r : string) : string :=
  match ms with
  | [] => LF +:+ "}" +:+ r
  | m :: ms' => "," +:+ LF +:+ stringify_member m +:+ members_tail ms' r
  end.

Lemma join_members m ms r :
  join ("," +:+ LF) (map stringify_member (m :: ms)) +:+ LF +:+ "}" +:+ r
  = stringify_member m +:+ members_tail ms r.
Proof.
  revert m. induction ms as [|m' ms IH]; intros m; [done|].
  change (join ("," +:+ LF) (map stringify_member (m :: m' :: ms)))
    with (stringify_member m +:+ ("," +:+ LF)
            +:+ join ("," +:+ LF) (map stringify_member (m' :: ms))).
  rewrite !app_assoc'. rewrite IH. done.
Qed.

Lemma scan_members_text fuel m ms r :
  (length ms < fuel)%nat ->
  scan_members (S fuel) (json_ws (stringify_member m +:+ members_tail ms r))
  = Some r.
Proof.
  revert fuel m. induction ms as [|m' ms IH]; intros fuel [k v] Hlen;
    (destruct fuel as [|fuel]; [simpl in Hlen; lia|]);
    unfold stringify_member; cbn [fst snd]; rewrite !app_assoc', quote_unfold;
    change (json_ws ("  " +:+ String dq_char ?x)) with (String dq_char x);
    rewrite scan_members_unfold, scan_string_quoted;
    change (json_ws (": " +:+ ?x)) with (String ":" (String " " x));
    cbv iota; change (Ascii.eqb ":" ":") with true; cbv iota;
    change (json_ws (String " " ?x)) with (json_ws x);
    rewrite json_ws_value, scan_value_stringify_value.
  - done.
  - cbn [members_tail].
    change (json_ws ("," +:+ LF +:+ ?x)) with (String "," (LF +:+ x)).
    cbv iota. change (Ascii.eqb "," ",") with true. cbv iota.
    change (json_ws (LF +:+ ?x)) with (json_ws x).
    apply IH. simpl in Hlen. lia.
Qed.

Lemma members_length_le (ms : list (string * jvalue)) r :
  (length ms <= String.length (members_tail ms r))%nat.
Proof.
  induction ms as [|m ms IH]; [simpl; lia|].
  cbn [members_tail]. rewrite !length_app. simpl. lia.
Qed.

(** Whatever [JSON.stringify] writes for a payload parses as JSON. *)
Lemma stringify_valid o : valid (stringify o) = true.
Proof.
  unfold stringify, valid. destruct (members o) as [|m ms]; [done|].
  rewrite <- (app_empty_r "}"). rewrite join_members.
  set (body := stringify_member m +:+ members_tail ms "").
  change (json_ws ("{" +:+ LF +:+ body)) with (String "{" (LF +:+ body)).
  change (scan_value (S ?n) (String "{" (LF +:+ body)))
    with (match json_ws body with
          | String c' r' =>
              if Ascii.eqb c' "}" then Some r' else scan_members n (String c' r')
          | "" => None
          end).
  assert (json_ws body = String dq_char
            (quote_body (fst m) +:+ dq +:+ ": " +:+ stringify_value (snd m)
               +:+ members_tail ms "")) as E.
  { unfold body, stringify_member. by rewrite !app_assoc', quote_unfold. }
  pose proof (scan_members_text (String.length ("{" +:+ LF +:+ body) - 1) m ms "") as H.
  fold body in H. rewrite E in *. cbv iota.
  change (Ascii.eqb dq_char "}") with false. cbv iota.
  replace (String.length ("{" +:+ LF +:+ body)) with
    (S (String.length ("{" +:+ LF +:+ body) - 1)) at 1 by (simpl; lia).
  rewrite H; [done|].
  pose proof (members_length_le ms "").
  unfold body. simpl. rewrite length_app. lia.
Qed.

(** The text dropped for a payload is well-formed JSON, whatever strings the
    payload holds: quotes, backslashes and control characters in a prompt or
    a message are escaped, so the reader's [JSON.parse] does not fail on
    it. *)
Theorem stringify_parses_as_json (o : jobject) : valid (stringify o) = true.
Proof. apply stringify_valid. Qed.

End Json.

(* ===================================================================== *)
(** * The file-drop IPC emitter ([ipc-mcp.ts]) *)
(* ===================================================================== *)

Module Ipc.
Import JS Json.

Definition path_join (dir name : string) : string := dir +:+ "/" +:+ name.

Definition IPC_DIR : string := "/workspace/ipc".
Definition MESSAGES_DIR : string := path_join IPC_DIR "messages".
Definition TASKS_DIR : string := path_join IPC_DIR "tasks".

Record IpcMcpContext := {
  chatJid : string;
  groupFolder : string;
  isMain : bool
}.

(** The part of the world the emitter acts on: regular files by absolute
    path, the directories made so far, and a counter of the readings taken
    from the clock and the random source. *)
Record World := {
  files : gmap string string;
  dirs : gset string;
  tick : nat
}.

(** ** File-system primitives *)

(** The system calls behind [mkdirSync], [writeFileSync] and [renameSync].
    [writeFileSync] opens with flag ['w'] (the file exists and is empty from
    then on) and writes its data in one or more [write] calls. *)
Inductive fs_op :=
  | OpMkdir (dir : string)
  | OpOpenTrunc (path : string)
  | OpAppend (path : string) (chunk : string)
  | OpRename (src dst : string).

Definition apply_op (op : fs_op) (w : World) : World :=
  match op with
  | OpMkdir d =>
      {| files := files w; dirs := {[ d ]} ∪ dirs w; tick := tick w |}
  | OpOpenTrunc p =>
      {| files := <[ p := "" ]> (files w); dirs := dirs w; tick := tick w |}
  | OpAppend p chunk =>
      {| files := <[ p := from_option id "" (files w !! p) +:+ chunk ]> (files w);
         dirs := dirs w; tick := tick w |}
  | OpRename src dst =>
      match files w !! src with
      | Some c =>
          {| files := <[ dst := c ]> (delete src (files w));
             dirs := dirs w; tick := tick w |}
      | None => w
      end
  end.

Definition run_ops (ops : list fs_op) (w : World) : World :=
  fold_left (fun w op => apply_op op w) ops w.

(** The states a concurrent reader can observe while [ops] run: the state
    before the first call and the state after each call. *)
Fixpoint observable (ops : list fs_op) (w : World) : list World :=
  match ops with
  | [] => [w]
  | op :: rest => w :: observable rest (apply_op op w)
  end.

Definition mkdirSync (dir : string) (w : World) : World :=
  apply_op (OpMkdir dir) w.

Definition writeFileSync (path data : string) (w : World) : World :=
  {| files := <[ path := data ]> (files w); dirs := dirs w; tick := tick w |}.

Definition renameSync (src dst : string) (w : World) : World :=
  apply_op (OpRename src dst) w.

(** [readdirSync(dir)] as far as regular files go: [name] is listed when
    [dir/name] is a file. *)
Definition listed (dir name : string) (w : World) : option string :=
  files w !! path_join dir name.

Section Emitter.

(** [Date.now()], [Math.random().toString(36).slice(2, 8)] and
    [new Date().toISOString()] at the n-th reading. *)
Variable Date_now : nat -> Z.
Variable random_suffix : nat -> string.
Variable toISOString : nat -> string.

(** [CronExpressionParser.parse(v)] returns (rather than throws), and
    [new Date(v).getTime()] is a number (rather than [NaN]). *)
Variable cron_parses : string -> bool.
Variable date_parses : string -> bool.

Definition ipc_filename (w : World) : string :=
  pretty (Date_now (tick w)) +:+ "-" +:+ random_suffix (tick w) +:+ ".json".

Definition temp_path (filepath : string) : string := filepath +:+ ".tmp".

Definition writeIpcFile (dir : string) (data : jobject) (w : World)
  : string * World :=
  let w := mkdirSync dir w in
  let filename := ipc_filename w in
  let filepath := path_join dir filename in
  let tempPath := temp_path filepath in
  let w := writeFileSync tempPath (stringify data) w in
  let w := renameSync tempPath filepath w in
  (filename, {| files := files w; dirs := dirs w; tick := S (tick w) |}).

(** The same call, one system call at a time; [chunks] are the pieces in
    which the operating system takes the serialised payload. *)
Definition writeIpcFile_ops (dir : string) (chunks : list string) (w : World)
  : list fs_op :=
  let filepath := path_join dir (ipc_filename w) in
  let tempPath := temp_path filepath in
  OpMkdir dir :: OpOpenTrunc tempPath
    :: map (OpAppend tempPath) chunks ++ [OpRename tempPath filepath].

(** ** The MCP tool [schedule_task] *)

Inductive ScheduleType := Cron | Interval | Once.
Inductive ContextMode := Group | Isolated.

Definition schedule_type_str (t : ScheduleType) : string :=
  match t with Cron => "cron" | Interval => "interval" | Once => "once" end.

Definition context_mode_str (m : ContextMode) : string :=
  match m with Group => "group" | Isolated => "isolated" end.

(** The arguments after schema validation. *)
Record ScheduleArgs := {
  prompt : string;
  schedule_type : ScheduleType;
  schedule_value : string;
  context_mode : option ContextMode;
  target_group_jid : option string
}.

Record CallToolResult := {
  text : string;
  isError : bool
}.

Definition error_result (msg : string) : CallToolResult :=
  {| text := msg; isError := true |}.

Definition invalid_cron_text (v : string) : string :=
  "Invalid cron: " +:+ dq +:+ v +:+ dq +:+ ". Use format like " +:+ dq
  +:+ "0 9 * * *" +:+ dq +:+ " (daily 9am) or " +:+ dq +:+ "*/5 * * * *"
  +:+ dq +:+ " (every 5 min).".

Definition invalid_interval_text (v : string) : string :=
  "Invalid interval: " +:+ dq +:+ v +:+ dq
  +:+ ". Must be positive milliseconds (e.g., " +:+ dq +:+ "300000" +:+ dq
  +:+ " for 5 min).".

Definition invalid_timestamp_text (v : string) : string :=
  "Invalid timestamp: " +:+ dq +:+ v +:+ dq
  +:+ ". Use ISO 8601 format like " +:+ dq +:+ "2026-02-01T15:30:00.000Z"
  +:+ dq +:+ ".".

(** [isNaN(ms) || ms <= 0] for [ms = parseInt(v, 10)]. *)
Definition interval_rejected (v : string) : bool :=
  match parseInt10 v with
  | None => true
  | Some ms => ms <=? 0
  end.

(** The object built once validation has passed. *)
Definition schedule_task_data (ctx : IpcMcpContext) (args : ScheduleArgs)
  (timestamp : string) : jobject :=
  let targetJid :=
    if isMain ctx && truthy (target_group_jid args)
    then default "" (target_group_jid args)
    else chatJid ctx in
  [ ("type", Some (JString "schedule_task"));
    ("prompt", Some (JString (prompt args)));
    ("schedule_type", Some (JString (schedule_type_str (schedule_type args))));
    ("schedule_value", Some (JString (schedule_value args)));
    ("context_mode",
      Some (JString (context_mode_str (default Group (context_mode args)))));
    ("targetJid", Some (JString targetJid));
    ("createdBy", Some (JString (groupFolder ctx)));
    ("timestamp", Some (JString timestamp)) ].

Definition schedule_task (ctx : IpcMcpContext) (args : ScheduleArgs)
  (w : World) : CallToolResult * World :=
  let v := schedule_value args in
  let rejected :=
    match schedule_type args with
    | Cron =>
        if cron_parses v then None else Some (error_result (invalid_cron_text v))
    | Interval =>
        if interval_rejected v
        then Some (error_result (invalid_interval_text v)) else None
    | Once =>
        if date_parses v
        then None else Some (error_result (invalid_timestamp_text v))
    end in
  match rejected with
  | Some r => (r, w)
  | None =>
      let data := schedule_task_data ctx args (toISOString (tick w)) in
      let '(filename, w') := writeIpcFile TASKS_DIR data w in
      ({| text := "Task scheduled (" +:+ filename +:+ "): "
                  +:+ schedule_type_str (schedule_type args) +:+ " - " +:+ v;
          isError := false |}, w')
  end.

(** ** The executor [mcp__nanoclaw__schedule_task] of [getIpcToolsForOpenAI] *)

(** [args] is a [Record<string, unknown>] read at the declared type of each
    property: a string, or [undefined] when the key is absent. *)
Record OpenAIArgs := {
  arg_prompt : option string;
  arg_schedule_type : option string;
  arg_schedule_value : option string;
  arg_context_mode : option string;
  arg_target_group : option string
}.

Definition openai_schedule_task_data (ctx : IpcMcpContext) (args : OpenAIArgs)
  (timestamp : string) : jobject :=
  let schedule_type := or_default (arg_schedule_type args) "cron" in
  let schedule_value := or_default (arg_schedule_value args) "" in
  let targetGroup :=
    if isMain ctx && truthy (arg_target_group args)
    then default "" (arg_target_group args)
    else groupFolder ctx in
  [ ("type", Some (JString "schedule_task"));
    ("prompt", JString <$> arg_prompt args);
    ("schedule_type", Some (JString schedule_type));
    ("schedule_value", Some (JString schedule_value));
    ("context_mode", Some (JString (or_default (arg_context_mode args) "group")));
    ("groupFolder", Some (JString targetGroup));
    ("chatJid", Some (JString (chatJid ctx)));
    ("createdBy", Some (JString (groupFolder ctx)));
    ("timestamp", Some (JString timestamp)) ].

Definition openai_invalid_cron_text (v : string) : string :=
  "Invalid cron: " +:+ dq +:+ v +:+ dq +:+ ". Use format like " +:+ dq
  +:+ "0 9 * * *" +:+ dq +:+ " or " +:+ dq +:+ "*/5 * * * *" +:+ dq +:+ ".".

Definition openai_invalid_interval_text (v : string) : string :=
  "Invalid interval: " +:+ dq +:+ v +:+ dq +:+ ". Must be positive milliseconds.".

Definition openai_invalid_timestamp_text (v : string) : string :=
  "Invalid timestamp: " +:+ dq +:+ v +:+ dq +:+ ". Use ISO 8601.".

Definition openai_schedule_task (ctx : IpcMcpContext) (args : OpenAIArgs)
  (w : World) : string * World :=
  let schedule_type := or_default (arg_schedule_type args) "cron" in
  let schedule_value := or_default (arg_schedule_value args) "" in
  let rejected :=
    if String.eqb schedule_type "cron" then
      if cron_parses schedule_value then None
      else Some (openai_invalid_cron_text schedule_value)
    else if String.eqb schedule_type "interval" then
      if interval_rejected schedule_value
      then Some (openai_invalid_interval_text schedule_value) else None
    else if String.eqb schedule_type "once" then
      if date_parses schedule_value then None
      else Some (openai_invalid_timestamp_text schedule_value)
    else None in
  match rejected with
  | Some msg => (msg, w)
  | None =>
      let data := openai_schedule_task_data ctx args (toISOString (tick w)) in
      let '(filename, w') := writeIpcFile TASKS_DIR data w in
      ("Task scheduled (" +:+ filename +:+ "): " +:+ schedule_type +:+ " - "
         +:+ schedule_value, w')
  end.

(** ** What [writeIpcFile] leaves behind *)

Lemma writeIpcFile_filename dir data w :
  (writeIpcFile dir data w).1 = ipc_filename w.
Proof. reflexivity. Qed.

Lemma writeIpcFile_files dir data w :
  files (writeIpcFile dir data w).2 =
    <[ path_join dir (ipc_filename w) := stringify data ]>
      (delete (temp_path (path_join dir (ipc_filename w))) (files w)).
Proof.
  unfold writeIpcFile, renameSync, writeFileSync, mkdirSync. simpl.
  change (ipc_filename _) with (ipc_filename w).
  rewrite lookup_insert_eq. simpl. by rewrite delete_insert_eq.
Qed.

(** The payload is readable under the returned name once the call is over. *)
Lemma writeIpcFile_listed dir data w :
  listed dir (writeIpcFile dir data w).1 (writeIpcFile dir data w).2
  = Some (stringify data).
Proof.
  unfold listed. rewrite writeIpcFile_files, writeIpcFile_filename.
  by rewrite lookup_insert_eq.
Qed.

(** ** Atomicity of the write, one system call at a time *)

Definition concat_chunks (chunks : list string) : string :=
  foldr String.append "" chunks.

Lemma observable_app ops1 ops2 w0 w :
  w ∈ observable (ops1 ++ ops2) w0 <->
  w ∈ observable ops1 w0 \/ w ∈ observable ops2 (run_ops ops1 w0).
Proof.
  revert w0. induction ops1 as [|op ops1 IH]; intros w0; simpl.
  - split; [by right|]. intros [H|H]; [|done].
    apply list_elem_of_singleton in H as ->. destruct ops2; simpl; left.
  - rewrite !elem_of_cons, IH. unfold run_ops. simpl. tauto.
Qed.

Lemma run_ops_app ops1 ops2 w :
  run_ops (ops1 ++ ops2) w = run_ops ops2 (run_ops ops1 w).
Proof. unfold run_ops. apply fold_left_app. Qed.

(** While the data is being written, only the staging file changes. *)
Lemma appends_touch_only_temp tmp chunks :
  forall W acc F,
    files W = <[ tmp := acc ]> F ->
    files (run_ops (map (OpAppend tmp) chunks) W)
      = <[ tmp := acc +:+ concat_chunks chunks ]> F /\
    forall w, w ∈ observable (map (OpAppend tmp) chunks) W ->
      exists acc', files w = <[ tmp := acc' ]> F.
Proof.
  induction chunks as [|c chunks IH]; intros W acc F HW.
  - simpl. rewrite app_empty_r. split; [done|].
    intros w ->%list_elem_of_singleton. eauto.
  - destruct (IH (apply_op (OpAppend tmp c) W) (acc +:+ c) F) as [Hrun Hobs].
    { simpl. rewrite HW, lookup_insert_eq. simpl. by rewrite insert_insert_eq. }
    split.
    + change (run_ops (map (OpAppend tmp) (c :: chunks)) W)
        with (run_ops (map (OpAppend tmp) chunks) (apply_op (OpAppend tmp c) W)).
      rewrite Hrun. simpl. by rewrite app_assoc'.
    + intros w. simpl. rewrite elem_of_cons. intros [->|H]; eauto.
Qed.

Lemma rename_files src dst W c F :
  files W = <[ src := c ]> F ->
  files (apply_op (OpRename src dst) W) = <[ dst := c ]> (delete src F).
Proof.
  intros E. cbn [apply_op]. rewrite E, lookup_insert_eq. cbn [files].
  by rewrite delete_insert_eq.
Qed.

Lemma temp_path_join dir name :
  temp_path (path_join dir name) = path_join dir (temp_path name).
Proof. unfold temp_path, path_join. by rewrite !app_assoc'. Qed.

Lemma path_join_inj dir a b : path_join dir a = path_join dir b -> a = b.
Proof.
  unfold path_join. intros H. apply (inj (String.app dir)) in H.
  by apply (inj (String.app "/")) in H.
Qed.

Lemma temp_path_ne p : temp_path p <> p.
Proof.
  unfold temp_path. intros H. apply (f_equal String.length) in H.
  rewrite length_app in H. simpl in H. lia.
Qed.

(** C3, as amended.  Let the target directory hold only files that parse as
    JSON, and let the operating system take the serialised payload in any
    number of pieces.  Then in every state a reader can observe during
    [writeIpcFile], every file listed in the directory under a name other
    than the staging name (the final name followed by [.tmp]) parses as JSON;
    and the final name shows what it showed before the call in every state
    but the one reached by the rename, where it shows the whole payload. *)
Theorem staged_write_shows_no_partial_payload
  (dir : string) (data : jobject) (chunks : list string) (w0 : World) :
  concat_chunks chunks = stringify data ->
  (forall name content, listed dir name w0 = Some content -> valid content = true) ->
  forall w, w ∈ observable (writeIpcFile_ops dir chunks w0) w0 ->
    (forall name content,
       name <> temp_path (ipc_filename w0) ->
       listed dir name w = Some content -> valid content = true) /\
    (listed dir (ipc_filename w0) w = listed dir (ipc_filename w0) w0 \/
     w = run_ops (writeIpcFile_ops dir chunks w0) w0 /\
     listed dir (ipc_filename w0) w = Some (stringify data)).
Proof.
  intros Hchunks Hvalid w Hw.
  set (f := ipc_filename w0) in *.
  set (fin := path_join dir f).
  set (tmp := temp_path fin).
  set (w2 := apply_op (OpOpenTrunc tmp) (apply_op (OpMkdir dir) w0)).
  assert (files w2 = <[ tmp := "" ]> (files w0)) as Hw2 by done.
  destruct (appends_touch_only_temp tmp chunks w2 "" (files w0) Hw2) as [Hrun Hobs].
  (* A state in which only the staging file differs from the start. *)
  assert (forall w' acc, files w' = <[ tmp := acc ]> (files w0) ->
    (forall name content, name <> temp_path f ->
       listed dir name w' = Some content -> valid content = true) /\
    listed dir f w' = listed dir f w0) as Hstaged.
  { intros w' acc E. unfold listed. rewrite E. split.
    - intros name content Hne. rewrite lookup_insert_ne.
      + apply Hvalid.
      + unfold tmp, fin. rewrite temp_path_join. intros H%path_join_inj. done.
    - rewrite lookup_insert_ne; [done|]. apply temp_path_ne. }
  unfold writeIpcFile_ops in Hw. fold f fin tmp in Hw.
  simpl in Hw. rewrite !elem_of_cons in Hw.
  destruct Hw as [->|[->|Hw]].
  - split; [|by left]. intros name content _. apply Hvalid.
  - split; [|by left]. intros name content _. apply Hvalid.
  - fold w2 in Hw. apply observable_app in Hw as [Hw|Hw].
    + destruct (Hobs w Hw) as [acc E].
      destruct (Hstaged w acc E) as [H1 H2]. split; [exact H1|by left].
    + set (w3 := run_ops (map (OpAppend tmp) chunks) w2) in *.
      simpl in Hw. rewrite elem_of_cons in Hw. destruct Hw as [->|Hw].
      * destruct (Hstaged w3 _ Hrun) as [H1 H2]. split; [exact H1|by left].
      * apply list_elem_of_singleton in Hw.
        assert (files w = <[ fin := stringify data ]> (delete tmp (files w0))) as E.
        { rewrite Hw, <- Hchunks. by apply rename_files. }
        split; [|right; split].
        -- intros name content Hne. unfold listed. rewrite E.
           destruct (decide (path_join dir name = fin)) as [->|Hfin].
           ++ rewrite lookup_insert_eq. intros [= <-]. apply stringify_valid.
           ++ rewrite lookup_insert_ne by done. rewrite lookup_delete_ne.
              ** apply Hvalid.
              ** unfold tmp, fin. rewrite temp_path_join.
                 intros H%path_join_inj. done.
        -- rewrite Hw. unfold writeIpcFile_ops. fold f fin tmp.
           change (OpMkdir dir :: OpOpenTrunc tmp :: map (OpAppend tmp) chunks
                     ++ [OpRename tmp fin])
             with ([OpMkdir dir; OpOpenTrunc tmp]
                     ++ (map (OpAppend tmp) chunks ++ [OpRename tmp fin])).
           rewrite run_ops_app, run_ops_app. done.
        -- unfold listed. rewrite E. fold fin. by rewrite lookup_insert_eq.
Qed.

(** Run to the end, the system calls leave the files [writeIpcFile] leaves. *)
Lemma writeIpcFile_ops_files dir data chunks w0 :
  concat_chunks chunks = stringify data ->
  files (run_ops (writeIpcFile_ops dir chunks w0) w0)
  = files (writeIpcFile dir data w0).2.
Proof.
  intros Hchunks. rewrite writeIpcFile_files.
  set (fin := path_join dir (ipc_filename w0)). set (tmp := temp_path fin).
  set (w2 := apply_op (OpOpenTrunc tmp) (apply_op (OpMkdir dir) w0)).
  destruct (appends_touch_only_temp tmp chunks w2 "" (files w0) eq_refl) as [Hrun _].
  unfold writeIpcFile_ops. fold fin tmp.
  change (OpMkdir dir :: OpOpenTrunc tmp :: map (OpAppend tmp) chunks
            ++ [OpRename tmp fin])
    with ([OpMkdir dir; OpOpenTrunc tmp]
            ++ (map (OpAppend tmp) chunks ++ [OpRename tmp fin])).
  rewrite run_ops_app, run_ops_app.
  change (run_ops [OpMkdir dir; OpOpenTrunc tmp] w0) with w2.
  rewrite <- Hchunks. by apply rename_files.
Qed.

(** ** Privilege rule of [schedule_task] *)

(** C1. A caller that is not the main group cannot redirect a schedule
    request: in the MCP tool the payload's [targetJid] is the caller's own
    [chatJid], and in the OpenAI-format executor the payload's [groupFolder]
    and [chatJid] are the caller's own, whatever target the arguments name.
    The object is built that way before it is handed to the writer, and a call
    either leaves the world alone or writes exactly that object to the tasks
    directory. *)
Theorem schedule_task_targets_own_conversation (ctx : IpcMcpContext) :
  isMain ctx = false ->
  (forall args ts,
     get "targetJid" (schedule_task_data ctx args ts)
       = Some (JString (chatJid ctx))) /\
  (forall args ts,
     get "groupFolder" (openai_schedule_task_data ctx args ts)
       = Some (JString (groupFolder ctx)) /\
     get "chatJid" (openai_schedule_task_data ctx args ts)
       = Some (JString (chatJid ctx))) /\
  (forall args w,
     (schedule_task ctx args w).2 = w \/
     exists data,
       get "targetJid" data = Some (JString (chatJid ctx)) /\
       (schedule_task ctx args w).2 = (writeIpcFile TASKS_DIR data w).2) /\
  (forall args w,
     (openai_schedule_task ctx args w).2 = w \/
     exists data,
       get "groupFolder" data = Some (JString (groupFolder ctx)) /\
       get "chatJid" data = Some (JString (chatJid ctx)) /\
       (openai_schedule_task ctx args w).2 = (writeIpcFile TASKS_DIR data w).2).
Proof.
  intros Hmain.
  assert (forall args ts,
    get "targetJid" (schedule_task_data ctx args ts)
      = Some (JString (chatJid ctx))) as Hmcp.
  { intros args ts. unfold schedule_task_data. by rewrite Hmain. }
  assert (forall args ts,
     get "groupFolder" (openai_schedule_task_data ctx args ts)
       = Some (JString (groupFolder ctx)) /\
     get "chatJid" (openai_schedule_task_data ctx args ts)
       = Some (JString (chatJid ctx))) as Hopenai.
  { intros args ts. unfold openai_schedule_task_data. by rewrite Hmain. }
  repeat split; try apply Hmcp; try apply Hopenai.
  - intros args w. unfold schedule_task.
    destruct (match schedule_type args with Cron => _ | Interval => _ | Once => _ end);
      [by left|right].
    exists (schedule_task_data ctx args (toISOString (tick w))).
    split; [apply Hmcp|]. by destruct (writeIpcFile _ _ _).
  - intros args w. unfold openai_schedule_task.
    destruct (if String.eqb _ "cron" then _ else _); [by left|right].
    exists (openai_schedule_task_data ctx args (toISOString (tick w))).
    destruct (Hopenai args (toISOString (tick w))) as [-> ->].
    by destruct (writeIpcFile _ _ _).
Qed.

(** ** Validation comes before the write *)

(** A schedule value fails validation for a schedule type: the cron parser
    throws, the interval is [NaN] or not positive, or the one-shot timestamp
    does not parse. *)
Inductive fails_validation : string -> string -> Prop :=
  | invalid_cron v : cron_parses v = false -> fails_validation "cron" v
  | invalid_interval v :
      interval_rejected v = true -> fails_validation "interval" v
  | invalid_once v : date_parses v = false -> fails_validation "once" v.

(** C4. When the schedule value fails validation for the schedule type, the
    call returns an error message and the world, the tasks directory in
    particular, is what it was: no IPC file is written.  This holds for the
    MCP tool and for the OpenAI-format executor (where an absent schedule type
    reads as cron). *)
Theorem invalid_schedule_writes_nothing (ctx : IpcMcpContext) (w : World) :
  (forall args,
     fails_validation (schedule_type_str (schedule_type args))
                      (schedule_value args) ->
     isError (schedule_task ctx args w).1 = true /\
     startsWith (text (schedule_task ctx args w).1) "Invalid " = true /\
     (schedule_task ctx args w).2 = w) /\
  (forall args,
     fails_validation (or_default (arg_schedule_type args) "cron")
                      (or_default (arg_schedule_value args) "") ->
     startsWith (openai_schedule_task ctx args w).1 "Invalid " = true /\
     (openai_schedule_task ctx args w).2 = w).
Proof.
  split.
  - intros args H. unfold schedule_task.
    destruct (schedule_type args); inversion H as [v Hv|v Hv|v Hv]; subst;
      rewrite Hv; done.
  - intros args H. unfold openai_schedule_task.
    destruct H as [v Hv|v Hv|v Hv]; simpl; rewrite Hv; done.
Qed.

(** ** The interval validator *)

(** The reading of a positive base-10 integer: a numeral, that is a non-empty
    string of decimal digits and nothing else, whose value is positive. *)
Definition positive_base10_integer (v : string) : bool :=
  match v with
  | "" => false
  | _ => all_digits v && (0 <? digits_value 0 v)
  end.

(** What [parseInt] takes for a positive number: optional white space, an
    optional plus sign, a non-empty run of digits of positive value, then
    anything at all. *)
Definition leading_positive_integer (v : string) : Prop :=
  exists ws sign ds rest,
    v = ws +:+ sign +:+ ds +:+ rest /\
    all_ws ws = true /\ (sign = "" \/ sign = "+") /\
    ds <> "" /\ all_digits ds = true /\ 0 < digits_value 0 ds.

Lemma parseInt10_body s sign body :
  read_sign (skip_ws s) = (sign, body) ->
  parseInt10 s =
    match body with
    | String c _ => match digit_of c with
                    | Some _ => Some (sign * digits_value 0 body)
                    | None => None end
    | "" => None
    end.
Proof. unfold parseInt10. by intros ->. Qed.

Lemma positive_parse_shape body :
  match body with
  | String c _ => match digit_of c with
                  | Some _ => Some (digits_value 0 body)
                  | None => None end
  | "" => None
  end = Some (digits_value 0 body) -> 0 < digits_value 0 body ->
  exists ds rest, body = ds +:+ rest /\ ds <> "" /\ all_digits ds = true /\
    0 < digits_value 0 ds.
Proof.
  intros _ Hpos. destruct (digits_value_split body) as (ds & rest & E & Hd & Hv & Hn).
  exists ds, rest. repeat split; try done.
  - intros ->. specialize (Hn eq_refl 0). lia.
  - by rewrite <- Hv.
Qed.

Lemma interval_accepted_shape v :
  interval_rejected v = false -> leading_positive_integer v.
Proof.
  unfold interval_rejected. intros H.
  destruct (skip_ws_split v) as [ws [E Hws]].
  destruct (read_sign_cases (skip_ws v)) as [(r & Et & Hs)|[(r & Et & Hs)|[Hs _]]];
    rewrite (parseInt10_body _ _ _ Hs) in H.
  - destruct r as [|c r]; [done|]. destruct (digit_of c); [|done].
    apply Z.leb_gt in H. pose proof (digits_value_ge 0 (String c r)). lia.
  - assert (0 < digits_value 0 r) as Hpos.
    { destruct r as [|c r]; [done|]. destruct (digit_of c); [|done].
      apply Z.leb_gt in H. lia. }
    destruct (positive_parse_shape r) as (ds & rest & Er & Hne & Hd & Hp); [|done|].
    { destruct r as [|c r]; [simpl in Hpos; lia|].
      destruct (digit_of c) eqn:Hc; [done|]. simpl in Hpos. rewrite Hc in Hpos. lia. }
    exists ws, "+", ds, rest. rewrite E at 1. rewrite Et, Er. eauto 10.
  - set (t := skip_ws v) in *.
    assert (0 < digits_value 0 t) as Hpos.
    { destruct t as [|c r]; [done|]. destruct (digit_of c); [|done].
      apply Z.leb_gt in H. lia. }
    destruct (positive_parse_shape t) as (ds & rest & Er & Hne & Hd & Hp); [|done|].
    { destruct t as [|c r]; [simpl in Hpos; lia|].
      destruct (digit_of c) eqn:Hc; [done|]. simpl in Hpos. rewrite Hc in Hpos. lia. }
    exists ws, "", ds, rest. rewrite E at 1. rewrite Er. eauto 10.
Qed.

Lemma skip_ws_digit ds rest :
  ds <> "" -> all_digits ds = true -> skip_ws (ds +:+ rest) = ds +:+ rest.
Proof.
  destruct ds as [|c ds]; [done|]. intros _ [Hc _]%andb_true_iff.
  apply bool_decide_eq_true in Hc as [d Hc]. rewrite ?app_cons. simpl.
  by rewrite (digit_not_ws _ _ Hc).
Qed.

Lemma parse_digits ds rest :
  ds <> "" -> all_digits ds = true ->
  match ds +:+ rest with
  | String c _ => match digit_of c with
                  | Some _ => Some (1 * digits_value 0 (ds +:+ rest))
                  | None => None end
  | "" => None
  end = Some (digits_value (digits_value 0 ds) rest).
Proof.
  intros Hne Hd. rewrite (digits_value_app _ _ _ Hd).
  destruct ds as [|c ds]; [done|]. apply andb_true_iff in Hd as [Hc _].
  apply bool_decide_eq_true in Hc as [d Hc]. rewrite ?app_cons. rewrite Hc.
  f_equal. lia.
Qed.

Lemma leading_positive_accepted v :
  leading_positive_integer v -> interval_rejected v = false.
Proof.
  intros (ws & sign & ds & rest & -> & Hws & Hsign & Hne & Hd & Hpos).
  unfold interval_rejected.
  assert (forall body, parseInt10 (ws +:+ body) = parseInt10 body) as Hskip.
  { intros body. unfold parseInt10. by rewrite skip_ws_app. }
  rewrite Hskip.
  assert (parseInt10 (sign +:+ ds +:+ rest) = Some (digits_value (digits_value 0 ds) rest)) as ->.
  { destruct Hsign as [-> | ->].
    - change ("" +:+ ds +:+ rest) with (ds +:+ rest).
      unfold parseInt10. rewrite skip_ws_digit by done.
      destruct (read_sign_cases (ds +:+ rest)) as [(r & Et & Hs)|[(r & Et & Hs)|[Hs _]]];
        rewrite Hs.
      + destruct ds as [|c ds]; [done|]. apply andb_true_iff in Hd as [Hc _].
        rewrite ?app_cons in Et. injection Et as -> _. done.
      + destruct ds as [|c ds]; [done|]. apply andb_true_iff in Hd as [Hc _].
        rewrite ?app_cons in Et. injection Et as -> _. done.
      + by apply parse_digits.
    - unfold parseInt10. change ("+" +:+ ds +:+ rest) with (String "+" (ds +:+ rest)).
      change (skip_ws (String "+" (ds +:+ rest))) with (String "+" (ds +:+ rest)).
      change (read_sign (String "+" (ds +:+ rest))) with (1, ds +:+ rest).
      by apply parse_digits. }
  apply Z.leb_gt. pose proof (digits_value_ge (digits_value 0 ds) rest). lia.
Qed.

(** C9, as amended.  The interval validator accepts a schedule value exactly
    when [parseInt] reads a positive number off its front: optional leading
    white space, an optional plus sign and a non-empty run of decimal digits
    of positive value; whatever follows the digits is ignored.  So "300000"
    validates, and "-5", "0" and "abc" are rejected. *)
Theorem interval_validator_accepts_leading_integer :
  (forall v, interval_rejected v = false <-> leading_positive_integer v) /\
  interval_rejected "300000" = false /\
  interval_rejected "-5" = true /\
  interval_rejected "0" = true /\
  interval_rejected "abc" = true.
Proof.
  split; [|by repeat split].
  intros v. split; [apply interval_accepted_shape | apply leading_positive_accepted].
Qed.


(** ** Schedule types the OpenAI-format executor does not know *)

(** C10, as amended.  In the OpenAI-format executor, a schedule type that is
    a non-empty string other than cron, interval and once goes through none
    of the three validation branches: the payload is written to the tasks
    directory with that schedule type and the schedule value as given, and
    the receipt of a scheduled task is returned. *)
Theorem openai_unknown_schedule_type_is_written
  (ctx : IpcMcpContext) (args : OpenAIArgs) (w : World) (t : string) :
  arg_schedule_type args = Some t ->
  t <> "" -> t <> "cron" -> t <> "interval" -> t <> "once" ->
  let v := or_default (arg_schedule_value args) "" in
  let data := openai_schedule_task_data ctx args (toISOString (tick w)) in
  openai_schedule_task ctx args w =
    ("Task scheduled (" +:+ ipc_filename w +:+ "): " +:+ t +:+ " - " +:+ v,
     (writeIpcFile TASKS_DIR data w).2) /\
  get "schedule_type" data = Some (JString t) /\
  get "schedule_value" data = Some (JString v) /\
  listed TASKS_DIR (ipc_filename w) (openai_schedule_task ctx args w).2
    = Some (stringify data).
Proof.
  intros Ht Hne Hc Hi Ho v data.
  assert (or_default (arg_schedule_type args) "cron" = t) as Et.
  { rewrite Ht. by destruct t. }
  assert (openai_schedule_task ctx args w =
    ("Task scheduled (" +:+ ipc_filename w +:+ "): " +:+ t +:+ " - " +:+ v,
     (writeIpcFile TASKS_DIR data w).2)) as E.
  { unfold openai_schedule_task. rewrite Et.
    apply String.eqb_neq in Hc, Hi, Ho. by rewrite Hc, Hi, Ho. }
  split; [exact E|]. rewrite E. repeat split.
  - unfold data, openai_schedule_task_data. by rewrite Et.
  - simpl. rewrite <- (writeIpcFile_filename TASKS_DIR data w).
    apply writeIpcFile_listed.
Qed.

End Emitter.

(** C9 as stated fails: "5abc" and "1.5" are accepted, and neither is a
    positive base-10 integer. *)
Lemma interval_validator_accepts_non_integer :
  interval_rejected "5abc" = false /\ positive_base10_integer "5abc" = false /\
  interval_rejected "1.5" = false /\ positive_base10_integer "1.5" = false.
Proof. by repeat split. Qed.

(** ** A concrete environment *)

(** A clock, a random source and parsers to run the emitter with: the cron
    parser knows the two documented expressions, the timestamp parser the
    documented timestamp. *)
Definition example_Date_now (n : nat) : Z := 1769959800000 + Z.of_nat n.
Definition example_random_suffix (n : nat) : string := "k3x9q2".
Definition example_toISOString (n : nat) : string := "2026-02-01T15:30:00.000Z".
Definition example_cron_parses (v : string) : bool :=
  String.eqb v "0 9 * * *" || String.eqb v "*/5 * * * *".
Definition example_date_parses (v : string) : bool :=
  String.eqb v "2026-02-01T15:30:00".

Definition empty_world : World := {| files := ∅; dirs := ∅; tick := 0 |}.

Definition family_chat : IpcMcpContext :=
  {| chatJid := "120363336345536173@g.us"; groupFolder := "family-chat";
     isMain := false |}.

Definition example_openai_schedule_task :=
  openai_schedule_task example_Date_now example_random_suffix
    example_toISOString example_cron_parses example_date_parses.

Definition example_schedule_task :=
  schedule_task example_Date_now example_random_suffix
    example_toISOString example_cron_parses example_date_parses.

Definition override_args : ScheduleArgs :=
  {| prompt := "water the plants"; schedule_type := Interval;
     schedule_value := "300000"; context_mode := None;
     target_group_jid := Some "main-group@g.us" |}.

Definition openai_override_args : OpenAIArgs :=
  {| arg_prompt := Some "water the plants";
     arg_schedule_type := Some "interval";
     arg_schedule_value := Some "300000"; arg_context_mode := None;
     arg_target_group := Some "main" |}.

Lemma schedule_task_targets_own_conversation_witness :
  isMain family_chat = false /\
  get "targetJid"
      (schedule_task_data family_chat override_args "2026-02-01T15:30:00.000Z")
    = Some (JString "120363336345536173@g.us") /\
  get "groupFolder"
      (openai_schedule_task_data family_chat openai_override_args
         "2026-02-01T15:30:00.000Z")
    = Some (JString "family-chat") /\
  ((example_schedule_task family_chat override_args empty_world).2 = empty_world \/
   exists data,
     get "targetJid" data = Some (JString "120363336345536173@g.us") /\
     (example_schedule_task family_chat override_args empty_world).2
     = (writeIpcFile example_Date_now example_random_suffix TASKS_DIR data
          empty_world).2).
Proof.
  split; [reflexivity|].
  destruct (schedule_task_targets_own_conversation example_Date_now
              example_random_suffix example_toISOString example_cron_parses
              example_date_parses family_chat eq_refl) as (H1 & H2 & H3 & _).
  split; [apply H1|]. split; [apply H2|]. apply H3.
Defined.

Definition negative_interval_args : ScheduleArgs :=
  {| prompt := "water the plants"; schedule_type := Interval;
     schedule_value := "-5"; context_mode := None; target_group_jid := None |}.

Definition openai_bad_cron_args : OpenAIArgs :=
  {| arg_prompt := Some "water the plants"; arg_schedule_type := None;
     arg_schedule_value := Some "not-a-cron"; arg_context_mode := None;
     arg_target_group := None |}.

Lemma invalid_schedule_writes_nothing_witness :
  (isError (example_schedule_task family_chat negative_interval_args empty_world).1
     = true /\
   startsWith
     (text (example_schedule_task family_chat negative_interval_args empty_world).1)
     "Invalid " = true /\
   (example_schedule_task family_chat negative_interval_args empty_world).2
     = empty_world) /\
  (startsWith
     (example_openai_schedule_task family_chat openai_bad_cron_args empty_world).1
     "Invalid " = true /\
   (example_openai_schedule_task family_chat openai_bad_cron_args empty_world).2
     = empty_world).
Proof.
  destruct (invalid_schedule_writes_nothing example_Date_now
              example_random_suffix example_toISOString example_cron_parses
              example_date_parses family_chat empty_world) as [Hmcp Hopenai].
  split.
  - apply (Hmcp negative_interval_args). simpl. by apply invalid_interval.
  - apply (Hopenai openai_bad_cron_args). simpl. by apply invalid_cron.
Defined.

Definition weekly_args : OpenAIArgs :=
  {| arg_prompt := Some "water the plants";
     arg_schedule_type := Some "weekly";
     arg_schedule_value := Some "every monday"; arg_context_mode := None;
     arg_target_group := None |}.

Lemma openai_unknown_schedule_type_is_written_witness :
  example_openai_schedule_task family_chat weekly_args empty_world =
    ("Task scheduled ("
       +:+ ipc_filename example_Date_now example_random_suffix empty_world
       +:+ "): " +:+ "weekly" +:+ " - " +:+ "every monday",
     (writeIpcFile example_Date_now example_random_suffix TASKS_DIR
        (openai_schedule_task_data family_chat weekly_args
           (example_toISOString 0)) empty_world).2) /\
  listed TASKS_DIR
    (ipc_filename example_Date_now example_random_suffix empty_world)
    (example_openai_schedule_task family_chat weekly_args empty_world).2
  = Some (stringify (openai_schedule_task_data family_chat weekly_args
                       (example_toISOString 0))).
Proof.
  pose proof (openai_unknown_schedule_type_is_written example_Date_now
                example_random_suffix example_toISOString example_cron_parses
                example_date_parses family_chat weekly_args empty_world
                "weekly" eq_refl) as H.
  destruct H as (H1 & _ & _ & H4); [discriminate..|].
  split; [exact H1|exact H4].
Defined.

(** C10 as stated fails at the empty schedule type: it is a string outside
    the three known types, yet the executor reads it as cron, runs the cron
    validation on the value and, the value being no cron expression, returns
    an error and writes nothing. *)
Lemma openai_empty_schedule_type_is_validated :
  let args :=
    {| arg_prompt := Some "water the plants"; arg_schedule_type := Some "";
       arg_schedule_value := Some "not-a-cron"; arg_context_mode := None;
       arg_target_group := None |} in
  "" <> "cron" /\ "" <> "interval" /\ "" <> "once" /\
  example_openai_schedule_task family_chat args empty_world
  = (openai_invalid_cron_text "not-a-cron", empty_world).
Proof. by repeat split. Qed.

(** An outbound message, and a write of it that the operating system takes
    in two pieces. *)
Definition hello_message : jobject :=
  [ ("type", Some (JString "message"));
    ("chatJid", Some (JString "120363336345536173@g.us"));
    ("text", Some (JString "hello"));
    ("groupFolder", Some (JString "family-chat"));
    ("timestamp", Some (JString "2026-02-01T15:30:00.000Z")) ].

Definition hello_chunks : list string :=
  [ substring 0 30 (stringify hello_message);
    substring 30 (String.length (stringify hello_message) - 30)
      (stringify hello_message) ].

Definition hello_ops : list fs_op :=
  writeIpcFile_ops example_Date_now example_random_suffix MESSAGES_DIR
    hello_chunks empty_world.

(** The state after the directory is made, the staging file opened and the
    first piece written. *)
Definition hello_half_written : World := run_ops (take 3 hello_ops) empty_world.

Lemma hello_half_written_observable :
  hello_half_written ∈ observable hello_ops empty_world.
Proof. apply (list_elem_of_lookup_2 _ 3). reflexivity. Qed.

Lemma writeIpcFile_ops_files_witness :
  files (run_ops hello_ops empty_world)
  = files (writeIpcFile example_Date_now example_random_suffix MESSAGES_DIR
             hello_message empty_world).2.
Proof.
  apply (writeIpcFile_ops_files example_Date_now example_random_suffix
           MESSAGES_DIR hello_message hello_chunks empty_world).
  by vm_compute.
Defined.

(** C3 as stated fails: the staging file lives in the target directory, so a
    listing taken after the first piece is written shows
    [1769959800000-k3x9q2.json.tmp] holding the first thirty characters of
    the payload, which do not parse as JSON. *)
Lemma staging_file_is_listed_half_written :
  hello_half_written ∈ observable hello_ops empty_world /\
  listed MESSAGES_DIR "1769959800000-k3x9q2.json.tmp" hello_half_written
    = Some (substring 0 30 (stringify hello_message)) /\
  valid (substring 0 30 (stringify hello_message)) = false.
Proof.
  split; [apply hello_half_written_observable|]. split; by vm_compute.
Qed.

Lemma staged_write_shows_no_partial_payload_witness :
  (forall name content,
     name <> "1769959800000-k3x9q2.json.tmp" ->
     listed MESSAGES_DIR name hello_half_written = Some content ->
     valid content = true) /\
  listed MESSAGES_DIR "1769959800000-k3x9q2.json" hello_half_written = None.
Proof.
  destruct (staged_write_shows_no_partial_payload example_Date_now
              example_random_suffix MESSAGES_DIR hello_message hello_chunks
              empty_world) with (w := hello_half_written) as [H1 H2].
  - by vm_compute.
  - intros name content. unfold listed. simpl. by rewrite lookup_empty.
  - apply hello_half_written_observable.
  - split; [exact H1|]. by vm_compute.
Defined.

(** ** The other tools of the emitter *)

Section Tools.

Variable Date_now : nat -> Z.
Variable random_suffix : nat -> string.
Variable toISOString : nat -> string.

#[local] Abbreviation write := (writeIpcFile Date_now random_suffix).
#[local] Abbreviation filename_at := (ipc_filename Date_now random_suffix).

(** *** [send_message] *)

Definition send_message_data (ctx : IpcMcpContext) (text : option string)
  (timestamp : string) : jobject :=
  [ ("type", Some (JString "message"));
    ("chatJid", Some (JString (chatJid ctx)));
    ("text", JString <$> text);
    ("groupFolder", Some (JString (groupFolder ctx)));
    ("timestamp", Some (JString timestamp)) ].

Definition send_message (ctx : IpcMcpContext) (text : string) (w : World)
  : CallToolResult * World :=
  let data := send_message_data ctx (Some text) (toISOString (tick w)) in
  let '(_, w') := write MESSAGES_DIR data w in
  ({| text := "Message sent."; isError := false |}, w').

Definition openai_send_message (ctx : IpcMcpContext) (text : option string)
  (w : World) : string * World :=
  let data := send_message_data ctx text (toISOString (tick w)) in
  let '(filename, w') := write MESSAGES_DIR data w in
  ("Message queued for delivery (" +:+ filename +:+ ")", w').

(** *** [pause_task], [resume_task], [cancel_task] *)

Inductive TaskControl := Pause | Resume | Cancel.

Definition control_type (k : TaskControl) : string :=
  match k with
  | Pause => "pause_task"
  | Resume => "resume_task"
  | Cancel => "cancel_task"
  end.

Definition control_word (k : TaskControl) : string :=
  match k with
  | Pause => "pause"
  | Resume => "resume"
  | Cancel => "cancellation"
  end.

Definition task_control_data (k : TaskControl) (ctx : IpcMcpContext)
  (task_id : option string) (timestamp : string) : jobject :=
  [ ("type", Some (JString (control_type k)));
    ("taskId", JString <$> task_id);
    ("groupFolder", Some (JString (groupFolder ctx)));
    ("isMain", Some (JBool (isMain ctx)));
    ("timestamp", Some (JString timestamp)) ].

Definition task_control_text (k : TaskControl) (task_id : string) : string :=
  "Task " +:+ task_id +:+ " " +:+ control_word k +:+ " requested.".

(** The MCP tools: the task id is a string. *)
Definition task_control (k : TaskControl) (ctx : IpcMcpContext)
  (task_id : string) (w : World) : CallToolResult * World :=
  let data := task_control_data k ctx (Some task_id) (toISOString (tick w)) in
  let '(_, w') := write TASKS_DIR data w in
  ({| text := task_control_text k task_id; isError := false |}, w').

Definition pause_task := task_control Pause.
Definition resume_task := task_control Resume.
Definition cancel_task := task_control Cancel.

(** The OpenAI-format executors: the task id may be absent. *)
Definition openai_task_control (k : TaskControl) (ctx : IpcMcpContext)
  (task_id : option string) (w : World) : string * World :=
  let data := task_control_data k ctx task_id (toISOString (tick w)) in
  let '(_, w') := write TASKS_DIR data w in
  (task_control_text k (default "undefined" task_id), w').

(** *** [register_group] *)

Record RegisterArgs := {
  reg_jid : option string;
  reg_name : option string;
  reg_folder : option string;
  reg_trigger : option string
}.

Definition register_group_data (args : RegisterArgs) (timestamp : string)
  : jobject :=
  [ ("type", Some (JString "register_group"));
    ("jid", JString <$> reg_jid args);
    ("name", JString <$> reg_name args);
    ("folder", JString <$> reg_folder args);
    ("trigger", JString <$> reg_trigger args);
    ("timestamp", Some (JString timestamp)) ].

Definition only_main_text : string :=
  "Only the main group can register new groups.".

Definition registered_text (name : option string) : string :=
  "Group " +:+ dq +:+ default "undefined" name +:+ dq
  +:+ " registered. It will start receiving messages immediately.".

(** The MCP tool; its four arguments are strings ([Some]). *)
Definition register_group (ctx : IpcMcpContext) (args : RegisterArgs)
  (w : World) : CallToolResult * World :=
  if negb (isMain ctx) then (error_result only_main_text, w)
  else
    let data := register_group_data args (toISOString (tick w)) in
    let '(_, w') := write TASKS_DIR data w in
    ({| text := registered_text (reg_name args); isError := false |}, w').

Definition openai_register_group (ctx : IpcMcpContext) (args : RegisterArgs)
  (w : World) : string * World :=
  if negb (isMain ctx) then (only_main_text, w)
  else
    let data := register_group_data args (toISOString (tick w)) in
    let '(_, w') := write TASKS_DIR data w in
    (registered_text (reg_name args), w').

(** *** [list_tasks] *)

(** An entry of [current_tasks.json], its fields read at their declared
    types; [next_run] may be absent. *)
Record TaskEntry := {
  task_id : string;
  task_prompt : string;
  task_schedule_type : string;
  task_schedule_value : string;
  task_status : string;
  task_next_run : option string;
  task_groupFolder : string
}.

(** [JSON.parse] of the snapshot, read as an array of entries; [inr] is the
    message of whatever is thrown inside the [try]. *)
Variable parse_tasks : string -> list TaskEntry + string.

Fixpoint take_chars (n : nat) (s : string) : string :=
  match n, s with
  | S n', String c s' => String c (take_chars n' s')
  | _, _ => ""
  end.

Definition format_task (t : TaskEntry) : string :=
  "- [" +:+ task_id t +:+ "] " +:+ take_chars 50 (task_prompt t) +:+ "... ("
  +:+ task_schedule_type t +:+ ": " +:+ task_schedule_value t +:+ ") - "
  +:+ task_status t +:+ ", next: " +:+ or_default (task_next_run t) "N/A".

Definition visible_tasks (ctx : IpcMcpContext) (allTasks : list TaskEntry)
  : list TaskEntry :=
  if isMain ctx then allTasks
  else filter (fun t => task_groupFolder t = groupFolder ctx) allTasks.

Definition no_tasks_text : string := "No scheduled tasks found.".

(** The text for a snapshot that parsed. *)
Definition render_tasks (ctx : IpcMcpContext) (allTasks : list TaskEntry)
  : string :=
  match visible_tasks ctx allTasks with
  | [] => no_tasks_text
  | tasks => "Scheduled tasks:" +:+ LF +:+ join LF (map format_task tasks)
  end.

Definition tasksFile : string := path_join IPC_DIR "current_tasks.json".

Definition list_tasks_text (ctx : IpcMcpContext) (w : World) : string :=
  match files w !! tasksFile with
  | None => no_tasks_text
  | Some content =>
      match parse_tasks content with
      | inl allTasks => render_tasks ctx allTasks
      | inr err => "Error reading tasks: " +:+ err
      end
  end.

Definition list_tasks (ctx : IpcMcpContext) (w : World) : CallToolResult :=
  {| text := list_tasks_text ctx w; isError := false |}.

Definition openai_list_tasks (ctx : IpcMcpContext) (w : World) : string :=
  list_tasks_text ctx w.

(** *** What one write leaves alone *)

Lemma writeIpcFile_frame dir data w p :
  p <> path_join dir (filename_at w) ->
  p <> temp_path (path_join dir (filename_at w)) ->
  files (write dir data w).2 !! p = files w !! p.
Proof.
  intros Hfin Htmp. rewrite writeIpcFile_files.
  rewrite lookup_insert_ne by done. by rewrite lookup_delete_ne.
Qed.

Lemma writeIpcFile_tick dir data w : tick (write dir data w).2 = S (tick w).
Proof.
  unfold writeIpcFile, renameSync, writeFileSync, mkdirSync. simpl.
  by rewrite lookup_insert_eq.
Qed.

(** A final name ends in [.json], a staging name in [.tmp]. *)
Lemma json_ne_tmp a b : a +:+ ".json" <> b +:+ ".tmp".
Proof.
  intros H. assert (String.length a + 5 = String.length b + 4)%nat as Hlen.
  { apply (f_equal String.length) in H. by rewrite !length_app in H. }
  revert b H Hlen. induction a as [|x a IH]; intros [|y b] H Hlen;
    simpl in Hlen; try lia.
  - destruct b; [discriminate H|simpl in Hlen; lia].
  - rewrite !app_cons in H. injection H as _ H. apply (IH b H). lia.
Qed.

Lemma final_ne_temp d1 w1 d2 w2 :
  path_join d1 (filename_at w1) <> temp_path (path_join d2 (filename_at w2)).
Proof.
  unfold temp_path, path_join, ipc_filename.
  rewrite <- !app_assoc'. apply json_ne_tmp.
Qed.

(** Two writes in a row: under the name the first write returned, the
    directory shows the first payload, unless the second write produced the
    very same path (same directory, same millisecond, same random suffix), in
    which case it shows the second: the first payload is lost. *)
Theorem second_write_keeps_first_unless_same_name
  (d1 d2 : string) (a b : jobject) (w : World) :
  let w1 := (write d1 a w).2 in
  let w2 := (write d2 b w1).2 in
  listed d1 (write d1 a w).1 w2 =
    Some (if decide (path_join d2 (write d2 b w1).1 = path_join d1 (write d1 a w).1)
          then stringify b else stringify a).
Proof.
  intros w1 w2. unfold w2, w1. rewrite !writeIpcFile_filename.
  unfold listed. case_decide as E.
  - rewrite writeIpcFile_files. rewrite E. by rewrite lookup_insert_eq.
  - rewrite writeIpcFile_frame.
    + rewrite writeIpcFile_files. by rewrite lookup_insert_eq.
    + by intros H.
    + apply final_ne_temp.
Qed.

(** *** The two directories *)

Lemma tasks_path_ne_messages_path a b :
  path_join TASKS_DIR a <> path_join MESSAGES_DIR b /\
  path_join TASKS_DIR a <> temp_path (path_join MESSAGES_DIR b) /\
  path_join MESSAGES_DIR a <> path_join TASKS_DIR b /\
  path_join MESSAGES_DIR a <> temp_path (path_join TASKS_DIR b).
Proof. repeat split; intros H; discriminate H. Qed.

(** [send_message] writes under the messages directory only, and the task
    tools ([pause_task], [resume_task], [cancel_task], [register_group])
    under the tasks directory only: whatever the arguments, the listing of the
    other directory is what it was. *)
Theorem tools_keep_to_their_directory
  (ctx : IpcMcpContext) (w : World) (name : string) :
  (forall text,
     listed TASKS_DIR name (send_message ctx text w).2 = listed TASKS_DIR name w) /\
  (forall text,
     listed TASKS_DIR name (openai_send_message ctx text w).2
     = listed TASKS_DIR name w) /\
  (forall k id,
     listed MESSAGES_DIR name (task_control k ctx id w).2
     = listed MESSAGES_DIR name w) /\
  (forall k id,
     listed MESSAGES_DIR name (openai_task_control k ctx id w).2
     = listed MESSAGES_DIR name w) /\
  (forall args,
     listed MESSAGES_DIR name (register_group ctx args w).2
     = listed MESSAGES_DIR name w) /\
  (forall args,
     listed MESSAGES_DIR name (openai_register_group ctx args w).2
     = listed MESSAGES_DIR name w).
Proof.
  assert (forall data,
    listed TASKS_DIR name (write MESSAGES_DIR data w).2 = listed TASKS_DIR name w)
    as Hmsg.
  { intros data. unfold listed. apply writeIpcFile_frame;
      apply tasks_path_ne_messages_path. }
  assert (forall data,
    listed MESSAGES_DIR name (write TASKS_DIR data w).2 = listed MESSAGES_DIR name w)
    as Htask.
  { intros data. unfold listed. apply writeIpcFile_frame;
      apply tasks_path_ne_messages_path. }
  repeat split.
  - intros t. unfold send_message. rewrite <- (Hmsg (send_message_data ctx (Some t) (toISOString (tick w)))).
    by destruct (write _ _ _).
  - intros t. unfold openai_send_message. rewrite <- (Hmsg (send_message_data ctx t (toISOString (tick w)))).
    by destruct (write _ _ _).
  - intros k id. unfold task_control.
    rewrite <- (Htask (task_control_data k ctx (Some id) (toISOString (tick w)))).
    by destruct (write _ _ _).
  - intros k id. unfold openai_task_control.
    rewrite <- (Htask (task_control_data k ctx id (toISOString (tick w)))).
    by destruct (write _ _ _).
  - intros args. unfold register_group. destruct (negb (isMain ctx)); [done|].
    rewrite <- (Htask (register_group_data args (toISOString (tick w)))).
    by destruct (write _ _ _).
  - intros args. unfold openai_register_group. destruct (negb (isMain ctx)); [done|].
    rewrite <- (Htask (register_group_data args (toISOString (tick w)))).
    by destruct (write _ _ _).
Qed.

(** *** The privilege gate of [register_group] *)

(** [register_group] changes the world exactly when the caller is the main
    group: any other caller gets the refusal and nothing is written, and for
    the main group the registration is listed in the tasks directory under
    the name generated for it.  The same holds for the OpenAI-format
    executor. *)
Theorem register_group_writes_iff_main
  (ctx : IpcMcpContext) (args : RegisterArgs) (w : World) :
  ((register_group ctx args w).2 = w <-> isMain ctx = false) /\
  ((openai_register_group ctx args w).2 = w <-> isMain ctx = false) /\
  (isMain ctx = false ->
     register_group ctx args w = (error_result only_main_text, w) /\
     openai_register_group ctx args w = (only_main_text, w)) /\
  (isMain ctx = true ->
     listed TASKS_DIR (filename_at w) (register_group ctx args w).2
     = Some (stringify (register_group_data args (toISOString (tick w)))) /\
     listed TASKS_DIR (filename_at w) (openai_register_group ctx args w).2
     = Some (stringify (register_group_data args (toISOString (tick w))))).
Proof.
  set (data := register_group_data args (toISOString (tick w))).
  pose proof (writeIpcFile_listed Date_now random_suffix TASKS_DIR data w) as Hl.
  pose proof (writeIpcFile_tick TASKS_DIR data w) as Ht.
  rewrite writeIpcFile_filename in Hl.
  assert (isMain ctx = true ->
          (register_group ctx args w).2 = (write TASKS_DIR data w).2 /\
          (openai_register_group ctx args w).2 = (write TASKS_DIR data w).2)
    as Hmain.
  { intros E. unfold register_group, openai_register_group. rewrite E.
    cbn [negb]. fold data. by destruct (write TASKS_DIR data w). }
  assert (isMain ctx = false ->
          register_group ctx args w = (error_result only_main_text, w) /\
          openai_register_group ctx args w = (only_main_text, w)) as Hother.
  { intros E. unfold register_group, openai_register_group. by rewrite E. }
  destruct (isMain ctx) eqn:E.
  - destruct (Hmain eq_refl) as [-> ->]. repeat split; try done.
    all: intros Hw; rewrite Hw in Ht; lia.
  - destruct (Hother eq_refl) as [-> ->]. repeat split; done.
Qed.

(** *** The control commands *)

(** A pause, resume or cancel command is written to the tasks directory under
    the name generated for it, and the payload names the caller's own folder
    and the caller's own privilege flag beside the task id it was given: the
    arguments of the call have no say in either. *)
Theorem task_control_carries_caller_identity
  (k : TaskControl) (ctx : IpcMcpContext) (id : option string) (w : World) :
  let data := task_control_data k ctx id (toISOString (tick w)) in
  listed TASKS_DIR (filename_at w) (openai_task_control k ctx id w).2
    = Some (stringify data) /\
  (forall id', id = Some id' ->
     listed TASKS_DIR (filename_at w) (task_control k ctx id' w).2
     = Some (stringify data)) /\
  get "taskId" data = JString <$> id /\
  get "groupFolder" data = Some (JString (groupFolder ctx)) /\
  get "isMain" data = Some (JBool (isMain ctx)).
Proof.
  intros data.
  pose proof (writeIpcFile_listed Date_now random_suffix TASKS_DIR data w) as Hl.
  rewrite writeIpcFile_filename in Hl.
  assert ((openai_task_control k ctx id w).2 = (write TASKS_DIR data w).2) as Ho.
  { unfold openai_task_control. fold data. by destruct (write TASKS_DIR data w). }
  split; [by rewrite Ho|]. split; [|done].
  intros id' E.
  assert ((task_control k ctx id' w).2 = (write TASKS_DIR data w).2) as ->;
    [|exact Hl].
  unfold task_control, data. rewrite E.
  by destruct (write TASKS_DIR _ w).
Qed.

(** *** [list_tasks] *)

(** What a caller that is not the main group is shown depends only on the
    entries of its own folder: two snapshots that agree on those entries give
    the same listing, whatever else they hold. *)
Theorem list_tasks_shows_own_folder_only
  (ctx : IpcMcpContext) (w w' : World) (content content' : string)
  (allTasks allTasks' : list TaskEntry) :
  isMain ctx = false ->
  files w !! tasksFile = Some content ->
  files w' !! tasksFile = Some content' ->
  parse_tasks content = inl allTasks ->
  parse_tasks content' = inl allTasks' ->
  filter (fun t => task_groupFolder t = groupFolder ctx) allTasks
  = filter (fun t => task_groupFolder t = groupFolder ctx) allTasks' ->
  list_tasks ctx w = list_tasks ctx w' /\
  openai_list_tasks ctx w = openai_list_tasks ctx w'.
Proof.
  intros Hmain Hw Hw' Hp Hp' Hown.
  unfold openai_list_tasks, list_tasks, list_tasks_text.
  rewrite Hw, Hw', Hp, Hp'. unfold render_tasks, visible_tasks.
  by rewrite Hmain, Hown.
Qed.

(** Without a snapshot file, and with a snapshot in which the caller sees
    nothing, the answer is the same fixed sentence; a snapshot that cannot be
    read gives an error text and never a thrown error. *)
Theorem list_tasks_without_tasks (ctx : IpcMcpContext) (w : World) :
  (files w !! tasksFile = None -> list_tasks_text ctx w = no_tasks_text) /\
  (forall content allTasks,
     files w !! tasksFile = Some content ->
     parse_tasks content = inl allTasks ->
     (list_tasks_text ctx w = no_tasks_text <-> visible_tasks ctx allTasks = [])) /\
  (forall content err,
     files w !! tasksFile = Some content ->
     parse_tasks content = inr err ->
     list_tasks_text ctx w = "Error reading tasks: " +:+ err).
Proof.
  unfold list_tasks_text. split; [by intros ->|]. split.
  - intros content allTasks -> ->. unfold render_tasks. split.
    + destruct (visible_tasks ctx allTasks); [done|]. intros E. discriminate E.
    + by intros ->.
  - by intros content err -> ->.
Qed.

End Tools.

(** Two snapshots as the host writes them, and the reading of each. *)
Definition family_task : TaskEntry :=
  {| task_id := "task-1769959800000-a1b2c3";
     task_prompt := "Send the shopping list";
     task_schedule_type := "cron";
     task_schedule_value := "0 9 * * *";
     task_status := "active";
     task_next_run := Some "2026-02-02T09:00:00.000Z";
     task_groupFolder := "family-chat" |}.

Definition work_task : TaskEntry :=
  {| task_id := "task-1769959900000-d4e5f6";
     task_prompt := "Post the stand-up reminder";
     task_schedule_type := "interval";
     task_schedule_value := "3600000";
     task_status := "paused";
     task_next_run := None;
     task_groupFolder := "work" |}.

Definition example_parse_tasks (content : string) : list TaskEntry + string :=
  if String.eqb content "[family]" then inl [family_task]
  else if String.eqb content "[family,work]" then inl [family_task; work_task]
  else inr "Unexpected end of JSON input".

Definition snapshot_world (content : string) : World :=
  {| files := {[ tasksFile := content ]}; dirs := {[ IPC_DIR ]}; tick := 0 |}.

Lemma list_tasks_shows_own_folder_only_witness :
  list_tasks example_parse_tasks family_chat (snapshot_world "[family]")
  = list_tasks example_parse_tasks family_chat (snapshot_world "[family,work]") /\
  openai_list_tasks example_parse_tasks family_chat (snapshot_world "[family]")
  = openai_list_tasks example_parse_tasks family_chat (snapshot_world "[family,work]").
Proof.
  apply (list_tasks_shows_own_folder_only example_parse_tasks family_chat
           (snapshot_world "[family]") (snapshot_world "[family,work]")
           "[family]" "[family,work]" [family_task] [family_task; work_task]);
    reflexivity.
Defined.

End Ipc.

(* ===================================================================== *)
(** * The sandboxed built-in tools ([builtin-tools.ts]) *)
(* ===================================================================== *)

Module Sandbox.
Import JS.

Definition WORKSPACE_GROUP : string := "/workspace/group".

(** ** POSIX [path] *)

(** [normalizeString(path, false)]: empty segments and [.] are dropped, [..]
    removes the segment before it, and is dropped at the root.  [kept] holds
    the segments kept so far, last first. *)
Fixpoint normalize_segments (kept : list string) (segs : list string)
  : list string :=
  match segs with
  | [] => rev kept
  | seg :: rest =>
      if String.eqb seg "" || String.eqb seg "." then normalize_segments kept rest
      else if String.eqb seg ".." then normalize_segments (tail kept) rest
      else normalize_segments (seg :: kept) rest
  end.

Definition segments (p : string) : list string :=
  normalize_segments [] (split "/" p).

Definition of_segments (segs : list string) : string := "/" +:+ join "/" segs.

(** [path.resolve(base, p)] for an absolute [base]: the arguments are taken
    from the right until one is absolute, empty ones are skipped, and the
    result is normalised. *)
Definition path_resolve (base p : string) : string :=
  let joined :=
    if String.eqb p "" then base +:+ "/"
    else if startsWith p "/" then p +:+ "/"
    else base +:+ "/" +:+ p +:+ "/" in
  of_segments (segments joined).

(** [path.join(dir, name)] for an absolute [dir]. *)
Definition path_join (dir name : string) : string :=
  of_segments (segments (dir +:+ "/" +:+ name)).

(** [path.dirname(p)] for an absolute, normalised [p]. *)
Definition path_dirname (p : string) : string :=
  of_segments (rev (tail (rev (segments p)))).

Fixpoint drop_common (a b : list string) : list string * list string :=
  match a, b with
  | x :: a', y :: b' => if String.eqb x y then drop_common a' b' else (a, b)
  | _, _ => (a, b)
  end.

(** [path.relative(from, to)] for absolute paths. *)
Definition path_relative (from to : string) : string :=
  let '(up, down) := drop_common (segments from) (segments to) in
  join "/" (map (fun _ => "..") up ++ down).

(** ** [resolvePath] *)

(** [inl] is the returned path, [inr] the message of the [Error] thrown. *)
Definition resolvePath (relativePath : string) : string + string :=
  let resolved := path_resolve WORKSPACE_GROUP relativePath in
  if negb (startsWith resolved WORKSPACE_GROUP)
  then inr ("Path " +:+ relativePath +:+ " resolves outside /workspace/group")
  else inl resolved.

(** A path is within the sandbox root when it is the root or lies below it. *)
Definition within_root (p : string) : bool :=
  String.eqb p WORKSPACE_GROUP || startsWith p (WORKSPACE_GROUP +:+ "/").

(** ** The file tree *)

(** A file holds its text as [readFileSync(p, 'utf-8')] returns it, or
    [None] when it cannot be read; a directory lists its entries in the
    order [readdirSync] returns them. *)
#[local] Set Warnings "-register-all".

Inductive node :=
  | File (content : option string)
  | Dir (entries : list (string * node)).

Fixpoint entry (name : string) (entries : list (string * node)) : option node :=
  match entries with
  | [] => None
  | (n, child) :: rest => if String.eqb n name then Some child else entry name rest
  end.

(** Replace the entry [name], or add it at the end. *)
Fixpoint set_entry (name : string) (child : node)
  (entries : list (string * node)) : list (string * node) :=
  match entries with
  | [] => [(name, child)]
  | (n, c) :: rest =>
      if String.eqb n name then (n, child) :: rest
      else (n, c) :: set_entry name child rest
  end.

Fixpoint lookup_segments (segs : list string) (n : node) : option node :=
  match segs with
  | [] => Some n
  | name :: rest =>
      match n with
      | Dir entries =>
          match entry name entries with
          | Some child => lookup_segments rest child
          | None => None
          end
      | File _ => None
      end
  end.

(** The node at an absolute path, in the tree rooted at [/]. *)
Definition stat (p : string) (fs : node) : option node :=
  lookup_segments (segments p) fs.

(** [fs.readFileSync(p, 'utf-8')]: the text, or the message of the error. *)
Definition readFileSync (p : string) (fs : node) : string + string :=
  match stat p fs with
  | Some (File (Some content)) => inl content
  | Some (File None) => inr ("EACCES: permission denied, open '" +:+ p +:+ "'")
  | Some (Dir _) => inr "EISDIR: illegal operation on a directory, read"
  | None => inr ("ENOENT: no such file or directory, open '" +:+ p +:+ "'")
  end.

(** Writing a file below [n]: the directories on the way must exist, and the
    last segment names a file or nothing yet. *)
Fixpoint write_segments (segs : list string) (content : string) (n : node)
  : option node :=
  match segs with
  | [] =>
      match n with
      | File _ => Some (File (Some content))
      | Dir _ => None
      end
  | name :: rest =>
      match n with
      | Dir entries =>
          match entry name entries, rest with
          | Some child, _ =>
              match write_segments rest content child with
              | Some child' => Some (Dir (set_entry name child' entries))
              | None => None
              end
          | None, [] => Some (Dir (set_entry name (File (Some content)) entries))
          | None, _ :: _ => None
          end
      | File _ => None
      end
  end.

(** [fs.writeFileSync(p, content, 'utf-8')]: the new tree, or the message of
    the error. *)
Definition writeFileSync (p content : string) (fs : node) : node + string :=
  match write_segments (segments p) content fs with
  | Some fs' => inl fs'
  | None => inr ("ENOENT: no such file or directory, open '" +:+ p +:+ "'")
  end.

(** [fs.mkdirSync(p, { recursive: true })]. *)
Fixpoint mkdir_segments (segs : list string) (n : node) : option node :=
  match segs with
  | [] =>
      match n with
      | Dir _ => Some n
      | File _ => None
      end
  | name :: rest =>
      match n with
      | Dir entries =>
          match mkdir_segments rest (default (Dir []) (entry name entries)) with
          | Some child' => Some (Dir (set_entry name child' entries))
          | None => None
          end
      | File _ => None
      end
  end.

Definition mkdirSync (p : string) (fs : node) : node + string :=
  match mkdir_segments (segments p) fs with
  | Some fs' => inl fs'
  | None => inr ("EEXIST: file already exists, mkdir '" +:+ p +:+ "'")
  end.

(** ** [String.prototype.replace] with a string pattern *)

(** The first occurrence of [p] in [s]: what stands before it and after it. *)
Fixpoint drop_chars (n : nat) (s : string) : string :=
  match n, s with
  | S n', String _ s' => drop_chars n' s'
  | _, _ => s
  end.

Fixpoint find_first (s p : string) : option (string * string) :=
  if startsWith s p then Some ("", drop_chars (String.length p) s)
  else match s with
       | String c s' =>
           match find_first s' p with
           | Some (before, after) => Some (String c before, after)
           | None => None
           end
       | "" => None
       end.

(** [GetSubstitution] when there are no captures: [$$] is a dollar sign,
    [$&] the matched text, [$`] what precedes the match, [$'] what follows
    it; any other dollar sign stands for itself. *)
Fixpoint GetSubstitution (matched before after template : string) : string :=
  match template with
  | "" => ""
  | String a t =>
      if Ascii.eqb a "$" then
        match t with
        | String c rest =>
            if Ascii.eqb c "$" then
              String "$" (GetSubstitution matched before after rest)
            else if Ascii.eqb c "&" then
              matched +:+ GetSubstitution matched before after rest
            else if Ascii.eqb c "`" then
              before +:+ GetSubstitution matched before after rest
            else if Ascii.eqb c "'" then
              after +:+ GetSubstitution matched before after rest
            else String "$" (GetSubstitution matched before after t)
        | "" => "$"
        end
      else String a (GetSubstitution matched before after t)
  end.

(** [s.replace(p, r)] for strings [p] and [r]. *)
Definition String_replace (s p r : string) : string :=
  match find_first s p with
  | Some (before, after) => before +:+ GetSubstitution p before after r +:+ after
  | None => s
  end.

(** The first occurrence of [p] replaced by [r] taken literally. *)
Definition replace_first_literal (s p r : string) : string :=
  match find_first s p with
  | Some (before, after) => before +:+ r +:+ after
  | None => s
  end.

(** ** The file tools *)

(** What [execute] does: it resolves to a string, or rejects with an error
    (the message is kept). *)
Inductive outcome :=
  | Returned (s : string)
  | Thrown (msg : string).

(** [String(x ?? '')] on an argument that is a string or absent. *)
Definition str_arg (x : option string) : string := default "" x.

(** An argument inside a template literal. *)
Definition shown (x : option string) : string := default "undefined" x.

Definition Read (path : option string) (fs : node) : outcome * node :=
  match resolvePath (str_arg path) with
  | inr msg => (Thrown msg, fs)
  | inl p =>
      match readFileSync p fs with
      | inl content => (Returned content, fs)
      | inr err => (Returned ("Error: " +:+ err), fs)
      end
  end.

Definition Write (path content : option string) (fs : node) : outcome * node :=
  match resolvePath (str_arg path) with
  | inr msg => (Thrown msg, fs)
  | inl p =>
      match mkdirSync (path_dirname p) fs with
      | inr err => (Returned ("Error: " +:+ err), fs)
      | inl fs1 =>
          match writeFileSync p (str_arg content) fs1 with
          | inl fs2 => (Returned ("Wrote " +:+ shown path), fs2)
          | inr err => (Returned ("Error: " +:+ err), fs1)
          end
      end
  end.

Definition Edit (path old_string new_string : option string) (fs : node)
  : outcome * node :=
  match resolvePath (str_arg path) with
  | inr msg => (Thrown msg, fs)
  | inl p =>
      let oldStr := str_arg old_string in
      let newStr := str_arg new_string in
      match readFileSync p fs with
      | inr err => (Returned ("Error: " +:+ err), fs)
      | inl content =>
          if negb (includes content oldStr)
          then (Returned "Error: old_string not found in file", fs)
          else
            let newContent := String_replace content oldStr newStr in
            match writeFileSync p newContent fs with
            | inl fs' => (Returned ("Edited " +:+ shown path), fs')
            | inr err => (Returned ("Error: " +:+ err), fs)
            end
      end
  end.

(** ** Regular expressions

    The fragment of [RegExp] the tools are run on here: literal characters,
    [.], character sets without ranges or escapes, the anchors [^] and [$],
    and the greedy star.  A pattern outside the fragment is [Unsupported]:
    the model says nothing about it. *)

Inductive atom :=
  | AChar (c : ascii)
  | AAny
  | ASet (negated : bool) (cs : list ascii)
  | ABol
  | AEol.

Record item := { it_atom : atom; it_star : bool }.

Inductive compiled :=
  | Compiled (items : list item)
  | SyntaxError (msg : string)
  | Unsupported.

Definition consuming (a : atom) : bool :=
  match a with
  | ABol | AEol => false
  | _ => true
  end.

(** The members of a character set, up to the closing bracket. *)
Fixpoint read_set (s : string) (acc : list ascii)
  : option (option (list ascii * string)) :=
  match s with
  | "" => Some None
  | String c rest =>
      if Ascii.eqb c "]" then Some (Some (rev acc, rest))
      else if Ascii.eqb c "\" || Ascii.eqb c "-" then None
      else read_set rest (c :: acc)
  end.

Definition is_meta (c : ascii) : bool :=
  match c with
  | "\" | "+" | "?" | "(" | ")" | "{" | "}" | "|" | "]" => true
  | _ => false
  end%char.

(** [items] are the items read so far, last first. *)
Fixpoint regex_parse (fuel : nat) (s : string) (items : list item) : compiled :=
  match fuel with
  | O => Unsupported
  | S fuel =>
    match s with
    | "" => Compiled (rev items)
    | String c rest =>
        if Ascii.eqb c "*" then
          match items with
          | {| it_atom := a; it_star := false |} :: before =>
              if consuming a
              then regex_parse fuel rest ({| it_atom := a; it_star := true |} :: before)
              else SyntaxError "Nothing to repeat"
          | _ => SyntaxError "Nothing to repeat"
          end
        else if Ascii.eqb c "[" then
          let '(negated, body) :=
            match rest with
            | String "^"%char body => (true, body)
            | _ => (false, rest)
            end in
          match read_set body [] with
          | None => Unsupported
          | Some None => SyntaxError "Unterminated character class"
          | Some (Some (cs, rest')) =>
              regex_parse fuel rest'
                ({| it_atom := ASet negated cs; it_star := false |} :: items)
          end
        else if is_meta c then Unsupported
        else
          let a :=
            if Ascii.eqb c "." then AAny
            else if Ascii.eqb c "^" then ABol
            else if Ascii.eqb c "$" then AEol
            else AChar c in
          regex_parse fuel rest ({| it_atom := a; it_star := false |} :: items)
    end
  end.

(** [new RegExp(source)]. *)
Definition RegExp (source : string) : compiled :=
  regex_parse (S (String.length source)) source [].

Definition is_line_terminator (c : ascii) : bool :=
  Ascii.eqb c "010" || Ascii.eqb c "013".

Fixpoint mem_ascii (c : ascii) (cs : list ascii) : bool :=
  match cs with
  | [] => false
  | x :: rest => Ascii.eqb x c || mem_ascii c rest
  end.

Definition atom_matches (a : atom) (c : ascii) : bool :=
  match a with
  | AChar x => Ascii.eqb x c
  | AAny => negb (is_line_terminator c)
  | ASet negated cs => xorb negated (mem_ascii c cs)
  | ABol | AEol => false
  end.

(** Backtracking match of [items] at the current position; [at_start] says
    whether that position is the start of the input.  The result is the
    number of characters of the match the engine finds first. *)
Fixpoint match_items (items : list item) : bool -> string -> option nat :=
  match items with
  | [] => fun _ _ => Some O
  | it :: rest =>
      let continue := match_items rest in
      match it_atom it with
      | ABol => fun at_start s => if at_start then continue at_start s else None
      | AEol => fun at_start s =>
          match s with
          | "" => continue at_start s
          | String _ _ => None
          end
      | a =>
          if it_star it then
            fix star (at_start : bool) (s : string) : option nat :=
              match s with
              | String c s' =>
                  if atom_matches a c then
                    match star false s' with
                    | Some n => Some (S n)
                    | None => continue at_start s
                    end
                  else continue at_start s
              | "" => continue at_start s
              end
          else fun _ s =>
            match s with
            | String c s' =>
                if atom_matches a c then S <$> continue false s' else None
            | "" => None
            end
      end
  end.

(** The leftmost match that starts at index [pos] or later, [s] being the
    input from [pos] on: its end index. *)
Fixpoint search (items : list item) (pos : nat) (s : string) : option nat :=
  match match_items items (Nat.eqb pos 0) s with
  | Some n => Some (pos + n)%nat
  | None =>
      match s with
      | String _ s' => search items (S pos) s'
      | "" => None
      end
  end.

(** [re.test(s)] without the [g] flag. *)
Definition test (items : list item) (s : string) : bool :=
  bool_decide (is_Some (search items 0 s)).

(** [re.test(s)] with the [g] flag: the search starts at [lastIndex], which
    becomes the end of the match, or zero when there is none. *)
Definition test_global (items : list item) (lastIndex : nat) (s : string)
  : bool * nat :=
  if Nat.ltb (String.length s) lastIndex then (false, O)
  else match search items lastIndex (drop_chars lastIndex s) with
       | Some e => (true, e)
       | None => (false, O)
       end.

(** ** [walkDir] and [simpleGlob] *)

Fixpoint walk_node (dir : string) (n : node) : list string :=
  match n with
  | File _ => [dir]
  | Dir entries =>
      (fix walk_entries (es : list (string * node)) : list string :=
         match es with
         | [] => []
         | (e, child) :: rest => walk_node (path_join dir e) child ++ walk_entries rest
         end) entries
  end.

Definition walkDir (dir : string) (fs : node) : list string :=
  match stat dir fs with
  | None => []
  | Some n => walk_node dir n
  end.

(** [s.replace(/p/g, r)] for a literal [p] of one or two characters. *)
Fixpoint replace_all_char (c : ascii) (r : string) (s : string) : string :=
  match s with
  | "" => ""
  | String x s' =>
      if Ascii.eqb x c then r +:+ replace_all_char c r s'
      else String x (replace_all_char c r s')
  end.

Fixpoint replace_all_pair (c : ascii) (r : string) (s : string) : string :=
  match s with
  | String x ((String y s'') as s') =>
      if Ascii.eqb x c && Ascii.eqb y c then r +:+ replace_all_pair c r s''
      else String x (replace_all_pair c r s')
  | other => other
  end.

Definition glob_segment (p : string) : string :=
  replace_all_char "?" "." (replace_all_char "*" "[^/]*" (replace_all_pair "*" ".*" p)).

Definition glob_regex_source (normalized : string) : string :=
  "^" +:+ join "/" (map glob_segment (split "/" normalized)) +:+ "$".

(** [None]: the regular expression built from the pattern is outside the
    fragment above. *)
Definition simpleGlob (pattern baseDir : string) (fs : node)
  : option (list string) :=
  let allFiles := walkDir baseDir fs in
  let normalized := match trim pattern with "" => "*" | t => t end in
  if String.eqb normalized "**" || endsWith normalized "/**" then Some allFiles
  else
    match RegExp (glob_regex_source normalized) with
    | Unsupported => None
    | SyntaxError _ => Some allFiles
    | Compiled re =>
        Some (filter (fun f => test re (path_relative baseDir f) = true) allFiles)
    end.

(** ** [Grep] *)

(** The [forEach] over the lines of one file: [i] is the index of the first
    line of [lines], and the state is the [lastIndex] of the shared regular
    expression with the output lines so far. *)
Fixpoint grep_lines (re : list item) (rel : string) (i : nat)
  (lines : list string) (st : nat * list string) : nat * list string :=
  match lines with
  | [] => st
  | line :: rest =>
      let '(lastIndex, out) := st in
      let '(found, lastIndex') := test_global re lastIndex line in
      let out' :=
        if found
        then out ++ [rel +:+ ":" +:+ pretty (S i) +:+ ": " +:+ trim line]
        else out in
      grep_lines re rel (S i) rest (lastIndex', out')
  end.

Definition grep_file (re : list item) (fs : node) (st : nat * list string)
  (f : string) : nat * list string :=
  match stat f fs with
  | Some (File _) =>
      match readFileSync f fs with
      | inl content =>
          grep_lines re (path_relative WORKSPACE_GROUP f) 0
            (split lf_char content) st
      | inr _ => st
      end
  | _ => st
  end.

(** [None]: a regular expression outside the fragment above is involved. *)
Definition Grep (pattern path : option string) (fs : node) : option string :=
  let pattern := str_arg pattern in
  let pathArg := default "**" path in
  match RegExp pattern with
  | Unsupported => None
  | SyntaxError msg =>
      Some ("Error: Invalid regular expression: /" +:+ pattern +:+ "/g: " +:+ msg)
  | Compiled re =>
      let files :=
        if String.eqb pathArg "**" then simpleGlob "**/*" WORKSPACE_GROUP fs
        else simpleGlob pathArg WORKSPACE_GROUP fs in
      match files with
      | None => None
      | Some files =>
          let '(_, lines) := fold_left (grep_file re fs) files (O, []) in
          Some (match lines with
                | [] => "(no matches)"
                | _ => join LF lines
                end)
      end
  end.

(** ** Facts about the file tree *)

Lemma entry_set_entry name child es :
  entry name (set_entry name child es) = Some child.
Proof.
  induction es as [|[n c] es IH]; simpl.
  - by rewrite String.eqb_refl.
  - destruct (String.eqb n name) eqn:E; simpl; by rewrite E.
Qed.

Lemma lookup_write_segments segs c n n' :
  write_segments segs c n = Some n' ->
  lookup_segments segs n' = Some (File (Some c)).
Proof.
  revert n n'. induction segs as [|name rest IH]; intros n n'; simpl.
  - destruct n; by intros [= <-].
  - destruct n as [|es]; [done|].
    destruct (entry name es) as [child|] eqn:E.
    + destruct (write_segments rest c child) as [child'|] eqn:W; [|done].
      intros [= <-]. simpl. rewrite entry_set_entry. by apply (IH child).
    + destruct rest; [|done]. intros [= <-]. simpl. by rewrite entry_set_entry.
Qed.

Lemma write_segments_existing segs c n x :
  lookup_segments segs n = Some (File x) ->
  exists n', write_segments segs c n = Some n'.
Proof.
  revert n. induction segs as [|name rest IH]; intros n; simpl.
  - intros [= ->]. eauto.
  - destruct n as [|es]; [done|].
    destruct (entry name es) as [child|]; [|done].
    intros H. destruct (IH child H) as [child' ->]. eauto.
Qed.

(** Reading back a file that was just written. *)
Lemma read_after_write p c fs fs' :
  writeFileSync p c fs = inl fs' -> readFileSync p fs' = inl c.
Proof.
  unfold writeFileSync, readFileSync, stat.
  destruct (write_segments (segments p) c fs) as [n'|] eqn:W; [|done].
  intros [= <-]. by rewrite (lookup_write_segments _ _ _ _ W).
Qed.

Lemma write_readable p c fs content :
  readFileSync p fs = inl content -> exists fs', writeFileSync p c fs = inl fs'.
Proof.
  unfold writeFileSync, readFileSync, stat.
  destruct (lookup_segments (segments p) fs) as [[[x|]|]|] eqn:L; try done.
  intros _. destruct (write_segments_existing _ c _ _ L) as [n' ->]. eauto.
Qed.

(** ** Facts about [replace] *)

Lemma startsWith_app s p : startsWith (p +:+ s) p = true.
Proof. induction p as [|c p IH]; [by destruct s|]. simpl. by rewrite Ascii.eqb_refl. Qed.

Lemma startsWith_split s p :
  startsWith s p = true -> s = p +:+ drop_chars (String.length p) s.
Proof.
  revert s. induction p as [|c p IH]; intros s; [done|].
  destruct s as [|d s]; [done|]. simpl.
  destruct (Ascii.eqb_spec c d) as [->|]; [|done]. intros H.
  rewrite ?app_cons. f_equal. by apply IH.
Qed.

Lemma find_first_unfold s p :
  find_first s p =
    if startsWith s p then Some ("", drop_chars (String.length p) s)
    else match s with
         | String c s' =>
             match find_first s' p with
             | Some (before, after) => Some (String c before, after)
             | None => None
             end
         | "" => None
         end.
Proof. by destruct s. Qed.

Lemma includes_unfold s p :
  includes s p =
    if startsWith s p then true
    else match s with
         | String _ s' => includes s' p
         | "" => false
         end.
Proof. by destruct s. Qed.

(** [find_first] splits the string around an occurrence of the pattern. *)
Lemma find_first_split s p before after :
  find_first s p = Some (before, after) -> s = before +:+ p +:+ after.
Proof.
  revert before. induction s as [|c s IH]; intros before;
    rewrite find_first_unfold; destruct (startsWith _ p) eqn:E; try done.
  - intros [= <- <-]. by apply startsWith_split in E.
  - intros [= <- <-]. by apply startsWith_split in E.
  - destruct (find_first s p) as [[b a]|]; [|done]. intros [= <- <-].
    rewrite app_cons. f_equal. by apply IH.
Qed.

(** ... and that occurrence is the first one. *)
Lemma find_first_is_first s p before after :
  find_first s p = Some (before, after) ->
  forall b1 b2, before = b1 +:+ b2 -> b2 <> "" ->
    startsWith (b2 +:+ p +:+ after) p = false.
Proof.
  revert before. induction s as [|c s IH]; intros before H b1 b2 Hb Hne;
    pose proof (find_first_split _ _ _ _ H) as Hs;
    rewrite find_first_unfold in H; destruct (startsWith _ p) eqn:E; try done.
  - injection H as <- <-. destruct b1, b2; done.
  - injection H as <- <-. destruct b1, b2; done.
  - destruct (find_first s p) as [[b a]|] eqn:F; [|done]. injection H as <- <-.
    destruct b1 as [|c1 b1].
    + change ("" +:+ b2) with b2 in Hb. subst b2. by rewrite <- Hs.
    + rewrite app_cons in Hb. injection Hb as _ Hb. by apply (IH b eq_refl b1 b2).
Qed.

Lemma includes_find_first s p :
  includes s p = true -> exists before after, find_first s p = Some (before, after).
Proof.
  induction s as [|c s IH]; rewrite includes_unfold, find_first_unfold;
    destruct (startsWith _ p); eauto; try done.
  intros H. destruct (IH H) as (b & a & ->). eauto.
Qed.

Lemma find_first_includes s p :
  includes s p = false -> find_first s p = None.
Proof.
  induction s as [|c s IH]; rewrite includes_unfold, find_first_unfold;
    destruct (startsWith _ p); try done.
  intros H. by rewrite (IH H).
Qed.

(** A replacement text without a dollar sign. *)
Fixpoint no_dollar (s : string) : bool :=
  match s with
  | "" => true
  | String c s' => negb (Ascii.eqb c "$") && no_dollar s'
  end.

Lemma GetSubstitution_plain matched before after template :
  no_dollar template = true ->
  GetSubstitution matched before after template = template.
Proof.
  induction template as [|c t IH]; [done|]. simpl.
  intros [Hc Ht]%andb_true_iff. apply negb_true_iff in Hc. rewrite Hc.
  by rewrite IH.
Qed.

Lemma String_replace_plain s p r :
  no_dollar r = true -> String_replace s p r = replace_first_literal s p r.
Proof.
  intros H. unfold String_replace, replace_first_literal.
  destruct (find_first s p) as [[b a]|]; [|done]. by rewrite GetSubstitution_plain.
Qed.

(** ** What the file tools do *)

(** A rejected path stops the tool before it touches the tree. *)
Lemma file_tools_fail_closed path content old_string new_string fs msg :
  resolvePath (str_arg path) = inr msg ->
  Read path fs = (Thrown msg, fs) /\
  Write path content fs = (Thrown msg, fs) /\
  Edit path old_string new_string fs = (Thrown msg, fs).
Proof. intros H. unfold Read, Write, Edit. by rewrite H. Qed.

(** A path that [resolvePath] returns starts with the text of the root. *)
Lemma resolvePath_prefix relativePath resolved :
  resolvePath relativePath = inl resolved ->
  startsWith resolved WORKSPACE_GROUP = true.
Proof.
  unfold resolvePath.
  destruct (startsWith (path_resolve WORKSPACE_GROUP relativePath) WORKSPACE_GROUP)
    eqn:E; simpl; [|done].
  by intros [= <-].
Qed.

(** When [old_string] does not occur, [Edit] reports it and the tree is
    unchanged. *)
Lemma Edit_not_found path old_string new_string fs p content :
  resolvePath (str_arg path) = inl p ->
  readFileSync p fs = inl content ->
  includes content (str_arg old_string) = false ->
  Edit path old_string new_string fs
  = (Returned "Error: old_string not found in file", fs).
Proof. intros Hp Hr Hi. unfold Edit. by rewrite Hp, Hr, Hi. Qed.

(** When [new_string] holds no dollar sign, [Edit] replaces the first
    occurrence of [old_string] by [new_string] as it stands. *)
Lemma Edit_literal path old_string new_string fs p content :
  resolvePath (str_arg path) = inl p ->
  readFileSync p fs = inl content ->
  includes content (str_arg old_string) = true ->
  no_dollar (str_arg new_string) = true ->
  exists fs',
    Edit path old_string new_string fs = (Returned ("Edited " +:+ shown path), fs') /\
    readFileSync p fs'
    = inl (replace_first_literal content (str_arg old_string) (str_arg new_string)).
Proof.
  intros Hp Hr Hi Hd. unfold Edit. rewrite Hp, Hr, Hi. simpl.
  rewrite String_replace_plain by done.
  destruct (write_readable p
              (replace_first_literal content (str_arg old_string) (str_arg new_string))
              fs content Hr) as [fs' Hw].
  rewrite Hw. exists fs'. split; [done|]. by apply read_after_write in Hw.
Qed.

(** ** Concrete trees *)

(** A tree with the sandbox root holding [group], a sibling directory whose
    name starts with the name of the root, and [/etc/passwd]. *)
Definition sandbox (group : list (string * node)) : node :=
  Dir [ ("workspace",
          Dir [ ("group", Dir group);
                ("group-archive", Dir [("key.pem", File (Some "s3cr3t"))]) ]);
        ("etc", Dir [("passwd", File (Some "root:x:0:0"))]) ].

Definition price_tree : node :=
  sandbox [("price.txt", File (Some "cost: PRICE"))].

Definition notes_tree : node :=
  sandbox [("notes.txt", File (Some "hello world"))].

Definition docs_tree : node :=
  sandbox [("docs", Dir [("a.txt", File (Some ("xxfoo" +:+ LF +:+ "foo")))])].

(** C2, where the code departs from it.  [resolvePath] tests the resolved path
    with [startsWith] against the text of the root, so a sibling of the root
    whose name begins with [group] passes: [../group-archive/key.pem]
    resolves to [/workspace/group-archive/key.pem], which is not within the
    root, no error is raised, and [Read] returns the file.  The traversal
    [../../etc/passwd] and the absolute path [/etc/passwd] are rejected
    before any access. *)
Theorem resolvePath_accepts_sibling_of_root :
  resolvePath "../group-archive/key.pem" = inl "/workspace/group-archive/key.pem" /\
  within_root "/workspace/group-archive/key.pem" = false /\
  Read (Some "../group-archive/key.pem") price_tree = (Returned "s3cr3t", price_tree) /\
  Read (Some "../../etc/passwd") price_tree
  = (Thrown "Path ../../etc/passwd resolves outside /workspace/group", price_tree) /\
  Read (Some "/etc/passwd") price_tree
  = (Thrown "Path /etc/passwd resolves outside /workspace/group", price_tree).
Proof. by repeat split. Qed.

(** C8, where the code departs from it.  [content.replace(oldStr, newStr)]
    reads dollar patterns in [newStr]: replacing [PRICE] by [$$5] in
    [cost: PRICE] writes [cost: $5], and replacing it by [<$&>] writes
    [cost: <PRICE>], where the literal replacements are [cost: $$5] and
    [cost: <$&>]. *)
Theorem Edit_expands_dollar_patterns :
  includes "cost: PRICE" "PRICE" = true /\
  Edit (Some "price.txt") (Some "PRICE") (Some "$$5") price_tree
  = (Returned "Edited price.txt", sandbox [("price.txt", File (Some "cost: $5"))]) /\
  replace_first_literal "cost: PRICE" "PRICE" "$$5" = "cost: $$5" /\
  Edit (Some "price.txt") (Some "PRICE") (Some "<$&>") price_tree
  = (Returned "Edited price.txt",
     sandbox [("price.txt", File (Some "cost: <PRICE>"))]) /\
  replace_first_literal "cost: PRICE" "PRICE" "<$&>" = "cost: <$&>".
Proof. by repeat split. Qed.

(** The regular expressions [/hello/] and [/foo/]. *)
Definition re_hello : list item :=
  map (fun c => {| it_atom := AChar c; it_star := false |})
      ["h"; "e"; "l"; "l"; "o"]%char.

Definition re_foo : list item :=
  map (fun c => {| it_atom := AChar c; it_star := false |}) ["f"; "o"; "o"]%char.

(** C7, where the code departs from it.  Called without a path, [Grep] lists
    the files with the glob [**/*], which [simpleGlob] turns into the regular
    expression [^.[^/]*/[^/]*$]: a file directly under the root is not
    searched, so [notes.txt], whose only line matches [hello], yields the
    sentinel.  And the regular expression carries the [g] flag, so a match
    moves [lastIndex]: after the match in [xxfoo] the next line, [foo], is
    tested from index 5 and is missed. *)
Theorem Grep_misses_matching_lines :
  RegExp "hello" = Compiled re_hello /\
  test re_hello "hello world" = true /\
  readFileSync "/workspace/group/notes.txt" notes_tree = inl "hello world" /\
  glob_regex_source "**/*" = "^.[^/]*/[^/]*$" /\
  Grep (Some "hello") None notes_tree = Some "(no matches)" /\
  RegExp "foo" = Compiled re_foo /\
  readFileSync "/workspace/group/docs/a.txt" docs_tree
  = inl ("xxfoo" +:+ LF +:+ "foo") /\
  test re_foo "xxfoo" = true /\ test re_foo "foo" = true /\
  Grep (Some "foo") None docs_tree = Some "docs/a.txt:1: xxfoo".
Proof. by repeat split. Qed.

(** With the file one directory down and one match only, [Grep] reports the
    line as the specification says, trimmed. *)
Example Grep_finds_line_one_level_down :
  Grep (Some "key") None
    (sandbox [("docs", Dir [("a.txt", File (Some ("  the key  " +:+ LF +:+ "none")))])])
  = Some "docs/a.txt:1: the key".
Proof. reflexivity. Qed.

Lemma file_tools_fail_closed_witness :
  Read (Some "../../etc/passwd") price_tree
  = (Thrown "Path ../../etc/passwd resolves outside /workspace/group", price_tree) /\
  Write (Some "../../etc/passwd") (Some "x") price_tree
  = (Thrown "Path ../../etc/passwd resolves outside /workspace/group", price_tree) /\
  Edit (Some "../../etc/passwd") (Some "root") (Some "toor") price_tree
  = (Thrown "Path ../../etc/passwd resolves outside /workspace/group", price_tree).
Proof.
  apply (file_tools_fail_closed (Some "../../etc/passwd") (Some "x")
           (Some "root") (Some "toor") price_tree).
  reflexivity.
Defined.

Lemma Edit_not_found_witness :
  Edit (Some "price.txt") (Some "TOTAL") (Some "5") price_tree
  = (Returned "Error: old_string not found in file", price_tree).
Proof.
  apply (Edit_not_found (Some "price.txt") (Some "TOTAL") (Some "5") price_tree
           "/workspace/group/price.txt" "cost: PRICE"); reflexivity.
Defined.

Lemma Edit_literal_witness :
  exists fs',
    Edit (Some "price.txt") (Some "PRICE") (Some "5 EUR") price_tree
    = (Returned ("Edited " +:+ shown (Some "price.txt")), fs') /\
    readFileSync "/workspace/group/price.txt" fs'
    = inl (replace_first_literal "cost: PRICE" (str_arg (Some "PRICE"))
             (str_arg (Some "5 EUR"))).
Proof.
  apply (Edit_literal (Some "price.txt") (Some "PRICE") (Some "5 EUR") price_tree
           "/workspace/group/price.txt" "cost: PRICE"); reflexivity.
Defined.

(** ** More on paths *)

Fixpoint has_char (c : ascii) (s : string) : bool :=
  match s with
  | "" => false
  | String x s' => Ascii.eqb x c || has_char c s'
  end.

Lemma rev_app_rev_app a c d :
  String.rev_app (String.rev_app a c) d = String.rev_app c (a +:+ d).
Proof.
  revert c d. induction a as [|x a IH]; intros c d; [done|].
  simpl. by rewrite IH.
Qed.

Lemma rev_rev_app a : String.rev (String.rev_app a "") = a.
Proof. unfold String.rev. rewrite rev_app_rev_app. simpl. apply app_empty_r. Qed.

Lemma has_char_rev_app c a b :
  has_char c (String.rev_app a b) = has_char c a || has_char c b.
Proof.
  revert b. induction a as [|x a IH]; intros b; [done|].
  simpl. rewrite IH. simpl. destruct (Ascii.eqb x c), (has_char c a); done.
Qed.

(** No piece of a split holds the separator. *)
Lemma split_go_no_sep sep cur s :
  has_char sep cur = false ->
  Forall (fun x => has_char sep x = false) (split_go sep cur s).
Proof.
  revert cur. induction s as [|c s IH]; intros cur Hcur; simpl.
  - constructor; [|constructor]. unfold String.rev.
    by rewrite has_char_rev_app, Hcur.
  - destruct (Ascii.eqb c sep) eqn:E.
    + constructor; [|by apply IH]. unfold String.rev.
      by rewrite has_char_rev_app, Hcur.
    + apply IH. simpl. by rewrite E.
Qed.

Lemma split_go_snoc sep cur s :
  split_go sep cur (s +:+ String sep "") = split_go sep cur s ++ [""].
Proof.
  revert cur. induction s as [|c s IH]; intros cur.
  - simpl. by rewrite Ascii.eqb_refl.
  - rewrite app_cons. simpl. destruct (Ascii.eqb c sep); [|apply IH].
    by rewrite IH.
Qed.

(** A segment that [normalize_segments] keeps as it is. *)
Definition plain (seg : string) : bool :=
  negb (String.eqb seg "" || String.eqb seg "." || String.eqb seg "..").

Lemma normalize_segments_Forall (P : string -> Prop) kept segs :
  Forall P kept -> Forall P segs -> Forall P (normalize_segments kept segs).
Proof.
  revert kept. induction segs as [|seg segs IH]; intros kept Hk Hs; simpl.
  - by apply Forall_rev.
  - apply Forall_cons in Hs as [Hseg Hs].
    destruct (String.eqb seg "" || String.eqb seg "."); [by apply IH|].
    destruct (String.eqb seg "..").
    + apply IH; [|done]. destruct kept; [done|]. by apply Forall_cons in Hk as [_ ?].
    + apply IH; [by constructor|done].
Qed.

(** Without [..], normalising only drops the empty segments and [.]. *)
Lemma normalize_segments_no_dotdot kept segs :
  Forall (fun seg => seg <> "..") segs ->
  normalize_segments kept segs = rev kept ++ filter (fun seg => plain seg = true) segs.
Proof.
  revert kept. induction segs as [|seg segs IH]; intros kept Hs; simpl.
  - by rewrite app_nil_r.
  - apply Forall_cons in Hs as [Hseg Hs]. unfold plain at 1.
    destruct (String.eqb seg "" || String.eqb seg ".") eqn:E1.
    + rewrite filter_cons_False; [by apply IH|]. unfold plain. rewrite E1. simpl. done.
    + apply String.eqb_neq in Hseg. rewrite Hseg.
      rewrite filter_cons_True by (unfold plain; by rewrite E1, Hseg).
      rewrite IH by done. simpl. by rewrite <- app_assoc.
Qed.

Lemma join_cons sep x rest :
  join sep (x :: rest) =
    x +:+ match rest with [] => "" | _ => sep +:+ join sep rest end.
Proof. destruct rest; [|done]. simpl. by rewrite app_empty_r. Qed.

Lemma of_segments_group rest :
  of_segments ("workspace" :: "group" :: rest) =
    WORKSPACE_GROUP +:+ match rest with [] => "" | _ => "/" +:+ join "/" rest end.
Proof. unfold of_segments. by rewrite !join_cons. Qed.

Lemma startsWith_app_l s p q : startsWith s (p +:+ q) = true -> startsWith s p = true.
Proof.
  revert s. induction p as [|c p IH]; intros s; [by destruct s|].
  destruct s as [|d s]; [done|]. rewrite app_cons. simpl.
  destruct (Ascii.eqb c d); [apply IH|done].
Qed.

Lemma within_root_of_segments rest :
  within_root (of_segments ("workspace" :: "group" :: rest)) = true /\
  startsWith (of_segments ("workspace" :: "group" :: rest)) WORKSPACE_GROUP = true.
Proof.
  rewrite of_segments_group. unfold within_root. destruct rest as [|x rest].
  - by rewrite app_empty_r.
  - assert (startsWith (WORKSPACE_GROUP +:+ "/" +:+ join "/" (x :: rest))
              (WORKSPACE_GROUP +:+ "/") = true) as H.
    { rewrite <- app_assoc'. apply startsWith_app. }
    rewrite H, orb_true_r. split; [done|]. by apply startsWith_app_l in H.
Qed.

(** A relative path without a [..] segment is accepted, and what it
    resolves to is within the root. *)
Theorem resolvePath_accepts_path_without_dotdot (p : string) :
  startsWith p "/" = false ->
  Forall (fun seg => seg <> "..") (split "/" p) ->
  exists rest,
    resolvePath p = inl (of_segments ("workspace" :: "group" :: rest)) /\
    within_root (of_segments ("workspace" :: "group" :: rest)) = true.
Proof.
  intros Hrel Hsegs.
  assert (exists rest,
    path_resolve WORKSPACE_GROUP p = of_segments ("workspace" :: "group" :: rest))
    as [rest E].
  { unfold path_resolve. destruct (String.eqb p "") eqn:Ep.
    - by exists [].
    - rewrite Hrel.
      exists (filter (fun seg => plain seg = true) (split "/" p ++ [""])).
      unfold segments, split.
      change (split_go "/" "" (WORKSPACE_GROUP +:+ "/" +:+ p +:+ "/"))
        with ("" :: "workspace" :: "group" :: split_go "/" "" (p +:+ "/")).
      change (normalize_segments [] ("" :: "workspace" :: "group" :: ?l))
        with (normalize_segments ["group"; "workspace"] l).
      rewrite split_go_snoc. rewrite normalize_segments_no_dotdot; [done|].
      apply Forall_app. split; [exact Hsegs|]. by constructor. }
  exists rest. destruct (within_root_of_segments rest) as [Hin Hpre].
  split; [|exact Hin]. unfold resolvePath. by rewrite E, Hpre.
Qed.

(** Reading a segment off the front of a joined path. *)
Definition segment_tail (tail : string) : Prop :=
  tail = "" \/ exists t, tail = String "/" t.

Lemma join_tail rest :
  segment_tail match rest with [] => "" | _ => "/" +:+ join "/" rest end.
Proof. destruct rest; [by left|right; eauto]. Qed.

Lemma startsWith_cons b s a p :
  startsWith (String b s) (String a p) = if Ascii.eqb a b then startsWith s p else false.
Proof. reflexivity. Qed.

Lemma startsWith_segment s tail w x :
  has_char "/" s = false -> has_char "/" w = false -> segment_tail tail ->
  startsWith (s +:+ tail) (w +:+ String "/" x) = true ->
  s = w /\ exists t, tail = String "/" t /\ startsWith t x = true.
Proof.
  intros Hs Hw Htail. revert s Hs. induction w as [|a w IH]; intros s Hs.
  - change ("" +:+ String "/" x) with (String "/" x). destruct s as [|c s].
    + destruct Htail as [->|[t ->]]; [done|].
      change ("" +:+ String "/" t) with (String "/" t).
      rewrite startsWith_cons, Ascii.eqb_refl. eauto.
    + cbn [has_char] in Hs. apply orb_false_iff in Hs as [Hc _].
      rewrite app_cons, startsWith_cons, Ascii.eqb_sym, Hc. done.
  - cbn [has_char] in Hw. apply orb_false_iff in Hw as [Ha Hw].
    rewrite app_cons. destruct s as [|c s].
    + destruct Htail as [->|[t ->]]; [done|].
      change ("" +:+ String "/" t) with (String "/" t).
      by rewrite startsWith_cons, Ha.
    + cbn [has_char] in Hs. apply orb_false_iff in Hs as [_ Hs].
      rewrite app_cons, startsWith_cons.
      destruct (Ascii.eqb_spec a c) as [->|]; [|done]. intros H.
      destruct (IH Hw s Hs H) as [-> Ht]. eauto.
Qed.

Lemma startsWith_within_segment s tail w :
  has_char "/" w = false -> segment_tail tail ->
  startsWith (s +:+ tail) w = true -> startsWith s w = true.
Proof.
  intros Hw Htail. revert s. induction w as [|a w IH]; intros s; [by destruct s|].
  cbn [has_char] in Hw. apply orb_false_iff in Hw as [Ha Hw]. destruct s as [|c s].
  - destruct Htail as [->|[t ->]]; [done|].
    change ("" +:+ String "/" t) with (String "/" t).
    by rewrite startsWith_cons, Ha.
  - rewrite app_cons, !startsWith_cons. destruct (Ascii.eqb a c); [by apply IH|done].
Qed.

Lemma segment_eq s tail w :
  has_char "/" w = false -> segment_tail tail ->
  s +:+ tail = w -> s = w.
Proof.
  intros Hw Htail. revert s. induction w as [|a w IH]; intros s.
  - destruct s; [done|]. by rewrite app_cons.
  - simpl in Hw. apply orb_false_iff in Hw as [Ha Hw]. destruct s as [|c s].
    + destruct Htail as [->|[t ->]]; [done|]. simpl. intros [= <- _]. done.
    + rewrite app_cons. intros [= -> H]. f_equal. by apply IH.
Qed.

Lemma segments_no_slash p :
  Forall (fun seg => has_char "/" seg = false) (segments p).
Proof.
  unfold segments. apply normalize_segments_Forall; [constructor|].
  by apply split_go_no_sep.
Qed.

(** What [resolvePath] accepts lies in the root, or in a directory beside
    the root whose name begins with [group]; the second case is that of the
    paths outside the root. *)
Theorem resolvePath_accepts_group_prefixed_only (p r : string) :
  resolvePath p = inl r ->
  exists g rest,
    r = of_segments ("workspace" :: g :: rest) /\
    startsWith g "group" = true /\
    (within_root r = true <-> g = "group").
Proof.
  unfold resolvePath.
  destruct (startsWith (path_resolve WORKSPACE_GROUP p) WORKSPACE_GROUP) eqn:Hpre;
    [|done].
  simpl. intros [= <-]. revert Hpre. unfold path_resolve.
  set (joined := if String.eqb p "" then _ else _).
  pose proof (segments_no_slash joined) as Hsegs.
  destruct (segments joined) as [|s1 rest1]; [done|].
  apply Forall_cons in Hsegs as [Hs1 Hrest1].
  unfold of_segments. rewrite join_cons. intros Hpre.
  change (startsWith (s1 +:+ match rest1 with [] => "" | _ => "/" +:+ join "/" rest1 end)
            ("workspace" +:+ String "/" "group") = true) in Hpre.
  apply startsWith_segment in Hpre as (-> & t & Htail & Ht);
    [|done|done|apply join_tail].
  destruct rest1 as [|g rest]; [done|].
  injection Htail as <-. apply Forall_cons in Hrest1 as [Hg _].
  change (startsWith (join "/" (g :: rest)) "group" = true) in Ht.
  rewrite join_cons in Ht.
  pose proof (startsWith_within_segment g _ "group" eq_refl (join_tail rest) Ht)
    as Hgroup.
  exists g, rest. split; [by rewrite !join_cons|]. split; [done|]. split.
  - unfold within_root. rewrite !join_cons.
    pose proof (join_tail rest) as Htail.
    set (tail := match rest with [] => "" | _ => "/" +:+ join "/" rest end) in *.
    intros [H|H]%orb_true_iff.
    + apply String.eqb_eq in H.
      change ("/workspace/" +:+ (g +:+ tail) = "/workspace/" +:+ "group") in H.
      apply (inj (String.app "/workspace/")) in H.
      by apply (segment_eq g tail "group").
    + change (startsWith (g +:+ tail) ("group" +:+ String "/" "") = true) in H.
      by apply startsWith_segment in H as [-> _].
  - intros ->. apply (within_root_of_segments rest).
Qed.

(** ** Writing, then reading *)

(** What [Write] reports as written is what [Read] then returns for the
    same path. *)
Theorem Write_then_Read (path content : option string) (fs fs' : node) :
  Write path content fs = (Returned ("Wrote " +:+ shown path), fs') ->
  Read path fs' = (Returned (str_arg content), fs').
Proof.
  unfold Write, Read. destruct (resolvePath (str_arg path)) as [p|msg]; [|done].
  destruct (mkdirSync (path_dirname p) fs) as [fs1|err]; [|intros [= H]; discriminate H].
  destruct (writeFileSync p (str_arg content) fs1) as [fs2|err] eqn:W;
    [|intros [= H]; discriminate H].
  intros [= <-]. by rewrite (read_after_write _ _ _ _ W).
Qed.

(** [replace] with a replacement that holds no dollar sign rewrites the
    first occurrence of the pattern and nothing else; without an occurrence
    the string is returned as it is, whatever the replacement. *)
Theorem String_replace_first_occurrence (s p r : string) :
  (includes s p = false -> String_replace s p r = s) /\
  (includes s p = true -> no_dollar r = true ->
   exists before after,
     s = before +:+ p +:+ after /\
     String_replace s p r = before +:+ r +:+ after /\
     forall b1 b2, before = b1 +:+ b2 -> b2 <> "" ->
       startsWith (b2 +:+ p +:+ after) p = false).
Proof.
  split.
  - intros H. unfold String_replace. by rewrite (find_first_includes _ _ H).
  - intros Hi Hr. destruct (includes_find_first _ _ Hi) as (before & after & F).
    exists before, after. split; [by apply find_first_split|]. split.
    + rewrite String_replace_plain by done. unfold replace_first_literal.
      by rewrite F.
    + by apply (find_first_is_first s).
Qed.

(** ** [walkDir] lists the files of the tree *)

(** A name as [readdirSync] returns them: not empty, not [.] or [..], and
    without a slash. *)
Definition good_name (e : string) : bool := plain e && negb (has_char "/" e).

(** In a well-formed tree the names of a directory are good and distinct. *)
Fixpoint well_formed (n : node) : Prop :=
  match n with
  | File _ => True
  | Dir entries =>
      NoDup (map fst entries) /\
      (fix each (es : list (string * node)) : Prop :=
         match es with
         | [] => True
         | (e, child) :: rest =>
             good_name e = true /\ well_formed child /\ each rest
         end) entries
  end.

Lemma well_formed_entries entries :
  well_formed (Dir entries) ->
  NoDup (map fst entries) /\
  Forall (fun ec => good_name ec.1 = true /\ well_formed ec.2) entries.
Proof.
  intros [Hnd Heach]. split; [done|]. clear Hnd.
  induction entries as [|[e c] es IH]; [constructor|].
  destruct Heach as (He & Hc & Hrest). constructor; [done|]. by apply IH.
Qed.

(** Induction on trees, with the property at hand for every entry of a
    directory. *)
Fixpoint node_ind' (P : node -> Prop)
  (HFile : forall content, P (File content))
  (HDir : forall entries, Forall (fun ec => P ec.2) entries -> P (Dir entries))
  (n : node) : P n :=
  match n with
  | File content => HFile content
  | Dir entries =>
      HDir entries
        ((fix each (es : list (string * node)) : Forall (fun ec => P ec.2) es :=
            match es with
            | [] => List.Forall_nil _
            | (e, c) :: rest =>
                @List.Forall_cons _ _ (e, c) rest (node_ind' P HFile HDir c) (each rest)
            end) entries)
  end.

Lemma split_go_app sep cur a s :
  has_char sep a = false ->
  split_go sep cur (a +:+ s) = split_go sep (String.rev_app a cur) s.
Proof.
  revert cur. induction a as [|c a IH]; intros cur Ha; [done|].
  cbn [has_char] in Ha. apply orb_false_iff in Ha as [Hc Ha].
  rewrite app_cons. cbn [split_go]. rewrite Hc. by rewrite IH.
Qed.

Lemma split_go_piece sep a s :
  has_char sep a = false ->
  split_go sep "" (a +:+ String sep s) = a :: split_go sep "" s.
Proof.
  intros Ha. rewrite split_go_app by done. cbn [split_go].
  rewrite Ascii.eqb_refl. by rewrite rev_rev_app.
Qed.

Lemma split_go_last sep a :
  has_char sep a = false -> split_go sep "" a = [a].
Proof.
  intros Ha. rewrite <- (app_empty_r a) at 1. rewrite split_go_app by done.
  cbn [split_go]. by rewrite rev_rev_app.
Qed.

Lemma split_join x xs :
  Forall (fun s => has_char "/" s = false) (x :: xs) ->
  split "/" (join "/" (x :: xs)) = x :: xs.
Proof.
  unfold split. revert x. induction xs as [|y xs IH]; intros x H.
  - apply Forall_cons in H as [Hx _]. by apply split_go_last.
  - apply Forall_cons in H as [Hx H]. rewrite join_cons.
    change ("/" +:+ join "/" (y :: xs)) with (String "/" (join "/" (y :: xs))).
    rewrite split_go_piece by done. by rewrite IH.
Qed.

Lemma good_name_plain e : good_name e = true -> plain e = true.
Proof. by intros [? _]%andb_true_iff. Qed.

Lemma good_name_no_slash e : good_name e = true -> has_char "/" e = false.
Proof. intros [_ H]%andb_true_iff. by apply negb_true_iff in H. Qed.

Lemma plain_not_dotdot e : plain e = true -> e <> "..".
Proof. by intros H ->. Qed.

Lemma filter_plain ds :
  Forall (fun s => good_name s = true) ds ->
  filter (fun seg => plain seg = true) ds = ds.
Proof.
  induction 1 as [|x xs Hx _ IH]; [done|].
  rewrite filter_cons_True by by apply good_name_plain. by rewrite IH.
Qed.

Lemma split_of_segments x xs :
  Forall (fun s => good_name s = true) (x :: xs) ->
  split "/" (of_segments (x :: xs)) = "" :: x :: xs.
Proof.
  intros H. unfold of_segments, split.
  change ("/" +:+ join "/" (x :: xs)) with ("" +:+ String "/" (join "/" (x :: xs))).
  rewrite split_go_piece by done. f_equal. apply split_join.
  eapply Forall_impl; [exact H|]. apply good_name_no_slash.
Qed.

Lemma normalize_good ds :
  Forall (fun s => good_name s = true) ds ->
  normalize_segments [] ("" :: ds) = ds.
Proof.
  intros H. change (normalize_segments [] ("" :: ds)) with (normalize_segments [] ds).
  rewrite normalize_segments_no_dotdot.
  - by rewrite filter_plain.
  - eapply Forall_impl; [exact H|]. intros e He.
    by apply plain_not_dotdot, good_name_plain.
Qed.

(** A path made of good names is its own normal form. *)
Lemma segments_of_segments ds :
  Forall (fun s => good_name s = true) ds -> segments (of_segments ds) = ds.
Proof.
  intros H. destruct ds as [|x xs]; [done|].
  unfold segments. rewrite split_of_segments by done. by apply normalize_good.
Qed.

Lemma join_snoc sep x xs e :
  join sep ((x :: xs) ++ [e]) = join sep (x :: xs) +:+ sep +:+ e.
Proof.
  revert x. induction xs as [|y xs IH]; intros x; [done|].
  change ((x :: y :: xs) ++ [e]) with (x :: ((y :: xs) ++ [e])).
  rewrite (join_cons sep x ((y :: xs) ++ [e])).
  change ((y :: xs) ++ [e]) with (y :: (xs ++ [e])) at 1.
  cbv iota. change (y :: (xs ++ [e])) with ((y :: xs) ++ [e]). rewrite IH.
  rewrite (join_cons sep x (y :: xs)). by rewrite !app_assoc'.
Qed.

(** Joining a good name to a path of good names adds one segment. *)
Lemma path_join_of_segments ds e :
  Forall (fun s => good_name s = true) ds -> good_name e = true ->
  path_join (of_segments ds) e = of_segments (ds ++ [e]).
Proof.
  intros Hds He. unfold path_join. f_equal. destruct ds as [|x xs].
  - unfold segments, split.
    change (of_segments [] +:+ "/" +:+ e) with ("" +:+ String "/" ("" +:+ String "/" e)).
    rewrite !split_go_piece by done.
    rewrite split_go_last by by apply good_name_no_slash.
    change (normalize_segments [] ["";"";e]) with (normalize_segments [] ("" :: [e])).
    apply normalize_good. by constructor.
  - assert (of_segments (x :: xs) +:+ "/" +:+ e = of_segments ((x :: xs) ++ [e])) as ->.
    { unfold of_segments. by rewrite join_snoc, !app_assoc'. }
    apply segments_of_segments. apply Forall_app. split; [done|]. by constructor.
Qed.

Lemma walk_entries_elem (walk : string -> node -> list string) dir es f :
  f ∈ (fix walk_entries (es : list (string * node)) : list string :=
         match es with
         | [] => []
         | (e, child) :: rest => walk (path_join dir e) child ++ walk_entries rest
         end) es <->
  exists e c, (e, c) ∈ es /\ f ∈ walk (path_join dir e) c.
Proof.
  induction es as [|[e c] es IH].
  - split; [by intros ?%elem_of_nil|]. by intros (? & ? & ?%elem_of_nil & _).
  - rewrite elem_of_app, IH. split.
    + intros [H|(e' & c' & Hin & H)].
      * exists e, c. split; [left|done].
      * exists e', c'. split; [by right|done].
    + intros (e' & c' & Hin & H). apply elem_of_cons in Hin as [[= -> ->]|Hin].
      * by left.
      * right. eauto.
Qed.

Lemma entry_elem es e c :
  NoDup (map fst es) -> (entry e es = Some c <-> (e, c) ∈ es).
Proof.
  induction es as [|[n c'] es IH]; intros Hnd.
  - split; [done|by intros ?%elem_of_nil].
  - apply NoDup_cons in Hnd as [Hn Hnd]. cbn [entry].
    destruct (String.eqb_spec n e) as [->|Hne].
    + split.
      * intros [= ->]. left.
      * intros [[= ->]|Hin]%elem_of_cons; [done|]. exfalso. apply Hn.
        change e with (fst (e, c)). by apply (list_elem_of_fmap_2 fst es (e, c)).
    + rewrite IH by done. split; [by right|].
      intros [[= -> ->]|Hin]%elem_of_cons; done.
Qed.

(** The paths [walk_node] returns are those of the files under the
    node. *)
Lemma walk_node_files n :
  well_formed n ->
  forall ds, Forall (fun s => good_name s = true) ds ->
  forall f,
    f ∈ walk_node (of_segments ds) n <->
    exists names c,
      f = of_segments (ds ++ names) /\ lookup_segments names n = Some (File c).
Proof.
  induction n as [content|entries IH] using node_ind'; intros Hwf ds Hds f.
  - cbn [walk_node]. rewrite list_elem_of_singleton. split.
    + intros ->. exists [], content. by rewrite app_nil_r.
    + intros (names & c & -> & L). destruct names; [by rewrite app_nil_r|done].
  - apply well_formed_entries in Hwf as [Hnd Hes].
    cbn [walk_node]. rewrite walk_entries_elem. split.
    + intros (e & c & Hin & Hf).
      rewrite Forall_forall in Hes, IH.
      destruct (Hes _ Hin) as [He Hc]. cbn [fst snd] in He, Hc.
      rewrite path_join_of_segments in Hf by done.
      apply (IH _ Hin Hc (ds ++ [e])) in Hf as (names & c' & -> & L).
      2:{ apply Forall_app. split; [done|]. by constructor. }
      exists (e :: names), c'. split; [by rewrite <- app_assoc|].
      cbn [lookup_segments]. apply (entry_elem _ _ _ Hnd) in Hin. by rewrite Hin.
    + intros (names & c' & -> & L). destruct names as [|e names]; [done|].
      cbn [lookup_segments] in L. destruct (entry e entries) as [c|] eqn:E; [|done].
      apply (entry_elem _ _ _ Hnd) in E.
      rewrite Forall_forall in Hes, IH.
      destruct (Hes _ E) as [He Hc]. cbn [fst snd] in He, Hc.
      exists e, c. split; [done|]. rewrite path_join_of_segments by done.
      apply (IH _ E Hc (ds ++ [e])).
      { apply Forall_app. split; [done|]. by constructor. }
      exists names, c'. split; [by rewrite <- app_assoc|done].
Qed.

Lemma lookup_segments_app ds names n :
  lookup_segments (ds ++ names) n =
    match lookup_segments ds n with
    | Some m => lookup_segments names m
    | None => None
    end.
Proof.
  revert n. induction ds as [|d ds IH]; intros n; [done|].
  cbn [app lookup_segments]. destruct n as [|entries]; [done|].
  destruct (entry d entries); [apply IH|done].
Qed.

(** Only good names lead somewhere in a well-formed tree, and what they
    lead to is well formed. *)
Lemma lookup_well_formed names n m :
  well_formed n -> lookup_segments names n = Some m ->
  Forall (fun s => good_name s = true) names /\ well_formed m.
Proof.
  revert n. induction names as [|e names IH]; intros n Hwf L.
  - injection L as <-. by split.
  - cbn [lookup_segments] in L. destruct n as [|entries]; [done|].
    destruct (entry e entries) as [c|] eqn:E; [|done].
    apply well_formed_entries in Hwf as [Hnd Hes].
    apply (entry_elem _ _ _ Hnd) in E. rewrite Forall_forall in Hes.
    destruct (Hes _ E) as [He Hc]. destruct (IH _ Hc L) as [Hnames Hm].
    split; [by constructor|done].
Qed.

Lemma walkDir_files (fs : node) (ds : list string) (f : string) :
  well_formed fs ->
  Forall (fun s => good_name s = true) ds ->
  (f ∈ walkDir (of_segments ds) fs <->
   exists names,
     Forall (fun s => good_name s = true) names /\
     f = of_segments (ds ++ names) /\
     exists c, stat f fs = Some (File c)).
Proof.
  intros Hwf Hds. unfold walkDir, stat at 1. rewrite segments_of_segments by done.
  destruct (lookup_segments ds fs) as [n|] eqn:L.
  - destruct (lookup_well_formed _ _ _ Hwf L) as [_ Hn].
    rewrite (walk_node_files n Hn ds Hds). split.
    + intros (names & c & -> & Ln).
      destruct (lookup_well_formed _ _ _ Hn Ln) as [Hnames _].
      exists names. split; [done|]. split; [done|]. exists c. unfold stat.
      rewrite segments_of_segments by (apply Forall_app; by split).
      by rewrite lookup_segments_app, L.
    + intros (names & Hnames & -> & c & Hc). exists names, c. split; [done|].
      unfold stat in Hc.
      rewrite segments_of_segments in Hc by (apply Forall_app; by split).
      by rewrite lookup_segments_app, L in Hc.
  - split; [by intros ?%elem_of_nil|]. intros (names & Hnames & -> & c & Hc).
    unfold stat in Hc.
    rewrite segments_of_segments in Hc by (apply Forall_app; by split).
    by rewrite lookup_segments_app, L in Hc.
Qed.

(** [walkDir] returns exactly the files of the tree at and below the
    directory, each by its normalised absolute path: nothing that is not a
    file, nothing from outside the directory, and no file below it is left
    out. *)
Theorem walkDir_lists_exactly_the_files (fs : node) (ds : list string) (f : string) :
  well_formed fs ->
  Forall (fun s => good_name s = true) ds ->
  (f ∈ walkDir (of_segments ds) fs <->
   exists names,
     Forall (fun s => good_name s = true) names /\
     f = of_segments (ds ++ names) /\
     exists c, stat f fs = Some (File c)).
Proof. apply walkDir_files. Qed.

(** ** Patterns of every kind

    [simpleGlob] above answers for the patterns whose regular expression
    lies in the fragment modelled.  For the others the engine is a
    parameter: what [new RegExp(source)] does on a source outside the
    fragment, which is to throw ([None]) or to give a regular expression
    whose [test] is some function of the text.  The expression has no [g]
    flag, so [test] keeps no state. *)

Section AnyPattern.

Variable native_RegExp : string -> option (string -> bool).

(** [new RegExp(source)], and [test] on the result; [None]: it throws. *)
Definition RegExp_test (source : string) : option (string -> bool) :=
  match RegExp source with
  | Compiled re => Some (fun s => test re s)
  | SyntaxError _ => None
  | Unsupported => native_RegExp source
  end.

Definition simpleGlob_with (pattern baseDir : string) (fs : node) : list string :=
  let allFiles := walkDir baseDir fs in
  let normalized := match trim pattern with "" => "*" | t => t end in
  if String.eqb normalized "**" || endsWith normalized "/**" then allFiles
  else
    match RegExp_test (glob_regex_source normalized) with
    | None => allFiles
    | Some matches =>
        filter (fun f => matches (path_relative baseDir f) = true) allFiles
    end.

(** Where [simpleGlob] answers, this is its answer. *)
Lemma simpleGlob_with_agrees pattern baseDir fs files :
  simpleGlob pattern baseDir fs = Some files ->
  simpleGlob_with pattern baseDir fs = files.
Proof.
  unfold simpleGlob, simpleGlob_with, RegExp_test.
  destruct (String.eqb _ "**" || endsWith _ "/**"); [by intros [= <-]|].
  destruct (RegExp _) as [re|msg|]; [| |done]; by intros [= <-].
Qed.

Lemma simpleGlob_with_sublist pattern baseDir fs f :
  f ∈ simpleGlob_with pattern baseDir fs -> f ∈ walkDir baseDir fs.
Proof.
  unfold simpleGlob_with.
  destruct (String.eqb _ "**" || endsWith _ "/**"); [done|].
  destruct (RegExp_test _) as [matches|]; [|done].
  by intros [_ Hf]%list_elem_of_filter.
Qed.

(** What [simpleGlob] returns for the sandbox root are files within the
    root, whatever the pattern and whatever the regular expression made of
    it matches; for [**], and for any pattern that ends in [/**], whatever
    stands before it, these are all the files below the root. *)
Theorem simpleGlob_lists_files_within_root (pattern : string) (fs : node) :
  well_formed fs ->
  (forall f, f ∈ simpleGlob_with pattern WORKSPACE_GROUP fs ->
     within_root f = true /\ exists c, stat f fs = Some (File c)) /\
  (trim pattern = "**" \/ endsWith (trim pattern) "/**" = true ->
   simpleGlob_with pattern WORKSPACE_GROUP fs = walkDir WORKSPACE_GROUP fs) /\
  (forall files,
     simpleGlob pattern WORKSPACE_GROUP fs = Some files ->
     simpleGlob_with pattern WORKSPACE_GROUP fs = files).
Proof.
  intros Hwf. split; [|split].
  - intros f Hf%simpleGlob_with_sublist.
    change WORKSPACE_GROUP with (of_segments ["workspace"; "group"]) in Hf.
    apply walkDir_files in Hf as (names & _ & -> & Hc);
      [|done|by repeat constructor].
    split; [|done]. apply (within_root_of_segments names).
  - intros Hstar. unfold simpleGlob_with.
    set (normalized := match trim pattern with "" => "*" | t => t end).
    assert (String.eqb normalized "**" || endsWith normalized "/**" = true) as ->;
      [|done].
    subst normalized. destruct Hstar as [E|E]; [by rewrite E|].
    destruct (trim pattern) as [|c t] eqn:Et; [done|].
    rewrite E. apply orb_true_r.
  - apply simpleGlob_with_agrees.
Qed.

(** ** [Glob] *)






End AnyPattern.

(** ** [Bash], [WebSearch] and [WebFetch] *)

(** What [execSync] throws: the output captured so far, when there is any,
    the message of the error, when it has one, and [String(err)]. *)
Record ExecError := {
  err_stdout : option string;
  err_stderr : option string;
  err_message : option string;
  err_string : string
}.

(** The response of [fetch]: [text()] gives the body or throws. *)
Record Response := {
  res_ok : bool;
  res_status : nat;
  res_statusText : string;
  res_text : string + string
}.

#[local] Set Warnings "-abstract-large-number".

Section Processes.

(** The container the shell acts on, [execSync(command, ...)] in it, and
    [fetch(url, ...)] ([inr]: the message of what is thrown). *)
Variable Machine : Type.
Variable execSync : string -> Machine -> (string + ExecError) * Machine.
Variable fetch : string -> Response + string.

Definition Bash (command : option string) (m : Machine) : string * Machine :=
  let command := str_arg command in
  if String.eqb (trim command) "" then ("Error: empty command", m)
  else
    match execSync command m with
    | (inl out, m') => (if String.eqb out "" then "(no output)" else out, m')
    | (inr e, m') =>
        let stdout := default "" (err_stdout e) in
        let stderr := default "" (err_stderr e) in
        let msg := default (err_string e) (err_message e) in
        ("Error: " +:+ msg
         +:+ (if String.eqb stdout "" then "" else LF +:+ "stdout: " +:+ stdout)
         +:+ (if String.eqb stderr "" then "" else LF +:+ "stderr: " +:+ stderr),
         m')
    end.

Definition WebSearch : string :=
  "WebSearch is not implemented in custom provider mode. Use WebFetch with a specific URL if you have one.".

Definition WebFetch (url : option string) : string :=
  let url := str_arg url in
  if negb (startsWith url "http://") && negb (startsWith url "https://")
  then "Error: URL must start with http:// or https://"
  else
    match fetch url with
    | inr err => "Error: " +:+ err
    | inl res =>
        match res_text res with
        | inr err => "Error: " +:+ err
        | inl text =>
            if negb (res_ok res)
            then "Error: " +:+ pretty (res_status res) +:+ " " +:+ res_statusText res
                 +:+ LF +:+ Ipc.take_chars 500 text
            else Ipc.take_chars 100000 text
        end
    end.

(** *** Blank text *)

Lemma skip_ws_empty s : skip_ws s = "" <-> all_ws s = true.
Proof.
  induction s as [|c s IH]; [done|]. simpl. destruct (is_ws c); [exact IH|done].
Qed.

Lemma all_ws_app a b : all_ws (a +:+ b) = all_ws a && all_ws b.
Proof.
  induction a as [|c a IH]; [done|]. rewrite app_cons. simpl.
  rewrite IH. by rewrite andb_assoc.
Qed.

Lemma all_ws_rev_app a b : all_ws (String.rev_app a b) = all_ws a && all_ws b.
Proof.
  revert b. induction a as [|c a IH]; intros b; [done|].
  simpl. rewrite IH. simpl. destruct (is_ws c), (all_ws a); done.
Qed.

Lemma all_ws_rev s : all_ws (String.rev s) = all_ws s.
Proof. unfold String.rev. rewrite all_ws_rev_app. simpl. apply andb_true_r. Qed.

Lemma all_ws_skip_ws s : all_ws (skip_ws s) = all_ws s.
Proof.
  induction s as [|c s IH]; [done|]. simpl. destruct (is_ws c) eqn:E; [done|].
  simpl. by rewrite E.
Qed.

Lemma rev_empty s : String.rev s = "" -> s = "".
Proof.
  intros H. rewrite <- (rev_rev_app s). change (String.rev_app s "") with (String.rev s).
  by rewrite H.
Qed.

(** [trim] gives the empty string exactly on text made of white space. *)
Lemma trim_empty s : trim s = "" <-> all_ws s = true.
Proof.
  unfold trim. rewrite <- all_ws_skip_ws, <- all_ws_rev, <- skip_ws_empty. split.
  - apply rev_empty.
  - by intros ->.
Qed.

(** A command that is missing or made of white space only is refused and
    nothing is run; any other command is handed to the shell as it was
    given, and what the shell did is what remains.  What [Bash] returns is
    never the empty string. *)
Theorem Bash_runs_no_blank_command (command : option string) (m : Machine) :
  (all_ws (str_arg command) = true ->
   Bash command m = ("Error: empty command", m)) /\
  (all_ws (str_arg command) = false ->
   (Bash command m).2 = (execSync (str_arg command) m).2 /\
   forall out, (execSync (str_arg command) m).1 = inl out -> out <> "" ->
     (Bash command m).1 = out) /\
  (Bash command m).1 <> "".
Proof.
  unfold Bash. destruct (String.eqb_spec (trim (str_arg command)) "") as [E|E].
  - apply trim_empty in E. rewrite E. split; [done|]. split; [done|]. done.
  - assert (all_ws (str_arg command) = false) as Hws.
    { destruct (all_ws (str_arg command)) eqn:H; [|done].
      by apply trim_empty in H. }
    rewrite Hws. split; [done|].
    destruct (execSync (str_arg command) m) as [[out|e] m']; cbn [fst snd].
    + split.
      * intros _. split; [done|]. intros ? [= <-] Hout.
        by destruct (String.eqb_spec out "").
      * by destruct (String.eqb_spec out "").
    + split; [by intros _|]. done.
Qed.

Lemma take_chars_prefix n s :
  s = Ipc.take_chars n s +:+ drop_chars n s /\
  String.length (Ipc.take_chars n s) = Nat.min n (String.length s).
Proof.
  revert s. induction n as [|n IH]; intros s; [done|].
  destruct s as [|c s]; [done|]. destruct (IH s) as [E L].
  cbn [Ipc.take_chars drop_chars]. rewrite app_cons, <- E. split; [done|].
  simpl. by rewrite L.
Qed.

(** [WebFetch] makes a request only for a URL that starts with [http://] or
    [https://], in lower case; and of a body received with a status that is
    [ok] it returns the first 100000 characters, the whole of it when it is
    no longer than that. *)
Theorem WebFetch_checks_scheme_and_cuts_body (url : option string) :
  (startsWith (str_arg url) "http://" = false ->
   startsWith (str_arg url) "https://" = false ->
   WebFetch url = "Error: URL must start with http:// or https://") /\
  (forall res text,
     startsWith (str_arg url) "http://" = true \/
     startsWith (str_arg url) "https://" = true ->
     fetch (str_arg url) = inl res -> res_text res = inl text -> res_ok res = true ->
     text = WebFetch url +:+ drop_chars 100000 text /\
     String.length (WebFetch url) = Nat.min 100000 (String.length text)).
Proof.
  unfold WebFetch. split.
  - by intros -> ->.
  - intros res text Hscheme -> -> ->.
    replace (negb (startsWith (str_arg url) "http://")
             && negb (startsWith (str_arg url) "https://")) with false
      by (by destruct Hscheme as [-> | ->]; rewrite ?andb_false_r).
    cbn [negb]. apply take_chars_prefix.
Qed.

End Processes.

(** ** Instances *)

Lemma well_formed_docs_tree : well_formed docs_tree.
Proof. cbn. repeat split; by apply (bool_decide_unpack _). Qed.

Lemma resolvePath_accepts_path_without_dotdot_witness :
  exists rest,
    resolvePath "docs/./a.txt" = inl (of_segments ("workspace" :: "group" :: rest)) /\
    within_root (of_segments ("workspace" :: "group" :: rest)) = true.
Proof.
  apply (resolvePath_accepts_path_without_dotdot "docs/./a.txt"); [reflexivity|].
  by repeat constructor.
Defined.

Lemma resolvePath_accepts_group_prefixed_only_witness :
  exists g rest,
    "/workspace/group-archive/key.pem" = of_segments ("workspace" :: g :: rest) /\
    startsWith g "group" = true /\
    (within_root "/workspace/group-archive/key.pem" = true <-> g = "group").
Proof.
  apply (resolvePath_accepts_group_prefixed_only "../group-archive/key.pem").
  reflexivity.
Defined.

Lemma Write_then_Read_witness :
  Read (Some "notes/today.txt")
    (Write (Some "notes/today.txt") (Some "buy milk") price_tree).2
  = (Returned (str_arg (Some "buy milk")),
     (Write (Some "notes/today.txt") (Some "buy milk") price_tree).2).
Proof.
  apply (Write_then_Read (Some "notes/today.txt") (Some "buy milk") price_tree).
  reflexivity.
Defined.

Lemma walkDir_lists_exactly_the_files_witness :
  "/workspace/group/docs/a.txt" ∈ walkDir (of_segments ["workspace"; "group"]) docs_tree <->
  exists names,
    Forall (fun s => good_name s = true) names /\
    "/workspace/group/docs/a.txt" = of_segments (["workspace"; "group"] ++ names) /\
    exists c, stat "/workspace/group/docs/a.txt" docs_tree = Some (File c).
Proof.
  apply (walkDir_lists_exactly_the_files docs_tree ["workspace"; "group"]
           "/workspace/group/docs/a.txt").
  - exact well_formed_docs_tree.
  - by repeat constructor.
Defined.

(** An engine for one source outside the fragment, the alternation that the
    pattern [d|t] becomes: a text that begins with [d] or ends with [t]. *)
Definition example_native_RegExp (source : string) : option (string -> bool) :=
  if String.eqb source "^d|t$"
  then Some (fun s => startsWith s "d" || endsWith s "t")
  else None.

Lemma simpleGlob_lists_files_within_root_witness :
  (forall f, f ∈ simpleGlob_with example_native_RegExp "d|t" WORKSPACE_GROUP docs_tree ->
     within_root f = true /\ exists c, stat f docs_tree = Some (File c)) /\
  (trim "d|t" = "**" \/ endsWith (trim "d|t") "/**" = true ->
   simpleGlob_with example_native_RegExp "d|t" WORKSPACE_GROUP docs_tree
   = walkDir WORKSPACE_GROUP docs_tree) /\
  (forall files,
     simpleGlob "d|t" WORKSPACE_GROUP docs_tree = Some files ->
     simpleGlob_with example_native_RegExp "d|t" WORKSPACE_GROUP docs_tree
     = files).
Proof.
  apply (simpleGlob_lists_files_within_root example_native_RegExp "d|t"
           docs_tree).
  exact well_formed_docs_tree.
Defined.


End Sandbox.

(* ===================================================================== *)
(** * The tool-calling session loop ([custom-provider.ts]) *)
(* ===================================================================== *)

Module Provider.
Import JS.

(** ** Messages and completions *)

(** [message.content]: absent or [null], a string, or a sequence of parts of
    which each may carry a [text]. *)
Inductive Content :=
  | ContentNull
  | ContentString (s : string)
  | ContentParts (parts : list (option string)).

Record ToolCall := {
  tc_id : string;
  tc_name : option string;
  tc_arguments : option string
}.

Inductive Message :=
  | UserMessage (content : string)
  | AssistantMessage (content : Content) (tool_calls : option (list ToolCall))
  | ToolMessage (tool_call_id : string) (content : string).

(** What [client.chat.completions.create] does: it throws, answers without a
    message in the first choice, or answers with a message. *)
Inductive Completion :=
  | Rejects (err : string)
  | NoMessage
  | Choice (content : Content) (tool_calls : option (list ToolCall)).

Inductive Status := success | error.

Record ContainerOutput := {
  status : Status;
  result : option string;
  newSessionId : option string;
  error_message : option string
}.

Record ContainerInput := {
  prompt : string;
  sessionId : option string;
  groupFolder : string;
  chatJid : string;
  isMain : bool;
  isScheduledTask : bool
}.

(** The provider settings as resolved from the configuration file and the
    environment. *)
Record ProviderConfig := {
  baseURL : option string;
  apiKey : option string;
  model : string
}.

(** A session file: text that [JSON.parse] rejects (with the message of the
    error), a value without a [messages] array, or the array. *)
Inductive SessionFile :=
  | Unparsable (err : string)
  | NoMessagesArray
  | SessionMessages (messages : list Message).

Definition maxRounds : nat := 30.

Definition text_of (c : Content) : string :=
  match c with
  | ContentString s => s
  | ContentParts parts => join "" (map (default "") parts)
  | ContentNull => ""
  end.

Definition has_tool_calls (tcs : option (list ToolCall)) : bool :=
  match tcs with
  | Some (_ :: _) => true
  | _ => false
  end.

(** The file system as the session code uses it, on the world the tools act
    on: [fs.existsSync(p)], [fs.readFileSync(p, 'utf-8')],
    [fs.mkdirSync(p, { recursive: true })] and
    [fs.writeFileSync(p, text, 'utf-8')].  Reading returns the text or
    throws ([inr], the message); making a directory and writing return or
    throw ([Some], the message) and leave a world. *)
Record FileSystem (World : Type) := {
  existsSync : string -> World -> bool;
  readFileSync : string -> World -> string + string;
  mkdirSync : string -> World -> option string * World;
  writeFileSync : string -> string -> World -> option string * World
}.

Arguments existsSync {World} _ _ _.
Arguments readFileSync {World} _ _ _.
Arguments mkdirSync {World} _ _ _.
Arguments writeFileSync {World} _ _ _ _.

Definition SESSIONS_DIR : string :=
  Sandbox.path_join Sandbox.WORKSPACE_GROUP ".sessions".

(** The file of a session. *)
Definition session_path (id : string) : string :=
  Sandbox.path_join SESSIONS_DIR (id +:+ ".json").

Section Loop.

(** What the tools act on, the parsed arguments of a tool call, and
    [JSON.parse] on the argument text ([inr]: the message of the error). *)
Variable World : Type.
Variable Args : Type.
Variable JSON_parse : string -> Args + string.

(** A tool: its name in the catalog and what [execute] does, returning
    ([inl]) or throwing ([inr]), with its effect on the world. *)
Record ToolExecutor := {
  def_name : string;
  execute : Args -> World -> (string + string) * World
}.

(** The remote endpoint: the completion it gives at round [n] for the
    messages sent. *)
Variable create : nat -> list Message -> Completion.

(** [randomSessionId()]. *)
Variable randomSessionId : string.

(** The file system of the world; what [JSON.parse] and the test of
    [raw.messages] make of the text of a session file; and
    [JSON.stringify({ messages }, null, 0)]. *)
Variable fs : FileSystem World.
Variable parse_session : string -> SessionFile.
Variable stringify_session : list Message -> string.

Definition getExecutorMap (executors : list ToolExecutor)
  : gmap string ToolExecutor :=
  fold_left (fun m t => <[ def_name t := t ]> m) executors ∅.

Definition loadSession (id : string) (w : World) (logs : list string)
  : option (list Message) * list string :=
  let p := session_path id in
  if negb (existsSync fs p w) then (None, logs)
  else
    match readFileSync fs p w with
    | inr err => (None, logs ++ ["Failed to load session " +:+ id +:+ ": " +:+ err])
    | inl text =>
        match parse_session text with
        | SessionMessages messages => (Some messages, logs)
        | NoMessagesArray => (None, logs)
        | Unparsable err =>
            (None, logs ++ ["Failed to load session " +:+ id +:+ ": " +:+ err])
        end
    end.

(** [saveSession]: [mkdirSync] stands outside the [try], so what it throws
    leaves the function ([inr], with the world it left); a write that throws
    is logged and the function returns. *)
Definition saveSession (id : string) (messages : list Message) (w : World)
  (logs : list string) : World * list string + string * World :=
  match mkdirSync fs SESSIONS_DIR w with
  | (Some err, w1) => inr (err, w1)
  | (None, w1) =>
      match writeFileSync fs (session_path id) (stringify_session messages) w1 with
      | (None, w2) => inl (w2, logs)
      | (Some err, w2) =>
          inl (w2, logs ++ ["Failed to save session " +:+ id +:+ ": " +:+ err])
      end
  end.

(** One tool call of a round: the text that goes into the tool message. *)
Definition run_tool_call (executorMap : gmap string ToolExecutor)
  (tc : ToolCall) (w : World) : string * World :=
  let argsStr := default "{}" (tc_arguments tc) in
  let executor :=
    if truthy (tc_name tc) then executorMap !! default "" (tc_name tc) else None in
  match executor with
  | Some ex =>
      match JSON_parse argsStr with
      | inl args =>
          match execute ex args w with
          | (inl content, w') => (content, w')
          | (inr err, w') => ("Error: " +:+ err, w')
          end
      | inr err => ("Error: " +:+ err, w)
      end
  | None => ("Unknown tool: " +:+ default "null" (tc_name tc), w)
  end.

(** The [for] loop over the tool calls of one message. *)
Fixpoint run_tool_calls (executorMap : gmap string ToolExecutor)
  (tcs : list ToolCall) (messages : list Message) (w : World)
  : list Message * World :=
  match tcs with
  | [] => (messages, w)
  | tc :: rest =>
      let '(content, w') := run_tool_call executorMap tc w in
      run_tool_calls executorMap rest
        (messages ++ [ToolMessage (tc_id tc) content]) w'
  end.

(** How the [while] loop is left. *)
Inductive LoopExit :=
  | ExitNoMessage
  | ExitThrow (err : string)
  | ExitLoop (result : option string).

Record LoopState := {
  round : nat;
  messages : list Message;
  world : World;
  logs : list string
}.

Definition round_log (n : nat) : string := "Custom provider round " +:+ pretty n.

(** [while (round < maxRounds)], with [remaining = maxRounds - round]. *)
Fixpoint tool_loop (executorMap : gmap string ToolExecutor) (remaining : nat)
  (st : LoopState) : LoopExit * LoopState :=
  match remaining with
  | O => (ExitLoop None, st)
  | S remaining' =>
      let round' := S (round st) in
      let logs' := logs st ++ [round_log round'] in
      match create round' (messages st) with
      | Rejects err =>
          (ExitThrow err,
           {| round := round'; messages := messages st; world := world st;
              logs := logs' |})
      | NoMessage =>
          (ExitNoMessage,
           {| round := round'; messages := messages st; world := world st;
              logs := logs' |})
      | Choice content tool_calls =>
          let pushed := messages st ++ [AssistantMessage content tool_calls] in
          if has_tool_calls tool_calls then
            let '(messages', world') :=
              run_tool_calls executorMap (default [] tool_calls) pushed (world st) in
            tool_loop executorMap remaining'
              {| round := round'; messages := messages'; world := world';
                 logs := logs' |}
          else
            let text := text_of content in
            (ExitLoop (if String.eqb text "" then None else Some text),
             {| round := round'; messages := pushed; world := world st;
                logs := logs' |})
      end
  end.

(** What a run leaves behind: the outputs written, the error rethrown if
    any, and the state of the loop when the run ended; its world holds the
    session files. *)
Record Run := {
  outputs : list ContainerOutput;
  thrown : option string;
  final : LoopState
}.

Definition scheduled_task_prefix : string :=
  "[SCHEDULED TASK - You are running automatically. Use mcp__nanoclaw__send_message if needed to communicate with the user.]"
  +:+ LF +:+ LF.

Definition session_of (input : ContainerInput) : string :=
  default randomSessionId (sessionId input).

(** The history the first request is made with. *)
Definition initial_messages (input : ContainerInput) (w : World) : list Message :=
  let loaded := default [] (loadSession (session_of input) w []).1 in
  let prompt :=
    if isScheduledTask input then scheduled_task_prefix +:+ prompt input
    else prompt input in
  match loaded with
  | [] => [UserMessage prompt]
  | _ => loaded ++ [UserMessage prompt]
  end.

(** The state the loop is entered with. *)
Definition start_state (input : ContainerInput) (w : World) : LoopState :=
  {| round := O; messages := initial_messages input w; world := w;
     logs := (loadSession (session_of input) w []).2 |}.

(** The state the loop is left with. *)
Definition loop_end (executors : list ToolExecutor) (input : ContainerInput)
  (w : World) : LoopState :=
  (tool_loop (getExecutorMap executors) maxRounds (start_state input w)).2.

Definition runCustomProvider (config : ProviderConfig)
  (executors : list ToolExecutor) (input : ContainerInput) (w : World) : Run :=
  let start := {| round := O; messages := []; world := w; logs := [] |} in
  if negb (truthy (baseURL config)) || negb (truthy (apiKey config)) then
    {| outputs :=
         [ {| status := error; result := None; newSessionId := None;
              error_message :=
                Some "Set CUSTOM_PROVIDER_BASE_URL and CUSTOM_PROVIDER_API_KEY in .env, or create data/env/custom-provider.json with baseURL and apiKey" |} ];
       thrown := None; final := start |}
  else
    let executorMap := getExecutorMap executors in
    let id := session_of input in
    match tool_loop executorMap maxRounds (start_state input w) with
    | (ExitNoMessage, st) =>
        {| outputs :=
             [ {| status := error; result := None; newSessionId := Some id;
                  error_message := Some "No message in completion response" |} ];
           thrown := None; final := st |}
    | (ExitThrow err, st) =>
        {| outputs :=
             [ {| status := error; result := None; newSessionId := Some id;
                  error_message := Some err |} ];
           thrown := Some err;
           final :=
             {| round := round st; messages := messages st; world := world st;
                logs := logs st ++ ["Custom provider error: " +:+ err] |} |}
    | (ExitLoop result, st) =>
        if bool_decide (result = None) && (maxRounds <=? round st)%nat then
          {| outputs :=
               [ {| status := error; result := None; newSessionId := Some id;
                    error_message := Some "Max tool rounds exceeded" |} ];
             thrown := None; final := st |}
        else
          match saveSession id (messages st) (world st) (logs st) with
          | inr (err, w1) =>
              {| outputs :=
                   [ {| status := error; result := None; newSessionId := Some id;
                        error_message := Some err |} ];
                 thrown := Some err;
                 final :=
                   {| round := round st; messages := messages st; world := w1;
                      logs := logs st ++ ["Custom provider error: " +:+ err] |} |}
          | inl (w2, logs2) =>
              {| outputs :=
                   [ {| status := success; result := result;
                        newSessionId := Some id; error_message := None |} ];
                 thrown := None;
                 final :=
                   {| round := round st; messages := messages st; world := w2;
                      logs := logs2 ++ ["Custom provider completed successfully"] |} |}
          end
    end.

(** ** The round budget *)

(** An endpoint that asks for tool calls at every round runs the loop to the
    end of its budget. *)
Lemma tool_loop_always_tool_calls executorMap :
  (forall n msgs, exists c tc tcs, create n msgs = Choice c (Some (tc :: tcs))) ->
  forall remaining st,
    exists st',
      tool_loop executorMap remaining st = (ExitLoop None, st') /\
      round st' = (round st + remaining)%nat /\
      logs st' = logs st ++ map round_log (seq (S (round st)) remaining).
Proof.
  intros Hcreate. induction remaining as [|remaining IH]; intros st.
  - exists st. simpl. by rewrite Nat.add_0_r, app_nil_r.
  - simpl. destruct (Hcreate (S (round st)) (messages st)) as (c & tc & tcs & ->).
    simpl.
    destruct (run_tool_call executorMap tc (world st)) as [content w1].
    destruct (run_tool_calls executorMap tcs _ w1) as [messages' world'].
    destruct (IH {| round := S (round st); messages := messages'; world := world';
                    logs := logs st ++ [round_log (S (round st))] |})
      as (st' & -> & Hround & Hlogs).
    exists st'. split; [done|]. simpl in Hround, Hlogs. split; [lia|].
    by rewrite Hlogs, <- app_assoc.
Qed.

(** C5. Against an endpoint whose every response carries tool calls, a
    configured run ends with the single output of status error and message
    Max tool rounds exceeded, nothing is rethrown, and the loop has made
    exactly thirty rounds: the round counter stands at 30 and the rounds
    logged are 1 to 30.  The run ends in the state in which the loop was
    left: no step of [saveSession] is taken. *)
Theorem always_tool_calls_exhausts_round_budget
  (config : ProviderConfig) (executors : list ToolExecutor)
  (input : ContainerInput) (w : World) :
  truthy (baseURL config) = true ->
  truthy (apiKey config) = true ->
  (forall n msgs, exists c tc tcs, create n msgs = Choice c (Some (tc :: tcs))) ->
  let r := runCustomProvider config executors input w in
  outputs r =
    [ {| status := error; result := None;
         newSessionId := Some (session_of input);
         error_message := Some "Max tool rounds exceeded" |} ] /\
  thrown r = None /\
  round (final r) = 30%nat /\
  logs (final r) =
    (loadSession (session_of input) w []).2 ++ map round_log (seq 1 30) /\
  final r = loop_end executors input w.
Proof.
  intros Hurl Hkey Hcreate r. unfold r, runCustomProvider, loop_end.
  rewrite Hurl, Hkey. simpl negb. cbv iota.
  destruct (tool_loop_always_tool_calls (getExecutorMap executors) Hcreate maxRounds
              (start_state input w))
    as (st' & -> & Hround & Hlogs).
  simpl in Hround, Hlogs. rewrite Hround. simpl. by rewrite Hlogs.
Qed.

(** ** Tool calls of one round *)

(** Whatever the tools do (return, throw, be unknown, get arguments that do
    not parse), each tool call of a message gets one tool message, in the
    order of the calls and under the id of its call, and the history before
    them is kept. *)
Theorem every_tool_call_is_answered
  (executorMap : gmap string ToolExecutor) (tcs : list ToolCall)
  (msgs : list Message) (w : World) :
  exists contents,
    length contents = length tcs /\
    (run_tool_calls executorMap tcs msgs w).1 =
      msgs ++ zip_with (fun tc c => ToolMessage (tc_id tc) c) tcs contents.
Proof.
  revert msgs w. induction tcs as [|tc tcs IH]; intros msgs w.
  - exists []. by rewrite app_nil_r.
  - cbn [run_tool_calls].
    destruct (run_tool_call executorMap tc w) as [content w1].
    destruct (IH (msgs ++ [ToolMessage (tc_id tc) content]) w1)
      as (contents & Hlen & ->).
    exists (content :: contents). split; [simpl; by rewrite Hlen|].
    by rewrite <- app_assoc.
Qed.

(** ** The catalog *)

Lemma getExecutorMap_snoc executors t :
  getExecutorMap (executors ++ [t]) = <[ def_name t := t ]> (getExecutorMap executors).
Proof. unfold getExecutorMap. by rewrite fold_left_app. Qed.

Lemma getExecutorMap_lookup (executors : list ToolExecutor) (name : string) :
  getExecutorMap executors !! name
  = last (filter (fun t => def_name t = name) executors).
Proof.
  induction executors as [|t executors IH] using rev_ind; [done|].
  rewrite getExecutorMap_snoc, filter_app.
  destruct (decide (def_name t = name)) as [E|E].
  - rewrite E, lookup_insert_eq. rewrite filter_cons_True by done.
    by rewrite filter_nil, last_snoc.
  - rewrite lookup_insert_ne by done. rewrite filter_cons_False by done.
    by rewrite filter_nil, app_nil_r.
Qed.

(** A name is looked up to the last executor registered under it: a later
    executor shadows an earlier one of the same name, and a name that no
    executor has is looked up to nothing. *)
Theorem getExecutorMap_last_wins (executors : list ToolExecutor) (name : string) :
  getExecutorMap executors !! name
  = last (filter (fun t => def_name t = name) executors).
Proof. apply getExecutorMap_lookup. Qed.

(** A call that names no tool of the catalog, or whose arguments do not
    parse, is answered with a text and runs nothing: the world is as it
    was. *)
Theorem stray_tool_call_runs_nothing
  (executors : list ToolExecutor) (tc : ToolCall) (w : World) :
  (default "" (tc_name tc) = "" \/
   Forall (fun t => def_name t <> default "" (tc_name tc)) executors ->
   run_tool_call (getExecutorMap executors) tc w
   = ("Unknown tool: " +:+ default "null" (tc_name tc), w)) /\
  (forall err,
     JSON_parse (default "{}" (tc_arguments tc)) = inr err ->
     (run_tool_call (getExecutorMap executors) tc w).2 = w /\
     ((run_tool_call (getExecutorMap executors) tc w).1 = "Error: " +:+ err \/
      (run_tool_call (getExecutorMap executors) tc w).1
      = "Unknown tool: " +:+ default "null" (tc_name tc))).
Proof.
  split.
  - intros H. unfold run_tool_call.
    destruct (tc_name tc) as [[|c name]|] eqn:En; [done| |done].
    destruct H as [H|H]; [done|]. cbn [truthy default] in *.
    replace (truthy (Some (String c name))) with true by done.
    rewrite getExecutorMap_lookup.
    replace (filter (fun t => def_name t = String c name) executors)
      with (@nil ToolExecutor); [done|].
    induction H as [|t ts Ht _ IH]; [done|].
    by rewrite filter_cons_False.
  - intros err E. unfold run_tool_call. rewrite E.
    destruct (if truthy (tc_name tc) then _ else _); auto.
Qed.

(** ** Persistence of the session *)












(** ** The rounds of a run *)

Lemma tool_loop_round executorMap remaining st e st' :
  tool_loop executorMap remaining st = (e, st') ->
  (round st <= round st' <= round st + remaining)%nat /\
  ((0 < remaining)%nat -> (round st < round st')%nat) /\
  (e = ExitLoop None -> round st' = (round st + remaining)%nat \/
     exists msgs c tcs, create (round st') msgs = Choice c tcs /\
       has_tool_calls tcs = false /\ text_of c = "").
Proof.
  revert st. induction remaining as [|remaining IH]; intros st; cbn [tool_loop].
  - intros [= <- <-]. split; [lia|]. split; [lia|]. intros _. left. lia.
  - destruct (create (S (round st)) (messages st)) as [err| |c tcs] eqn:Hc.
    + intros [= <- <-]. cbn [round]. split; [lia|]. split; [lia|done].
    + intros [= <- <-]. cbn [round]. split; [lia|]. split; [lia|done].
    + destruct (has_tool_calls tcs) eqn:Htc.
      * destruct (run_tool_calls _ _ _ _) as [ms' w']. intros H.
        apply IH in H as (Hle & _ & Hnone). cbn [round] in *.
        split; [lia|]. split; [lia|]. intros E.
        destruct (Hnone E) as [->|?]; [left; lia|by right].
      * intros [= <- <-]. cbn [round]. split; [lia|]. split; [lia|].
        intros [= E]. right. exists (messages st), c, tcs.
        split; [done|]. split; [done|].
        by destruct (String.eqb_spec (text_of c) "").
Qed.

(** Whatever the endpoint answers, a run asks it at most thirty times; a
    successful run has asked it at least once; and a run that ends on the
    budget error, with nothing thrown, has made all thirty rounds. *)
Theorem run_stays_within_round_budget
  (config : ProviderConfig) (executors : list ToolExecutor)
  (input : ContainerInput) (w : World) :
  let r := runCustomProvider config executors input w in
  (round (final r) <= 30)%nat /\
  (forall o, outputs r = [o] -> status o = success -> (1 <= round (final r))%nat) /\
  (forall o, outputs r = [o] -> thrown r = None ->
     error_message o = Some "Max tool rounds exceeded" ->
     round (final r) = 30%nat).
Proof.
  intros r. unfold r, runCustomProvider.
  destruct (negb (truthy (baseURL config)) || negb (truthy (apiKey config))).
  { cbn. split; [lia|]. split; intros o [= <-]; done. }
  destruct (tool_loop (getExecutorMap executors) maxRounds _) as [[| err | res] st]
    eqn:Hloop;
    apply tool_loop_round in Hloop as (Hle & Hlt & Hnone);
    cbn [round start_state] in Hle, Hlt; unfold maxRounds in *.
  - cbn. split; [lia|]. split; intros o [= <-]; done.
  - cbn. split; [lia|]. split; intros o [= <-]; done.
  - destruct (bool_decide (res = None) && (30 <=? round st)%nat) eqn:Hb.
    + cbn. split; [lia|]. split; intros o [= <-]; [done|]. intros _ _.
      apply andb_true_iff in Hb as [_ Hr]. apply Nat.leb_le in Hr. lia.
    + destruct (saveSession _ _ _ _) as [[w2 logs2]|[err w1]].
      * cbn. split; [lia|]. split; intros o [= <-]; [intros _; lia|done].
      * cbn. split; [lia|]. split; intros o [= <-]; done.
Qed.

(** Tool calls at every round before round [k], and at round [k] a message
    without tool calls whose text is [t]. *)
Definition answers_at (k : nat) (t : string) : Prop :=
  (forall n msgs, (n < k)%nat ->
     exists c tc tcs, create n msgs = Choice c (Some (tc :: tcs))) /\
  (forall msgs, exists c tcs,
     create k msgs = Choice c tcs /\ has_tool_calls tcs = false /\ text_of c = t).

Lemma tool_loop_answers_at executorMap k t :
  answers_at k t ->
  forall remaining st,
    (round st < k <= round st + remaining)%nat ->
    exists st',
      tool_loop executorMap remaining st
      = (ExitLoop (if String.eqb t "" then None else Some t), st') /\
      round st' = k.
Proof.
  intros [Hcalls Hanswer]. induction remaining as [|remaining IH]; intros st Hk;
    [lia|].
  cbn [tool_loop]. destruct (decide (S (round st) = k)) as [E|E].
  - destruct (Hanswer (messages st)) as (c & tcs & Hc & Htc & Ht).
    rewrite E, Hc, Htc, Ht. eexists. split; [done|]. done.
  - destruct (Hcalls (S (round st)) (messages st)) as (c & tc & tcs & ->); [lia|].
    cbn [has_tool_calls].
    destruct (run_tool_calls _ _ _ _) as [ms' w']. apply IH. cbn [round]. lia.
Qed.

(** The endpoint gives its final answer at round [k], within the budget,
    and the loop is left at that round.  An empty text at round thirty gives
    the budget error, and no step of [saveSession] is taken: the answer
    given within the budget is reported as exceeding it.  In every other
    case [saveSession] runs on the world the loop left.  When making the
    directory of the sessions throws, the run reports that error and
    rethrows it.  Otherwise the run reports success, with the text as its
    result (no result for an empty text), whether the write of the session
    file went through or threw; a write that threw is only logged. *)
Theorem final_answer_at_round
  (config : ProviderConfig) (executors : list ToolExecutor)
  (input : ContainerInput) (w : World) (k : nat) (t : string) :
  truthy (baseURL config) = true ->
  truthy (apiKey config) = true ->
  (1 <= k <= 30)%nat ->
  answers_at k t ->
  let id := session_of input in
  let r := runCustomProvider config executors input w in
  let left := loop_end executors input w in
  round (final r) = k /\
  if String.eqb t "" && (k =? 30)%nat then
    outputs r =
      [ {| status := error; result := None; newSessionId := Some id;
           error_message := Some "Max tool rounds exceeded" |} ] /\
    thrown r = None /\
    final r = left
  else
    match mkdirSync fs SESSIONS_DIR (world left) with
    | (Some err, w1) =>
        outputs r =
          [ {| status := error; result := None; newSessionId := Some id;
               error_message := Some err |} ] /\
        thrown r = Some err /\
        world (final r) = w1
    | (None, w1) =>
        outputs r =
          [ {| status := success;
               result := if String.eqb t "" then None else Some t;
               newSessionId := Some id; error_message := None |} ] /\
        thrown r = None /\
        match writeFileSync fs (session_path id)
                (stringify_session (messages left)) w1 with
        | (None, w2) =>
            world (final r) = w2 /\
            logs (final r)
            = logs left ++ ["Custom provider completed successfully"]
        | (Some err, w2) =>
            world (final r) = w2 /\
            logs (final r)
            = logs left
              ++ [ "Failed to save session " +:+ id +:+ ": " +:+ err;
                   "Custom provider completed successfully" ]
        end
    end.
Proof.
  intros Hurl Hkey Hk Hanswers id r left. unfold r, left, loop_end, runCustomProvider.
  rewrite Hurl, Hkey. cbn [negb orb].
  destruct (tool_loop_answers_at (getExecutorMap executors) k t Hanswers maxRounds
              (start_state input w))
    as (st' & -> & Hround); [cbn [round start_state]; unfold maxRounds; lia|].
  cbn [snd]. rewrite Hround. unfold maxRounds.
  assert ((30 <=? k)%nat = (k =? 30)%nat) as ->.
  { destruct (Nat.leb_spec 30 k), (Nat.eqb_spec k 30); try done; lia. }
  destruct (String.eqb t "") eqn:Et; cbn [andb].
  - rewrite bool_decide_eq_true_2 by done. cbn [andb].
    destruct (k =? 30)%nat.
    + cbn. by rewrite ?Hround.
    + cbn. unfold saveSession.
      destruct (mkdirSync fs SESSIONS_DIR (world st')) as [[err|] w1];
        [cbn; by rewrite ?Hround|].
      destruct (writeFileSync fs _ _ w1) as [[err|] w2]; cbn;
        rewrite ?Hround, <- ?app_assoc; done.
  - rewrite bool_decide_eq_false_2 by done. cbn. unfold saveSession.
    destruct (mkdirSync fs SESSIONS_DIR (world st')) as [[err|] w1];
      [cbn; by rewrite ?Hround|].
    destruct (writeFileSync fs _ _ w1) as [[err|] w2]; cbn;
      rewrite ?Hround, <- ?app_assoc; done.
Qed.

End Loop.

Arguments outputs {World} _.
Arguments thrown {World} _.
Arguments final {World} _.
Arguments round {World} _.
Arguments messages {World} _.
Arguments world {World} _.
Arguments logs {World} _.
Arguments def_name {World Args} _.
Arguments execute {World Args} _ _ _.

(** ** The provider settings *)

(** The configuration file as [JSON.parse] gives it, its three fields read
    as strings where present. *)
Record RawConfig := {
  raw_baseURL : option string;
  raw_apiKey : option string;
  raw_model : option string
}.

(** What [loadCustomProviderConfig] returns when it returns settings. *)
Record Settings := {
  set_baseURL : string;
  set_apiKey : string;
  set_model : string
}.

Definition DEFAULT_CONFIG_PATH : string := "/workspace/env-dir/custom-provider.json".

Definition DEFAULT_MODEL : string := "anthropic/claude-3.5-sonnet".

(** [a ?? b]. *)
Definition nullish_or {A : Type} (a b : option A) : option A :=
  match a with
  | Some _ => a
  | None => b
  end.

(** [s.replace(/\/$/, '')]: one slash at the end of the text is removed. *)
Fixpoint strip_trailing_slash (s : string) : string :=
  match s with
  | "" => ""
  | String c "" => if Ascii.eqb c "/" then "" else s
  | String c s' => String c (strip_trailing_slash s')
  end.

Section Config.

(** [JSON.parse] on the text of the configuration file, with the fields
    read; [inr] is the message of whatever is thrown in the [try]. *)
Variable parse_config : string -> RawConfig + string.

(** [env] is [process.env]; [files] gives, for the paths that exist, what
    [readFileSync] returns or the message of what it throws. *)
Definition config_path (env : gmap string string) : string :=
  or_default (env !! "CUSTOM_PROVIDER_CONFIG") DEFAULT_CONFIG_PATH.

Definition loadCustomProviderConfig (env : gmap string string)
  (files : gmap string (string + string)) : option Settings * list string :=
  let configPath := config_path env in
  match files !! configPath with
  | None => (None, [])
  | Some (inr err) => (None, ["Failed to load custom provider config: " +:+ err])
  | Some (inl content) =>
      match parse_config content with
      | inr err => (None, ["Failed to load custom provider config: " +:+ err])
      | inl raw =>
          let baseURL :=
            strip_trailing_slash
              <$> nullish_or (raw_baseURL raw) (env !! "CUSTOM_PROVIDER_BASE_URL") in
          let apiKey :=
            nullish_or (raw_apiKey raw) (env !! "CUSTOM_PROVIDER_API_KEY") in
          let model :=
            default DEFAULT_MODEL
              (nullish_or (raw_model raw) (env !! "CUSTOM_PROVIDER_MODEL")) in
          if truthy baseURL && truthy apiKey then
            (Some {| set_baseURL := default "" baseURL;
                     set_apiKey := default "" apiKey;
                     set_model := model |},
             ["Using custom provider config from " +:+ configPath])
          else (None, [])
      end
  end.

(** The first lines of [runCustomProvider]. *)
Definition resolve_config (env : gmap string string)
  (files : gmap string (string + string)) : ProviderConfig :=
  let fromFile := (loadCustomProviderConfig env files).1 in
  {| baseURL :=
       nullish_or (set_baseURL <$> fromFile)
         (strip_trailing_slash <$> env !! "CUSTOM_PROVIDER_BASE_URL");
     apiKey :=
       nullish_or (set_apiKey <$> fromFile) (env !! "CUSTOM_PROVIDER_API_KEY");
     model :=
       default DEFAULT_MODEL
         (nullish_or (set_model <$> fromFile) (env !! "CUSTOM_PROVIDER_MODEL")) |}.

(** The settings of the environment alone. *)
Definition env_config (env : gmap string string) : ProviderConfig :=
  {| baseURL := strip_trailing_slash <$> env !! "CUSTOM_PROVIDER_BASE_URL";
     apiKey := env !! "CUSTOM_PROVIDER_API_KEY";
     model := default DEFAULT_MODEL (env !! "CUSTOM_PROVIDER_MODEL") |}.

Definition configured_by (config : ProviderConfig) : bool :=
  truthy (baseURL config) && truthy (apiKey config).

Lemma resolve_config_cases
  (env : gmap string string) (files : gmap string (string + string)) :
  match (loadCustomProviderConfig env files).1 with
  | None => resolve_config env files = env_config env
  | Some settings =>
      configured_by (resolve_config env files) = true /\
      exists content raw,
        files !! config_path env = Some (inl content) /\
        parse_config content = inl raw /\
        baseURL (resolve_config env files) =
          strip_trailing_slash
            <$> nullish_or (raw_baseURL raw) (env !! "CUSTOM_PROVIDER_BASE_URL") /\
        apiKey (resolve_config env files) =
          nullish_or (raw_apiKey raw) (env !! "CUSTOM_PROVIDER_API_KEY") /\
        model (resolve_config env files) =
          default DEFAULT_MODEL
            (nullish_or (raw_model raw) (env !! "CUSTOM_PROVIDER_MODEL"))
  end.
Proof.
  unfold resolve_config, configured_by, loadCustomProviderConfig.
  destruct (files !! config_path env) as [[content|err]|] eqn:Ef; [|done|done].
  destruct (parse_config content) as [raw|err] eqn:Ep; [|done].
  destruct (strip_trailing_slash <$> nullish_or (raw_baseURL raw) _)
    as [[|c1 s1]|] eqn:Eb; [done| |done].
  destruct (nullish_or (raw_apiKey raw) _) as [[|c2 s2]|] eqn:Ek; [done| |done].
  cbn. split; [done|]. by exists content, raw.
Qed.

(** A file that is missing, cannot be read, does not parse, or does not
    lead to a usable pair, counts for nothing: the settings are those of
    the environment, also for the fields the file did give.  Otherwise the
    file is read field by field before the environment. *)
Theorem config_file_first_or_not_at_all
  (env : gmap string string) (files : gmap string (string + string)) :
  match (loadCustomProviderConfig env files).1 with
  | None => resolve_config env files = env_config env
  | Some settings =>
      configured_by (resolve_config env files) = true /\
      exists content raw,
        files !! config_path env = Some (inl content) /\
        parse_config content = inl raw /\
        baseURL (resolve_config env files) =
          strip_trailing_slash
            <$> nullish_or (raw_baseURL raw) (env !! "CUSTOM_PROVIDER_BASE_URL") /\
        apiKey (resolve_config env files) =
          nullish_or (raw_apiKey raw) (env !! "CUSTOM_PROVIDER_API_KEY") /\
        model (resolve_config env files) =
          default DEFAULT_MODEL
            (nullish_or (raw_model raw) (env !! "CUSTOM_PROVIDER_MODEL"))
  end.
Proof. apply resolve_config_cases. Qed.

(** A base URL (of more than a slash) and a key in the environment are
    enough: the settings are usable whatever the configuration file holds,
    be it missing, unreadable, broken or partial. *)
Theorem environment_alone_is_enough
  (env : gmap string string) (files : gmap string (string + string)) :
  configured_by (env_config env) = true ->
  configured_by (resolve_config env files) = true.
Proof.
  intros Henv. pose proof (resolve_config_cases env files) as H.
  destruct (loadCustomProviderConfig env files).1; [by destruct H|by rewrite H].
Qed.

(** *** The settings and the run *)

Variable World : Type.
Variable Args : Type.
Variable JSON_parse : string -> Args + string.
Variable create : nat -> list Message -> Completion.
Variable randomSessionId : string.
Variable fs : FileSystem World.
Variable parse_session : string -> SessionFile.
Variable stringify_session : list Message -> string.

(** A run reports a session identifier in every output but the one for
    missing settings; that one is written exactly when the file and the
    environment give no usable pair, and then nothing else has happened: no
    request, no tool, no session file, the world is as it was. *)
Theorem run_reports_session_unless_unconfigured
  (env : gmap string string) (files : gmap string (string + string))
  (executors : list (ToolExecutor World Args)) (input : ContainerInput)
  (w : World) :
  let config := resolve_config env files in
  let r := runCustomProvider World Args JSON_parse create randomSessionId
             fs parse_session stringify_session config executors input w in
  exists o,
    outputs r = [o] /\
    (newSessionId o = None <-> configured_by config = false) /\
    (configured_by config = true ->
     newSessionId o = Some (session_of randomSessionId input)) /\
    (configured_by config = false ->
     status o = error /\ result o = None /\ thrown r = None /\
     round (final r) = O /\ world (final r) = w).
Proof.
  intros config r. unfold r, runCustomProvider, configured_by.
  destruct (truthy (baseURL config)), (truthy (apiKey config)); cbn [negb orb andb].
  2-4: eexists; split; [done|]; cbn; by repeat split.
  destruct (tool_loop _ _ _ _ _ _ _) as [[| err | res] st].
  - eexists; split; [done|]; cbn; by repeat split.
  - eexists; split; [done|]; cbn; by repeat split.
  - destruct (bool_decide (res = None) && _).
    + eexists; split; [done|]; cbn; by repeat split.
    + destruct (saveSession _ _ _ _ _ _ _) as [[w2 logs2]|[err w1]];
        eexists; (split; [done|]); cbn; by repeat split.
Qed.

End Config.

Definition environment_only : gmap string string :=
  {[ "CUSTOM_PROVIDER_BASE_URL" := "https://openrouter.ai/api/v1/";
     "CUSTOM_PROVIDER_API_KEY" := "sk-or-v1-test" ]}.

Definition broken_config_file : gmap string (string + string) :=
  {[ DEFAULT_CONFIG_PATH := inl "{ baseURL: " ]}.

Definition rejecting_parse (content : string) : RawConfig + string :=
  inr "Expected property name or '}' in JSON at position 2".

Lemma environment_alone_is_enough_witness :
  configured_by (resolve_config rejecting_parse environment_only broken_config_file)
  = true.
Proof.
  apply (environment_alone_is_enough rejecting_parse environment_only
           broken_config_file).
  reflexivity.
Defined.

(** ** A scripted run *)

(** A container: the commands run so far, and the file tree, in which the
    session files lie. *)
Record Container := {
  commands : nat;
  tree : Sandbox.node
}.

Definition container_fs : FileSystem Container :=
  {| existsSync := fun p c => bool_decide (is_Some (Sandbox.stat p (tree c)));
     readFileSync := fun p c => Sandbox.readFileSync p (tree c);
     mkdirSync := fun p c =>
       match Sandbox.mkdirSync p (tree c) with
       | inl t => (None, {| commands := commands c; tree := t |})
       | inr err => (Some err, c)
       end;
     writeFileSync := fun p text c =>
       match Sandbox.writeFileSync p text (tree c) with
       | inl t => (None, {| commands := commands c; tree := t |})
       | inr err => (Some err, c)
       end |}.

Definition string_field (name : string) (args : Json.jobject) : option string :=
  match Json.get name args with
  | Some (Json.JString s) => Some s
  | _ => None
  end.

(** Two tools: one that counts a command, and [Write] on the tree. *)
Definition counting_bash : ToolExecutor Container Json.jobject :=
  {| def_name := "Bash";
     execute := fun _ c =>
       (inl "(no output)", {| commands := S (commands c); tree := tree c |}) |}.

Definition write_tool : ToolExecutor Container Json.jobject :=
  {| def_name := "Write";
     execute := fun args c =>
       match Sandbox.Write (string_field "path" args) (string_field "content" args)
               (tree c) with
       | (Sandbox.Returned text, t) =>
           (inl text, {| commands := commands c; tree := t |})
       | (Sandbox.Thrown msg, t) =>
           (inr msg, {| commands := commands c; tree := t |})
       end |}.

(** The argument texts of the scripted calls, and their parse. *)
Definition write_sessions_arguments : string :=
  "{" +:+ dq +:+ "path" +:+ dq +:+ ":" +:+ dq +:+ ".sessions" +:+ dq +:+ ","
  +:+ dq +:+ "content" +:+ dq +:+ ":" +:+ dq +:+ "x" +:+ dq +:+ "}".

Definition example_JSON_parse (text : string) : Json.jobject + string :=
  if String.eqb text "{}" then inl []
  else if String.eqb text write_sessions_arguments then
    inl [ ("path", Some (Json.JString ".sessions"));
          ("content", Some (Json.JString "x")) ]
  else inr "Unexpected token".

(** Stand-ins for the two JSON functions on session files: one text is
    known to parse, to the earlier history; what is written tells the number
    of turns. *)
Definition earlier_history : list Message :=
  [UserMessage "earlier"; AssistantMessage (ContentString "ok") None].

Definition earlier_text : string := "{messages:[earlier,ok]}".

Definition example_parse_session (text : string) : SessionFile :=
  if String.eqb text earlier_text then SessionMessages earlier_history
  else Unparsable "Unexpected token".

Definition example_stringify_session (messages : list Message) : string :=
  "{messages:[" +:+ pretty (length messages) +:+ " turns]}".

Definition bash_call : ToolCall :=
  {| tc_id := "call_1"; tc_name := Some "Bash"; tc_arguments := Some "{}" |}.

Definition write_sessions_call : ToolCall :=
  {| tc_id := "call_2"; tc_name := Some "Write";
     tc_arguments := Some write_sessions_arguments |}.

Definition always_bash (n : nat) (msgs : list Message) : Completion :=
  Choice ContentNull (Some [bash_call]).

Definition configured : ProviderConfig :=
  {| baseURL := Some "https://provider.example/v1"; apiKey := Some "sk-test";
     model := "anthropic/claude-3.5-sonnet" |}.

Definition hello_input : ContainerInput :=
  {| prompt := "hello"; sessionId := Some "s1"; groupFolder := "family-chat";
     chatJid := "120363336345536173@g.us"; isMain := false;
     isScheduledTask := false |}.

(** A container in which the session [s1] was saved before, and one without
    session files. *)
Definition earlier_container : Container :=
  {| commands := O;
     tree :=
       Sandbox.sandbox
         [(".sessions", Sandbox.Dir [("s1.json", Sandbox.File (Some earlier_text))])] |}.

Definition fresh_container : Container :=
  {| commands := O; tree := Sandbox.sandbox [] |}.

Definition scripted (create : nat -> list Message -> Completion)
  (input : ContainerInput) (c : Container) : Run Container :=
  runCustomProvider Container Json.jobject example_JSON_parse create "fresh-id"
    container_fs example_parse_session example_stringify_session configured
    [counting_bash; write_tool] input c.

Definition scripted_run (create : nat -> list Message -> Completion)
  : Run Container :=
  scripted create hello_input earlier_container.

Definition scripted_loop_end (create : nat -> list Message -> Completion)
  : LoopState Container :=
  loop_end Container Json.jobject example_JSON_parse create "fresh-id"
    container_fs example_parse_session [counting_bash; write_tool] hello_input
    earlier_container.

Lemma always_tool_calls_exhausts_round_budget_witness :
  outputs (scripted_run always_bash) =
    [ {| status := error; result := None;
         newSessionId := Some (session_of "fresh-id" hello_input);
         error_message := Some "Max tool rounds exceeded" |} ] /\
  thrown (scripted_run always_bash) = None /\
  round (final (scripted_run always_bash)) = 30%nat /\
  logs (final (scripted_run always_bash)) =
    (loadSession Container container_fs example_parse_session
       (session_of "fresh-id" hello_input) earlier_container []).2
    ++ map round_log (seq 1 30) /\
  final (scripted_run always_bash) = scripted_loop_end always_bash.
Proof.
  apply (always_tool_calls_exhausts_round_budget Container Json.jobject
           example_JSON_parse always_bash "fresh-id" container_fs
           example_parse_session example_stringify_session configured
           [counting_bash; write_tool] hello_input earlier_container).
  - reflexivity.
  - reflexivity.
  - intros n msgs. by exists ContentNull, bash_call, [].
Defined.

(** In that run the tool was run once per round, and the session file is
    the earlier one. *)
Example always_bash_runs_thirty_commands :
  commands (world (final (scripted_run always_bash))) = 30%nat /\
  tree (world (final (scripted_run always_bash))) = tree earlier_container.
Proof. split; reflexivity. Qed.

(** One round of tool calls, then plain text: the run succeeds and the
    session file holds what is written for the earlier history and the four
    new turns. *)
Definition one_tool_round (n : nat) (msgs : list Message) : Completion :=
  match n with
  | 1%nat => Choice ContentNull (Some [bash_call])
  | _ => Choice (ContentParts [Some "all "; None; Some "done"]) None
  end.

Example one_tool_round_is_saved :
  outputs (scripted_run one_tool_round) =
    [ {| status := success; result := Some "all done"; newSessionId := Some "s1";
         error_message := None |} ] /\
  messages (final (scripted_run one_tool_round)) =
    earlier_history
    ++ [ UserMessage "hello";
         AssistantMessage ContentNull (Some [bash_call]);
         ToolMessage "call_1" "(no output)";
         AssistantMessage (ContentParts [Some "all "; None; Some "done"]) None ] /\
  readFileSync container_fs (session_path "s1")
    (world (final (scripted_run one_tool_round)))
  = inl (example_stringify_session (messages (final (scripted_run one_tool_round)))).
Proof. repeat split; vm_compute; reflexivity. Qed.

(** The completion call throws at the second round: the error is reported
    and rethrown, and the session file is still the earlier one. *)
Definition fails_at_round_two (n : nat) (msgs : list Message) : Completion :=
  match n with
  | 2%nat => Rejects "Connection error."
  | _ => Choice ContentNull (Some [bash_call])
  end.

Example transport_failure_is_not_saved :
  outputs (scripted_run fails_at_round_two) =
    [ {| status := error; result := None; newSessionId := Some "s1";
         error_message := Some "Connection error." |} ] /\
  thrown (scripted_run fails_at_round_two) = Some "Connection error." /\
  tree (world (final (scripted_run fails_at_round_two))) = tree earlier_container.
Proof. repeat split; reflexivity. Qed.





(** ** When the session cannot be saved *)

(** The first round has [Write] create a file named [.sessions] in the
    root, the second gives the answer.  Making the directory of the sessions
    then throws: the run reports that error and rethrows it, although the
    endpoint answered. *)
Definition blocks_sessions_directory (n : nat) (msgs : list Message) : Completion :=
  match n with
  | 1%nat => Choice ContentNull (Some [write_sessions_call])
  | _ => Choice (ContentString "done") None
  end.

Definition fresh_input : ContainerInput :=
  {| prompt := "hello"; sessionId := None; groupFolder := "family-chat";
     chatJid := "120363336345536173@g.us"; isMain := false;
     isScheduledTask := false |}.

Example blocked_sessions_directory_fails_the_run :
  let r := scripted blocks_sessions_directory fresh_input fresh_container in
  outputs r =
    [ {| status := error; result := None; newSessionId := Some "fresh-id";
         error_message :=
           Some "EEXIST: file already exists, mkdir '/workspace/group/.sessions'" |} ] /\
  thrown r = Some "EEXIST: file already exists, mkdir '/workspace/group/.sessions'" /\
  Sandbox.stat "/workspace/group/.sessions" (tree (world (final r)))
  = Some (Sandbox.File (Some "x")).
Proof. repeat split; vm_compute; reflexivity. Qed.

(** A session identifier with a slash names a file in a directory that does
    not exist: the write throws, the error is logged, and the run reports
    success although nothing was saved. *)
Definition answers_at_once (n : nat) (msgs : list Message) : Completion :=
  Choice (ContentString "done") None.

Definition slash_input : ContainerInput :=
  {| prompt := "hello"; sessionId := Some "a/b"; groupFolder := "family-chat";
     chatJid := "120363336345536173@g.us"; isMain := false;
     isScheduledTask := false |}.

Example unsaved_session_is_reported_as_success :
  let r := scripted answers_at_once slash_input fresh_container in
  outputs r =
    [ {| status := success; result := Some "done"; newSessionId := Some "a/b";
         error_message := None |} ] /\
  thrown r = None /\
  existsSync container_fs (session_path "a/b") (world (final r)) = false /\
  logs (final r) =
    [ round_log 1;
      "Failed to save session a/b: ENOENT: no such file or directory, open '/workspace/group/.sessions/a/b.json'";
      "Custom provider completed successfully" ].
Proof. repeat split; vm_compute; reflexivity. Qed.

(** ** Further scripted runs *)

(** Tool calls up to round twenty-nine, then a final message whose text is
    empty. *)
Definition empty_answer_at_thirty (n : nat) (msgs : list Message) : Completion :=
  if (n <? 30)%nat then Choice ContentNull (Some [bash_call])
  else Choice (ContentString "") None.

Definition empty_run : Run Container := scripted_run empty_answer_at_thirty.

Definition empty_left : LoopState Container :=
  scripted_loop_end empty_answer_at_thirty.

Lemma final_answer_at_round_witness :
  round (final empty_run) = 30%nat /\
  if String.eqb "" "" && (30 =? 30)%nat then
    outputs empty_run =
      [ {| status := error; result := None; newSessionId := Some "s1";
           error_message := Some "Max tool rounds exceeded" |} ] /\
    thrown empty_run = None /\
    final empty_run = empty_left
  else
    match mkdirSync container_fs SESSIONS_DIR (world empty_left) with
    | (Some err, w1) =>
        outputs empty_run =
          [ {| status := error; result := None; newSessionId := Some "s1";
               error_message := Some err |} ] /\
        thrown empty_run = Some err /\
        world (final empty_run) = w1
    | (None, w1) =>
        outputs empty_run =
          [ {| status := success;
               result := if String.eqb "" "" then None else Some "";
               newSessionId := Some "s1"; error_message := None |} ] /\
        thrown empty_run = None /\
        match writeFileSync container_fs (session_path "s1")
                (example_stringify_session (messages empty_left)) w1 with
        | (None, w2) =>
            world (final empty_run) = w2 /\
            logs (final empty_run)
            = logs empty_left ++ ["Custom provider completed successfully"]
        | (Some err, w2) =>
            world (final empty_run) = w2 /\
            logs (final empty_run)
            = logs empty_left
              ++ [ "Failed to save session " +:+ "s1" +:+ ": " +:+ err;
                   "Custom provider completed successfully" ]
        end
    end.
Proof.
  apply (final_answer_at_round Container Json.jobject example_JSON_parse
           empty_answer_at_thirty "fresh-id" container_fs example_parse_session
           example_stringify_session configured [counting_bash; write_tool]
           hello_input earlier_container 30 "").
  - reflexivity.
  - reflexivity.
  - lia.
  - split.
    + intros n msgs Hn. exists ContentNull, bash_call, [].
      unfold empty_answer_at_thirty. by rewrite (proj2 (Nat.ltb_lt n 30) Hn).
    + intros msgs. by exists (ContentString ""), None.
Defined.


(** ** The schedule tool in the catalog *)

Section Dispatch.

Variable Date_now : nat -> Z.
Variable random_suffix : nat -> string.
Variable toISOString : nat -> string.
Variable cron_parses : string -> bool.
Variable date_parses : string -> bool.
Variable JSON_parse : string -> Ipc.OpenAIArgs + string.

(** The entry [mcp__nanoclaw__schedule_task] of [getIpcToolsForOpenAI(ctx)]. *)
Definition schedule_task_executor (ctx : Ipc.IpcMcpContext)
  : ToolExecutor Ipc.World Ipc.OpenAIArgs :=
  {| def_name := "mcp__nanoclaw__schedule_task";
     execute := fun args w =>
       let '(receipt, w') :=
         Ipc.openai_schedule_task Date_now random_suffix toISOString
           cron_parses date_parses ctx args w in
       (inl receipt, w') |}.

(** The loop hands the parsed arguments of a call to the executor as they
    are: between the model and [execute] nothing checks them against the
    declared parameters. *)
Lemma dispatch_schedule_task
  (executorMap : gmap string (ToolExecutor Ipc.World Ipc.OpenAIArgs))
  (ctx : Ipc.IpcMcpContext) (tc : ToolCall) (args : Ipc.OpenAIArgs)
  (w : Ipc.World) :
  executorMap !! "mcp__nanoclaw__schedule_task" = Some (schedule_task_executor ctx) ->
  tc_name tc = Some "mcp__nanoclaw__schedule_task" ->
  JSON_parse (default "{}" (tc_arguments tc)) = inl args ->
  run_tool_call Ipc.World Ipc.OpenAIArgs JSON_parse executorMap tc w
  = Ipc.openai_schedule_task Date_now random_suffix toISOString cron_parses
      date_parses ctx args w.
Proof.
  intros Hmap Hname Hparse. unfold run_tool_call. rewrite Hname. simpl.
  rewrite Hmap, Hparse. simpl.
  by destruct (Ipc.openai_schedule_task _ _ _ _ _ ctx args w).
Qed.

End Dispatch.

Lemma dispatch_schedule_task_witness :
  run_tool_call Ipc.World Ipc.OpenAIArgs (fun _ => inl Ipc.weekly_args)
    (getExecutorMap Ipc.World Ipc.OpenAIArgs
       [schedule_task_executor Ipc.example_Date_now Ipc.example_random_suffix
          Ipc.example_toISOString Ipc.example_cron_parses
          Ipc.example_date_parses Ipc.family_chat])
    {| tc_id := "call_7"; tc_name := Some "mcp__nanoclaw__schedule_task";
       tc_arguments := None |}
    Ipc.empty_world
  = Ipc.example_openai_schedule_task Ipc.family_chat Ipc.weekly_args
      Ipc.empty_world.
Proof.
  apply (dispatch_schedule_task Ipc.example_Date_now Ipc.example_random_suffix
           Ipc.example_toISOString Ipc.example_cron_parses
           Ipc.example_date_parses (fun _ => inl Ipc.weekly_args)); reflexivity.
Defined.

End Provider.

(* ===================================================================== *)
(** * The local web server ([web-server.ts]) *)
(* ===================================================================== *)

Module Web.
Import JS Json.

(** A request as the handler reads it: the method, the URL, and the body,
    which arrives whole or fails ([inr]). *)
Record Request := {
  method : option string;
  url : option string;
  body : string + string
}.

(** What [JSON.parse] makes of the body: it throws, gives [null], or gives
    a value of which [prompt] is a string or not. *)
Inductive Parsed :=
  | ParseThrows
  | ParsedNull
  | ParsedValue (prompt : option string).

Inductive ReplyBody :=
  | NoBody
  | JsonBody (data : jobject)
  | HtmlBody (html : string).

Record Reply := {
  statusCode : nat;
  content : ReplyBody
}.

Definition sendJson (statusCode : nat) (data : jobject) : Reply :=
  {| statusCode := statusCode; content := JsonBody data |}.

Definition sendHtml (statusCode : nat) (html : string) : Reply :=
  {| statusCode := statusCode; content := HtmlBody html |}.

Section Server.

(** The host the server runs on; the two checks before a run, which throw
    ([Some], the message) or not; the agent run, which returns an output or
    throws; the read of [public/index.html]. *)
Variable Host : Type.
Variable JSON_parse : string -> Parsed.
Variable preflight : Host -> option string * Host.
Variable runContainerAgent :
  Provider.ContainerInput -> Host -> (Provider.ContainerOutput + string) * Host.
Variable read_index : Host -> string + string.

(** What handling a request comes to: the reply sent, if one is sent; the
    input the agent was run with, if it was run; the host afterwards. *)
Record Handled := {
  reply : option Reply;
  asked : option Provider.ContainerInput;
  host_after : Host
}.

Definition replied (r : Reply) (h : Host) : Handled :=
  {| reply := Some r; asked := None; host_after := h |}.

Definition web_input (prompt : string) : Provider.ContainerInput :=
  {| Provider.prompt := prompt; Provider.sessionId := None;
     Provider.groupFolder := "main"; Provider.chatJid := "web@local";
     Provider.isMain := true; Provider.isScheduledTask := false |}.

Definition handleAsk (req : Request) (h : Host) : Handled :=
  if negb (bool_decide (method req = Some "POST")) then
    replied (sendJson 405 [("error", Some (JString "Method not allowed"))]) h
  else
    match body req with
    | inr _ =>
        replied (sendJson 400 [("error", Some (JString "Invalid request body"))]) h
    | inl body =>
        match JSON_parse (if String.eqb body "" then "{}" else body) with
        | ParseThrows =>
            replied (sendJson 400 [("error", Some (JString "Invalid JSON"))]) h
        | ParsedNull => {| reply := None; asked := None; host_after := h |}
        | ParsedValue p =>
            let prompt := match p with Some s => trim s | None => "" end in
            if String.eqb prompt "" then
              replied
                (sendJson 400 [("error", Some (JString "Missing or empty prompt"))]) h
            else
              match preflight h with
              | (Some msg, h1) =>
                  replied
                    (sendJson 503 [ ("status", Some (JString "error"));
                                    ("error", Some (JString msg)) ]) h1
              | (None, h1) =>
                  let input := web_input prompt in
                  match runContainerAgent input h1 with
                  | (inl output, h2) =>
                      {| reply :=
                           Some
                             (match Provider.status output with
                              | Provider.success =>
                                  sendJson 200
                                    [ ("status", Some (JString "success"));
                                      ("result",
                                       Some (JString (default "" (Provider.result output)))) ]
                              | Provider.error =>
                                  sendJson 200
                                    [ ("status", Some (JString "error"));
                                      ("error",
                                       Some (JString
                                               (default "Unknown error"
                                                  (Provider.error_message output)))) ]
                              end);
                         asked := Some input; host_after := h2 |}
                  | (inr msg, h2) =>
                      {| reply :=
                           Some (sendJson 500 [ ("status", Some (JString "error"));
                                                ("error", Some (JString msg)) ]);
                         asked := Some input; host_after := h2 |}
                  end
              end
        end
    end.

Definition serveIndex (h : Host) : Reply :=
  match read_index h with
  | inl html => sendHtml 200 html
  | inr _ => sendJson 500 [("error", Some (JString "Missing public/index.html"))]
  end.

Definition pathname (req : Request) : string :=
  hd "" (split "?" (default "/" (url req))).

(** The request listener of [startWebServer]. *)
Definition serve (req : Request) (h : Host) : Handled :=
  if bool_decide (method req = Some "OPTIONS") then
    replied {| statusCode := 204; content := NoBody |} h
  else if String.eqb (pathname req) "/ask" then handleAsk req h
  else if String.eqb (pathname req) "/" || String.eqb (pathname req) "/index.html"
  then replied (serveIndex h) h
  else replied (sendJson 404 [("error", Some (JString "Not found"))]) h.

(** The agent is run for one kind of request only: a [POST] to [/ask]
    (whatever follows a question mark) whose body arrived, parses, and holds
    a string [prompt] that is not blank, once the checks before the run have
    passed.  It is then run on the trimmed prompt as the main group, for the
    conversation [web@local], with every privilege of the main group,
    whoever sent the request. *)
Theorem web_runs_agent_as_main_group
  (req : Request) (h : Host) (input : Provider.ContainerInput) :
  asked (serve req h) = Some input <->
  method req = Some "POST" /\
  pathname req = "/ask" /\
  exists text s,
    body req = inl text /\
    JSON_parse (if String.eqb text "" then "{}" else text) = ParsedValue (Some s) /\
    all_ws s = false /\
    (preflight h).1 = None /\
    input = web_input (trim s) /\
    Provider.isMain input = true /\ Provider.groupFolder input = "main".
Proof.
  unfold serve. split.
  - case_bool_decide as Hopt; [done|].
    destruct (String.eqb_spec (pathname req) "/ask") as [Hpath|Hpath].
    2:{ by destruct (String.eqb (pathname req) "/" || _). }
    unfold handleAsk. case_bool_decide as Hpost; [|done]. cbn [negb].
    destruct (body req) as [text|err]; [|done].
    destruct (JSON_parse _) as [| |[s|]] eqn:Hparse; try done.
    destruct (String.eqb_spec (trim s) "") as [Hblank|Hblank]; [done|].
    destruct (preflight h) as [[msg|] h1] eqn:Hpre; [done|].
    assert (all_ws s = false) as Hws.
    { destruct (all_ws s) eqn:E; [|done]. by apply Sandbox.trim_empty in E. }
    destruct (runContainerAgent (web_input (trim s)) h1) as [[output|msg] h2];
      cbn [asked]; intros [= <-];
      (split; [done|]); (split; [done|]); exists text, s; by repeat split.
  - intros (Hpost & Hpath & text & s & Hbody & Hparse & Hws & Hpre & -> & _).
    rewrite Hpost, Hpath. cbn [String.eqb]. rewrite bool_decide_eq_false_2 by done.
    replace (String.eqb "/ask" "/ask") with true by done.
    unfold handleAsk. rewrite Hpost, bool_decide_eq_true_2 by done. cbn [negb].
    rewrite Hbody, Hparse.
    destruct (String.eqb_spec (trim s) "") as [Hblank|Hblank].
    { apply Sandbox.trim_empty in Hblank. by rewrite Hblank in Hws. }
    destruct (preflight h) as [[msg|] h1]; [done|].
    by destruct (runContainerAgent (web_input (trim s)) h1) as [[output|msg] h2].
Qed.

End Server.

End Web.
